(** * RIASEC classifier and batch pipeline: a shallow embedding

    This development embeds [scripts/riasec_classifier.py] and the
    single-source path of [scripts/process_jobs.py] and proves properties of
    the text normaliser, the scoring passes, the code selection, the
    confidence estimate and the windowed batch loop.

    Modelling conventions.
    - A Python [str] is a [string]; the embedding follows Python on the ASCII
      range (code points 0..127).  Code points 128..255 of the [ascii] type
      are treated as caseless, non-blank, non-digit symbols.
    - Scores are Python floats that only ever accumulate the weights 3.0,
      2.0, 1.5 and 1.0; they are modelled as exact rationals ([Q]), and so
      is the arithmetic of the confidence estimate.
    - A Python [dict] whose iteration order matters is an association list
      in insertion order; a failing subscript ([KeyError]) is [None]. *)

From Stdlib Require Import String Ascii List Bool Arith NArith ZArith QArith.
From Stdlib Require Import Qround Qminmax Lia Lqa Permutation Sorted.
Import ListNotations.

Open Scope string_scope.
Open Scope bool_scope.
Open Scope nat_scope.

(* ================================================================== *)
(** ** Text processing *)
(* ================================================================== *)

Module Text.

(** [c.isupper()] on the ASCII range. *)
Definition is_upper (c : ascii) : bool :=
  (("A" <=? c) && (c <=? "Z"))%char.

(** [c.islower()] on the ASCII range. *)
Definition is_lower (c : ascii) : bool :=
  (("a" <=? c) && (c <=? "z"))%char.

Definition is_alpha (c : ascii) : bool := is_upper c || is_lower c.

(** [\d] on the ASCII range. *)
Definition is_digit (c : ascii) : bool :=
  (("0" <=? c) && (c <=? "9"))%char.

(** [c.isspace()], which is also what [\s] matches in a [str] pattern:
    TAB, LF, VT, FF, CR, the four separators FS, GS, RS, US and the blank. *)
Definition is_space (c : ascii) : bool :=
  let n := N_of_ascii c in
  (((9 <=? n) && (n <=? 13)) || ((28 <=? n) && (n <=? 32)))%N.

(** The character class of separators in [normalize_text]: hyphen,
    underscore, slash, backslash (code 92), full stop, comma, semicolon,
    colon and vertical bar. *)
Definition is_sep (c : ascii) : bool :=
  existsb (Ascii.eqb c)
    ["-"; "_"; "/"; "092"; "."; ","; ";"; ":"; "|"]%char.

Definition lower_char (c : ascii) : ascii :=
  if is_upper c then ascii_of_N (N_of_ascii c + 32) else c.

Definition upper_char (c : ascii) : ascii :=
  if is_lower c then ascii_of_N (N_of_ascii c - 32) else c.

Fixpoint map_str (f : ascii -> ascii) (s : string) : string :=
  match s with
  | EmptyString => EmptyString
  | String c r => String (f c) (map_str f r)
  end.

(** [s.lower()] *)
Definition lower (s : string) : string := map_str lower_char s.

(** The first [re.sub] of [normalize_text]: every separator becomes a
    space. *)
Definition replace_separators (s : string) : string :=
  map_str (fun c => if is_sep c then " "%char else c) s.

(** [re.sub(r'\s+', ' ', text)]: every maximal run of blanks becomes one
    space.  [in_run] tells that the previous character was a blank whose run
    has already been replaced. *)
Fixpoint collapse_from (in_run : bool) (s : string) : string :=
  match s with
  | EmptyString => EmptyString
  | String c r =>
      if is_space c
      then if in_run then collapse_from true r
           else String " " (collapse_from true r)
      else String c (collapse_from false r)
  end.

Definition collapse_whitespace (s : string) : string := collapse_from false s.

Fixpoint lstrip (s : string) : string :=
  match s with
  | EmptyString => EmptyString
  | String c r => if is_space c then lstrip r else s
  end.

Fixpoint rstrip (s : string) : string :=
  match s with
  | EmptyString => EmptyString
  | String c r =>
      match rstrip r with
      | EmptyString => if is_space c then EmptyString else String c EmptyString
      | r' => String c r'
      end
  end.

(** [s.strip()] *)
Definition strip (s : string) : string := rstrip (lstrip s).

(** [normalize_text] *)
Definition normalize_text (text : string) : string :=
  match text with
  | EmptyString => ""
  | _ => strip (collapse_whitespace (replace_separators (lower text)))
  end.

(** [p in s] for strings. *)
Fixpoint contains (p s : string) : bool :=
  String.prefix p s ||
  match s with
  | EmptyString => false
  | String _ r => contains p r
  end.

Fixpoint drop (n : nat) (s : string) : string :=
  match n, s with
  | O, _ => s
  | S _, EmptyString => EmptyString
  | S k, String _ r => drop k r
  end.

(** The text after the last match of [sep] in a left-to-right scan for
    non-overlapping matches, i.e. [s.split(sep)[-1]] when there is a match.
    [skip] counts characters of [s] still covered by the previous match. *)
Fixpoint after_last (sep : string) (skip : nat) (s : string) : option string :=
  match s with
  | EmptyString => None
  | String _ r =>
      match skip with
      | S k => after_last sep k r
      | O =>
          if String.prefix sep s
          then match after_last sep (String.length sep - 1) r with
               | Some t => Some t
               | None => Some (drop (String.length sep) s)
               end
          else after_last sep 0 r
      end
  end.

(** [s.split(sep)[-1]] for a non-empty [sep]. *)
Definition split_last (sep s : string) : string :=
  match after_last sep 0 s with
  | Some t => t
  | None => s
  end.

(** [s.split(sep)[0]] for a non-empty [sep]. *)
Fixpoint split_first (sep s : string) : string :=
  match s with
  | EmptyString => EmptyString
  | String c r => if String.prefix sep s then EmptyString
                  else String c (split_first sep r)
  end.

Fixpoint rev_str (acc s : string) : string :=
  match s with
  | EmptyString => acc
  | String c r => rev_str (String c acc) r
  end.

Fixpoint drop_while (p : ascii -> bool) (s : string) : string :=
  match s with
  | EmptyString => EmptyString
  | String c r => if p c then drop_while p r else s
  end.

(** On a reversed text: drop a leading run of one or more digits followed by
    a hyphen; [None] when the text does not start that way. *)
Definition drop_rev_id (r : string) : option string :=
  match r with
  | String d _ =>
      if is_digit d
      then match drop_while is_digit r with
           | String "-" rest => Some rest
           | _ => None
           end
      else None
  | EmptyString => None
  end.

(** [re.sub(r'-\d+$', '', path)]: [$] matches at the end of the text and
    also just before a line feed that ends the text. *)
Definition strip_trailing_id (path : string) : string :=
  match rev_str "" path with
  | String "010" r =>
      match drop_rev_id r with
      | Some rest => rev_str "" (String "010" rest)
      | None => path
      end
  | r =>
      match drop_rev_id r with
      | Some rest => rev_str "" rest
      | None => path
      end
  end.

(** [s.title()]: the first letter of every run of letters in upper case, the
    others in lower case. *)
Fixpoint title_from (prev_cased : bool) (s : string) : string :=
  match s with
  | EmptyString => EmptyString
  | String c r =>
      if is_alpha c
      then String (if prev_cased then lower_char c else upper_char c)
                  (title_from true r)
      else String c (title_from false r)
  end.

Definition title (s : string) : string := title_from false s.

(** [extract_title_from_url] (and its copy [extract_title_from_link] of the
    batch script).  No operation of the guarded block can raise on a [str],
    so the [except] branch is never taken. *)
Definition extract_title_from_url (job_link : string) : string :=
  match job_link with
  | EmptyString => ""
  | _ =>
      if contains "/view/" job_link then
        let path := split_last "/view/" job_link in
        let path := strip_trailing_id path in
        let path := if contains "-at-" path then split_first "-at-" path
                    else path in
        let t := strip (map_str (fun c => if Ascii.eqb c "-" then " "%char
                                          else c) path) in
        title t
      else ""
  end.

End Text.

(* ================================================================== *)
(** ** Dictionaries in insertion order *)
(* ================================================================== *)

Section Dict.
Context {V : Type}.

(** [d.get(k)] *)
Fixpoint dict_get (k : string) (d : list (string * V)) : option V :=
  match d with
  | [] => None
  | (k', v) :: r => if String.eqb k k' then Some v else dict_get k r
  end.

(** [d[k] = f(d[k])]; the subscript raises [KeyError] on a missing key.
    An existing key keeps its place in the iteration order. *)
Fixpoint dict_update (k : string) (f : V -> V) (d : list (string * V))
  : option (list (string * V)) :=
  match d with
  | [] => None
  | (k', v) :: r =>
      if String.eqb k k' then Some ((k', f v) :: r)
      else option_map (cons (k', v)) (dict_update k f r)
  end.
End Dict.

(** A small error monad: [None] is a raised exception. *)
Definition bind {A B : Type} (m : option A) (f : A -> option B) : option B :=
  match m with
  | Some a => f a
  | None => None
  end.

Notation "x <- m ;; k" := (bind m (fun x => k))
  (at level 61, m at next level, right associativity).

(* ================================================================== *)
(** ** The indicator framework *)
(* ================================================================== *)

Module Framework.

(** One entry of [riasec_types].  A missing ['skill_indicators'] or
    ['keywords'] key reads as an empty list through [.get(..., [])]. *)
Record type_data := {
  name : option string;
  display_title : option string;
  strong : list string;
  moderate : list string;
  keywords : list string
}.

(** One entry of [combinations]: a JSON object with optional fields, or a
    plain text. *)
Inductive combo_info :=
| ComboDict (description gift : option string)
| ComboText (text : string).

Record framework := {
  riasec_types : list (string * type_data);
  combinations : list (string * combo_info)
}.

Definition mk (n t : string) (s m : list string) : type_data :=
  {| name := Some n; display_title := Some t;
     strong := s; moderate := m; keywords := [] |}.

(** [get_embedded_framework] *)
Definition get_embedded_framework : framework :=
  {| riasec_types :=
       [ ("R", mk "Realistic" "The Doers"
            ["maintenance"; "repair"; "construction"; "welding"; "plumbing";
             "electrical"; "HVAC"; "carpentry"; "machinery"; "forklift"; "CDL";
             "truck driving"; "warehouse"; "manufacturing"; "assembly";
             "installation"; "mechanical"; "automotive"; "diesel";
             "landscaping"; "farming"; "firefighting"; "EMT"; "CPR"; "BLS"]
            ["hands-on"; "technical"; "field work"; "troubleshooting";
             "inspection"; "quality control"; "building"; "fixing"]);
         ("I", mk "Investigative" "The Thinkers"
            ["research"; "analysis"; "data analysis"; "statistics";
             "analytics"; "programming"; "software development"; "Python";
             "Java"; "JavaScript"; "SQL"; "machine learning"; "AI";
             "data science"; "algorithms"; "debugging"; "laboratory";
             "clinical research"; "diagnosis"; "engineering"; "mathematics";
             "physics"; "chemistry"; "biology"]
            ["problem-solving"; "critical thinking"; "investigation";
             "evaluation"; "assessment"; "documentation"; "technical writing";
             "analytical"]);
         ("A", mk "Artistic" "The Creators"
            ["graphic design"; "UI design"; "UX design"; "visual design";
             "web design"; "illustration"; "photography"; "videography";
             "video editing"; "animation"; "creative writing"; "copywriting";
             "content creation"; "music"; "acting"; "dance"; "fashion design";
             "interior design"; "Adobe"; "Photoshop"; "Illustrator"; "Figma";
             "art direction"]
            ["creative"; "innovative"; "artistic"; "aesthetic"; "visual";
             "media"; "content"; "brand"; "design"]);
         ("S", mk "Social" "The Helpers"
            ["teaching"; "education"; "training"; "nursing"; "patient care";
             "caregiving"; "home health"; "counseling"; "therapy";
             "psychology"; "social work"; "case management";
             "customer service"; "customer support"; "coaching"; "mentoring";
             "healthcare"; "medical"; "clinical"; "pediatric"; "geriatric";
             "special education"]
            ["communication"; "interpersonal"; "empathy"; "listening";
             "teamwork"; "collaboration"; "support"; "helping"; "service"]);
         ("E", mk "Enterprising" "The Persuaders"
            ["sales"; "business development"; "account management";
             "management"; "leadership"; "executive"; "director";
             "supervisor"; "marketing"; "advertising"; "public relations";
             "entrepreneurship"; "negotiation"; "persuasion"; "recruiting";
             "real estate"; "project management"; "operations management"]
            ["strategic"; "competitive"; "goal-oriented"; "results-driven";
             "influencing"; "presenting"; "pitching"; "networking";
             "business"]);
         ("C", mk "Conventional" "The Organizers"
            ["accounting"; "bookkeeping"; "auditing"; "tax preparation";
             "payroll"; "administrative"; "clerical"; "data entry"; "filing";
             "records management"; "scheduling"; "compliance"; "regulatory";
             "inventory management"; "logistics"; "supply chain"; "billing";
             "invoicing"; "Microsoft Office"; "Excel"; "QuickBooks"; "SAP"]
            ["organized"; "detail-oriented"; "systematic"; "accurate";
             "precise"; "process"; "procedure"; "documentation";
             "reporting"]) ];
     combinations := [] |}.

End Framework.

(* ================================================================== *)
(** ** Classification logic *)
(* ================================================================== *)

Module Classifier.
Import Text Framework.

Definition STRONG_INDICATOR_WEIGHT : Q := 3.
Definition MODERATE_INDICATOR_WEIGHT : Q := 3 # 2.
Definition KEYWORD_WEIGHT : Q := 1.
Definition TITLE_BONUS_WEIGHT : Q := 2.

(** The weights as the f-strings of the trace print them. *)
Definition strong_tag : string := "(+3.0)".
Definition moderate_tag : string := "(+1.5)".
Definition keyword_tag : string := "(+1.0)".

(** Iterating a [str] yields its characters as one-character strings. *)
Fixpoint chars_of (s : string) : list string :=
  match s with
  | EmptyString => []
  | String c r => String c EmptyString :: chars_of r
  end.

Definition alphabet : list string := chars_of "RIASEC".

Definition scores_t := list (string * Q).
Definition matched_t := list (string * list string).

(** The two dictionaries that [calculate_riasec_scores] updates in place. *)
Definition state := (scores_t * matched_t)%type.

(** [scores[letter] += w] *)
Definition add_score (letter : string) (w : Q) (st : state) : option state :=
  sc <- dict_update letter (fun v => (v + w)%Q) (fst st) ;;
  Some (sc, snd st).

(** [matched[letter].append(entry)] *)
Definition record_match (letter entry : string) (st : state) : option state :=
  ma <- dict_update letter (fun l => (l ++ [entry])%list) (snd st) ;;
  Some (fst st, ma).

(** The body of a [for] loop run over a list, stopping at the first raise. *)
Fixpoint for_each {A : Type} (body : state -> A -> option state)
    (l : list A) (st : state) : option state :=
  match l with
  | [] => Some st
  | x :: r => st' <- body st x ;; for_each body r st'
  end.

Section Passes.
Variables (letter combined_text title_text : string).

(** Body of the loop over the strong indicators. *)
Definition strong_step (st : state) (skill : string) : option state :=
  let skill_lower := lower skill in
  if contains skill_lower combined_text then
    st1 <- add_score letter STRONG_INDICATOR_WEIGHT st ;;
    st2 <- record_match letter (skill ++ strong_tag) st1 ;;
    if contains skill_lower title_text
    then add_score letter TITLE_BONUS_WEIGHT st2
    else Some st2
  else Some st.

(** Body of the loop over the moderate indicators. *)
Definition moderate_step (st : state) (skill : string) : option state :=
  let skill_lower := lower skill in
  if contains skill_lower combined_text then
    recorded <- dict_get letter (snd st) ;;
    if negb (existsb (fun m => contains skill_lower (lower m)) recorded)
    then
      st1 <- add_score letter MODERATE_INDICATOR_WEIGHT st ;;
      record_match letter (skill ++ moderate_tag) st1
    else Some st
  else Some st.

(** Body of the loop over the type keywords. *)
Definition keyword_step (indicators : type_data) (st : state)
    (keyword : string) : option state :=
  let keyword_lower := lower keyword in
  let strong_list := map lower (strong indicators) in
  let moderate_list := map lower (moderate indicators) in
  if contains keyword_lower combined_text
     && negb (existsb (String.eqb keyword_lower) strong_list)
     && negb (existsb (String.eqb keyword_lower) moderate_list)
  then
    st1 <- add_score letter KEYWORD_WEIGHT st ;;
    record_match letter (keyword ++ keyword_tag) st1
  else Some st.

(** One iteration of the loop over [RIASEC_TYPES.items()]. *)
Definition score_type (td : type_data) (st : state) : option state :=
  st1 <- for_each strong_step (strong td) st ;;
  st2 <- for_each moderate_step (moderate td) st1 ;;
  for_each (keyword_step td) (keywords td) st2.
End Passes.

Definition initial_state : state :=
  (map (fun l => (l, 0%Q)) alphabet, map (fun l => (l, @nil string)) alphabet).

(** [calculate_riasec_scores] *)
Definition calculate_riasec_scores (fw : framework)
    (skills_text job_title : string) : option state :=
  let combined_text := normalize_text (job_title ++ " " ++ skills_text) in
  let title_text := normalize_text job_title in
  for_each (fun st '(letter, td) =>
              score_type letter combined_text title_text td st)
           (riasec_types fw) initial_state.

(** [x < y] on scores. *)
Definition Qltb (x y : Q) : bool := negb (Qle_bool y x).

(** Python's [min(a, b)]: [b] when [b < a], else [a]. *)
Definition py_min (a b : Q) : Q := if Qltb b a then b else a.

(** [sorted(l, key=key, reverse=True)].  Python's sort is stable also with
    [reverse=True]: elements with equal keys keep their order.  A list has
    only one stable descending rearrangement; it is computed here by
    insertion from the right: an element moves past exactly the elements
    with a strictly larger key. *)
Fixpoint insert_desc {A : Type} (key : A -> Q) (x : A) (l : list A) : list A :=
  match l with
  | [] => [x]
  | y :: r => if Qle_bool (key y) (key x) then x :: l
              else y :: insert_desc key x r
  end.

Definition sorted_desc {A : Type} (key : A -> Q) (l : list A) : list A :=
  fold_right (insert_desc key) [] l.

(** The loop collecting up to three letters with a positive score. *)
Definition top_positive (sorted_scores : scores_t) : list string :=
  fold_left (fun top_3 '(letter, score) =>
               if Qltb 0 score && (length top_3 <? 3)
               then (top_3 ++ [letter])%list else top_3)
            sorted_scores [].

(** [determine_riasec_code] *)
Definition determine_riasec_code (scores : scores_t) : string :=
  let sorted_scores := sorted_desc snd scores in
  let top_3 := top_positive sorted_scores in
  let top_3 :=
    if length top_3 <? 3 then
      let remaining :=
        map fst (filter (fun '(letter, _) =>
                           negb (existsb (String.eqb letter) top_3))
                        sorted_scores) in
      (top_3 ++ firstn (3 - length top_3) remaining)%list
    else top_3 in
  String.concat "" (firstn 3 top_3).

(** [sum(scores.values())] *)
Definition total_of (scores : scores_t) : Q :=
  fold_left Qplus (map snd scores) 0%Q.

(** [calculate_confidence].  The subscript [sorted_scores[0]] is only
    reached with a non-zero total, hence with a non-empty dictionary. *)
Definition calculate_confidence (scores : scores_t) : Q :=
  let total_score := total_of scores in
  if Qeq_bool total_score 0 then 0%Q
  else
    let sorted_scores := sorted_desc (fun v => v) (map snd scores) in
    let top_score := hd 0%Q sorted_scores in
    let dominance := (top_score / total_score)%Q in
    let evidence_factor := py_min (total_score / 10) 1 in
    let confidence := (dominance * (6 # 10) + evidence_factor * (4 # 10))%Q in
    py_min confidence 1.

(** [round(x, 3)]: to the nearest multiple of 1/1000, an exact tie going to
    the even neighbour.  The code rounds the float it computed: where the
    exact value is a decimal tie, float error may send the code to the
    other neighbour; both are nearest multiples. *)
Definition round3 (x : Q) : Q :=
  let y := (x * 1000)%Q in
  let f := Qfloor y in
  let twice_rest := ((y - inject_Z f) * 2)%Q in
  let n := if Qltb twice_rest 1 then f
           else if Qltb 1 twice_rest then (f + 1)%Z
           else if Z.even f then f else (f + 1)%Z in
  (n # 1000)%Q.

Record classification := {
  riasec_code : string;
  primary_type : string;
  scores : scores_t;
  confidence : Q;
  total_score : Q;
  description : string;
  gift : string;
  matched_indicators : matched_t
}.

(** [classify_job] *)
Definition classify_job (fw : framework)
    (skills_text job_title job_link : string) : option classification :=
  let job_title :=
    match job_title, job_link with
    | EmptyString, String _ _ => extract_title_from_url job_link
    | _, _ => job_title
    end in
  st <- calculate_riasec_scores fw skills_text job_title ;;
  let '(scores, matched) := st in
  let riasec_code := determine_riasec_code scores in
  let confidence := calculate_confidence scores in
  let '(description, gift) :=
    match dict_get riasec_code (combinations fw) with
    | Some (ComboDict d g) =>
        (match d with Some x => x | None => "No description available" end,
         match g with Some x => x | None => "" end)
    | Some (ComboText "") | None => ("No description available", "")
    | Some (ComboText t) => (t, "")
    end in
  let primary_letter :=
    match riasec_code with
    | String c _ => String c EmptyString
    | EmptyString => "I"
    end in
  let primary_type :=
    match dict_get primary_letter (riasec_types fw) with
    | Some td => match name td with Some n => n | None => "Unknown" end
    | None => "Unknown"
    end in
  Some {| riasec_code := riasec_code;
          primary_type := primary_type;
          scores := scores;
          confidence := round3 confidence;
          total_score := total_of scores;
          description := description;
          gift := gift;
          matched_indicators :=
            filter (fun '(_, v) => match v with [] => false | _ => true end)
                   matched |}.

End Classifier.

(* ================================================================== *)
(** ** The single-source batch pipeline *)
(* ================================================================== *)

Module Pipeline.
Import Text Framework Classifier.

Definition DEFAULT_BATCH_SIZE : nat := N.to_nat 50000.

(** A cell of a text column: SQL NULL (Python [None]) or a text. *)
Inductive cell := Null | Txt (s : string).

(** The input source: a header and the data rows under it. *)
Record table := {
  columns : list string;
  rows : list (list cell)
}.

(** The values a result row holds. *)
Inductive value :=
| VCell (c : cell)
| VStr (s : string)
| VNum (q : Q).

(** A result row is a Python dict, in insertion order. *)
Definition record := list (string * value).

Inductive exn :=
| SourceError     (* the query engine cannot read the source *)
| ColumnError     (* a selected column is not in the source *)
| UnpackError     (* a fetched row does not unpack into the expected names *)
| KeyError        (* a dictionary or data-frame subscript fails *)
| WriteError.     (* the destination cannot be written *)

Inductive outcome (A : Type) :=
| Returned (a : A)
| Raised (e : exn)
| OutOfFuel.
Arguments Returned {A} a.
Arguments Raised {A} e.
Arguments OutOfFuel {A}.

(** [str(x) if x else ''] *)
Definition text_of (c : cell) : string :=
  match c with
  | Null => ""
  | Txt s => s
  end.

(** Body of the loop of [process_batch]. *)
Definition process_row (fw : framework) (has_title : bool) (row : list cell)
  : outcome record :=
  let unpacked :=
    match has_title, row with
    | true, [job_link; job_skills; job_title] =>
        Some (job_link, job_skills, text_of job_title)
    | false, [job_link; job_skills] =>
        Some (job_link, job_skills,
              extract_title_from_url (text_of job_link))
    | _, _ => None
    end in
  match unpacked with
  | None => Raised UnpackError
  | Some (job_link, job_skills, title) =>
      let skills := text_of job_skills in
      match classify_job fw skills title (text_of job_link) with
      | None => Raised KeyError
      | Some classification =>
          Returned
            [ ("job_link", VCell job_link);
              ("job_skills", VCell job_skills);
              ("extracted_title", VStr title);
              ("riasec_code", VStr (riasec_code classification));
              ("riasec_confidence", VNum (confidence classification));
              ("primary_riasec_type", VStr (primary_type classification));
              ("riasec_total_score", VNum (total_score classification)) ]
      end
  end.

(** [process_batch] *)
Fixpoint process_batch (fw : framework) (has_title : bool)
    (batch_data : list (list cell)) : outcome (list record) :=
  match batch_data with
  | [] => Returned []
  | row :: rest =>
      match process_row fw has_title row with
      | Returned r =>
          match process_batch fw has_title rest with
          | Returned rs => Returned (r :: rs)
          | Raised e => Raised e
          | OutOfFuel => OutOfFuel
          end
      | Raised e => Raised e
      | OutOfFuel => OutOfFuel
      end
  end.

(** Position of a column in the header; the query engine compares
    identifiers without regard to case. *)
Fixpoint column_index (c : string) (header : list string) : option nat :=
  match header with
  | [] => None
  | h :: r => if String.eqb (lower c) (lower h) then Some 0
              else option_map S (column_index c r)
  end.

Fixpoint column_indices (cols header : list string) : option (list nat) :=
  match cols with
  | [] => Some []
  | c :: r =>
      i <- column_index c header ;;
      idxs <- column_indices r header ;;
      Some (i :: idxs)
  end.

(** [SELECT cols FROM source LIMIT limit OFFSET offset], with [cols] plain
    column names. *)
Definition select_window (t : table) (cols : list string) (limit offset : nat)
  : option (list (list cell)) :=
  idxs <- column_indices cols (columns t) ;;
  Some (map (fun row => map (fun i => nth i row Null) idxs)
            (firstn limit (skipn offset (rows t)))).

(** The [while processed < total_rows] loop.  One unit of [fuel] is spent
    per test of the loop condition; the first component of the result counts
    the windows that were classified. *)
Fixpoint window_loop (fuel : nat) (fw : framework) (t : table)
    (select_cols : list string) (has_title : bool)
    (batch_size total_rows processed : nat) (all_results : list record)
    (windows : nat) : nat * outcome (list record) :=
  match fuel with
  | O => (windows, OutOfFuel)
  | S fuel' =>
      if processed <? total_rows then
        let limit := Nat.min batch_size (total_rows - processed) in
        match select_window t select_cols limit processed with
        | None => (windows, Raised ColumnError)
        | Some batch_data =>
            match process_batch fw has_title batch_data with
            | Returned batch_results =>
                window_loop fuel' fw t select_cols has_title batch_size
                  total_rows (processed + length batch_data)
                  (all_results ++ batch_results)%list (S windows)
            | Raised e => (windows, Raised e)
            | OutOfFuel => (windows, OutOfFuel)
            end
        end
      else (windows, Returned all_results)
  end.

Record dataframe := {
  df_columns : list string;
  df_rows : list record
}.

Definition add_key (seen : list string) (k : string) : list string :=
  if existsb (String.eqb k) seen then seen else (seen ++ [k])%list.

(** [pd.DataFrame(records)]: the columns are the keys of the records in the
    order in which they first appear; there is none for an empty list. *)
Definition make_dataframe (records : list record) : dataframe :=
  {| df_columns :=
       fold_left (fun seen r => fold_left add_key (map fst r) seen)
                 records [];
     df_rows := records |}.

Definition has_column (df : dataframe) (c : string) : bool :=
  existsb (String.eqb c) (df_columns df).

Inductive format := Parquet | Csv.

(** [s.endswith(suffix)] *)
Definition ends_with (suffix s : string) : bool :=
  String.prefix (rev_str "" suffix) (rev_str "" s).

(** What a run did: the windows it classified, what it wrote to the
    destination, and how it ended. *)
Record run := {
  windows : nat;
  written : option (format * dataframe);
  result : outcome dataframe
}.

(** The columns the query selects: the link, the skills and, when a title
    column is named, the title. *)
Definition select_cols (skills_col link_col : string)
    (title_col : option string) : list string :=
  ([link_col; skills_col] ++
   match title_col with
   | Some (String _ _ as c) => [c]
   | _ => []
   end)%list.

(** [has_title=(title_col is not None)] *)
Definition has_title (title_col : option string) : bool :=
  match title_col with
  | Some _ => true
  | None => false
  end.

(** [process_csv_file].  The source is [None] when the input path cannot be
    read.  The elapsed-time and rate figures that the function prints are
    left out; a [sample_size] of [None] or [0] means no sampling. *)
Definition process_csv_file (fuel : nat) (fw : framework)
    (source : option table) (dest_writable : bool) (output_path : string)
    (skills_col link_col : string) (title_col : option string)
    (batch_size : nat) (sample_size : option nat) : run :=
  match source with
  | None => {| windows := 0; written := None; result := Raised SourceError |}
  | Some t =>
      let total_rows := length (rows t) in
      let total_rows :=
        match sample_size with
        | Some (S _ as n) => Nat.min total_rows n
        | _ => total_rows
        end in
      match window_loop fuel fw t (select_cols skills_col link_col title_col)
              (has_title title_col) batch_size total_rows 0 [] 0 with
      | (w, Returned all_results) =>
          let df := make_dataframe all_results in
          if dest_writable then
            let fmt := if ends_with ".parquet" output_path then Parquet
                       else Csv in
            {| windows := w;
               written := Some (fmt, df);
               result :=
                 if has_column df "riasec_code"
                    && has_column df "primary_riasec_type"
                    && has_column df "riasec_confidence"
                 then Returned df else Raised KeyError |}
          else {| windows := w; written := None; result := Raised WriteError |}
      | (w, Raised e) => {| windows := w; written := None; result := Raised e |}
      | (w, OutOfFuel) => {| windows := w; written := None; result := OutOfFuel |}
      end
  end.

End Pipeline.

(* ================================================================== *)
(** ** Specification-side predicates *)
(* ================================================================== *)

Module Spec.
Import Text.

(** Every character of the text satisfies [p]. *)
Fixpoint all_chars (p : ascii -> bool) (s : string) : bool :=
  match s with
  | EmptyString => true
  | String c r => p c && all_chars p r
  end.

(** A character that normalisation leaves alone: not an upper-case letter,
    not a separator, and no blank other than the space. *)
Definition settled (c : ascii) : bool :=
  Ascii.eqb (lower_char c) c && negb (is_sep c)
  && (negb (is_space c) || Ascii.eqb c " ").

(** No two blanks in a row; [after_blank] tells that a blank precedes. *)
Fixpoint single_spaced (after_blank : bool) (s : string) : bool :=
  match s with
  | EmptyString => true
  | String c r =>
      if is_space c then negb after_blank && single_spaced true r
      else single_spaced false r
  end.

(** No two blanks in a row and no blank at the end. *)
Fixpoint well_spaced (after_blank : bool) (s : string) : bool :=
  match s with
  | EmptyString => negb after_blank
  | String c r =>
      if is_space c then negb after_blank && well_spaced true r
      else well_spaced false r
  end.

(** The canonical form: settled characters, no leading, trailing or
    repeated blank. *)
Definition normal_form (s : string) : bool :=
  all_chars settled s &&
  match s with
  | EmptyString => true
  | _ => well_spaced true s
  end.

(** The six letters of the code alphabet. *)
Definition riasec_letter (c : ascii) : bool :=
  existsb (Ascii.eqb c) ["R"; "I"; "A"; "S"; "E"; "C"]%char.

(** Every category letter of the loaded framework is in the alphabet. *)
Definition letters_in_alphabet (fw : Framework.framework) : bool :=
  forallb (fun p => existsb (String.eqb (fst p)) Classifier.alphabet)
          (Framework.riasec_types fw).

(** Position of a letter in the fixed order R, I, A, S, E, C. *)
Fixpoint rank_in (l : list string) (x : string) : nat :=
  match l with
  | [] => 0
  | y :: r => if String.eqb x y then 0 else S (rank_in r x)
  end.

Definition alpha_rank (x : string) : nat := rank_in Classifier.alphabet x.

(** The order of a stable descending sort: a larger key first, and among
    equal keys the element that came [before]. *)
Definition stable_desc {A : Type} (key : A -> Q) (before : A -> A -> Prop)
    (a b : A) : Prop :=
  (key b < key a)%Q \/ ((key a == key b)%Q /\ before a b).

(** [a] comes before [b] in the ranking: a larger score, or the same score
    and an earlier letter. *)
Definition ranks_before (a b : string * Q) : Prop :=
  (snd b < snd a)%Q \/
  ((snd a == snd b)%Q /\ alpha_rank (fst a) < alpha_rank (fst b)).

(** The largest value of a list. *)
Fixpoint top_of (vs : list Q) : Q :=
  match vs with
  | [] => 0%Q
  | [v] => v
  | v :: r => Qmax v (top_of r)
  end.

(** The confidence as the specification words it. *)
Definition confidence_formula (total_score top_score : Q) : Q :=
  Qmin ((6 # 10) * (top_score / total_score)
        + (4 # 10) * Qmin (total_score / 10) 1) 1.

(** What one strong indicator adds to its category. *)
Definition strong_points (combined_text title_text skill : string) : Q :=
  if contains (lower skill) combined_text
  then if contains (lower skill) title_text then (3 + 2)%Q else 3%Q
  else 0%Q.

(** The trace entries of a list of strong indicators. *)
Definition strong_trace (combined_text : string) (skills : list string)
  : list string :=
  map (fun k => k ++ Classifier.strong_tag)
      (filter (fun k => contains (lower k) combined_text) skills).

Definition sumQ (l : list Q) : Q := fold_right Qplus 0%Q l.


(** The shape of the two dictionaries during scoring: one bucket per
    letter, in the fixed order, and no negative score. *)
Definition sound (st : Classifier.state) : Prop :=
  map fst (fst st) = Classifier.alphabet
  /\ map fst (snd st) = Classifier.alphabet
  /\ Forall (fun p => (0 <= snd p)%Q) (fst st).

(** A loop body that keeps the dictionaries sound, and one that cannot
    raise on sound dictionaries. *)
Definition keeps {A : Type}
    (body : Classifier.state -> A -> option Classifier.state) : Prop :=
  forall st x st', body st x = Some st' -> sound st -> sound st'.

Definition never_raises {A : Type}
    (body : Classifier.state -> A -> option Classifier.state) : Prop :=
  forall st x, sound st -> exists st', body st x = Some st'.

(** The body of the loop of [top_positive]. *)
Definition take_positive (top_3 : list string) (p : string * Q) : list string :=
  let '(letter, score) := p in
  if Classifier.Qltb 0 score && (length top_3 <? 3)
  then (top_3 ++ [letter])%list else top_3.

(** The buckets of the letters other than [letter] are the same in both
    states. *)
Definition same_elsewhere (letter : string) (st st' : Classifier.state)
  : Prop :=
  forall k, k <> letter ->
    dict_get k (fst st') = dict_get k (fst st)
    /\ dict_get k (snd st') = dict_get k (snd st).


(** The columns of the table the single-source run writes. *)
Definition output_columns : list string :=
  ["job_link"; "job_skills"; "extracted_title"; "riasec_code";
   "riasec_confidence"; "primary_riasec_type"; "riasec_total_score"].

(** The four derived columns the specification names. *)
Definition derived_columns : list string :=
  ["riasec_code"; "riasec_confidence"; "primary_riasec_type";
   "extracted_title"].

(** The title the pipeline classifies a selected row with. *)
Definition row_title (with_title : bool) (row : list Pipeline.cell) : string :=
  if with_title then Pipeline.text_of (nth 2 row Pipeline.Null)
  else Text.extract_title_from_url (Pipeline.text_of (nth 0 row Pipeline.Null)).

(** The result row carries the link and skills cells of the selected row
    and the classification of that row. *)
Definition classified_as (fw : Framework.framework) (with_title : bool)
    (row : list Pipeline.cell) (rec : Pipeline.record) : Prop :=
  exists c,
    Classifier.classify_job fw
      (Pipeline.text_of (nth 1 row Pipeline.Null))
      (row_title with_title row)
      (Pipeline.text_of (nth 0 row Pipeline.Null)) = Some c
    /\ rec =
       [ ("job_link", Pipeline.VCell (nth 0 row Pipeline.Null));
         ("job_skills", Pipeline.VCell (nth 1 row Pipeline.Null));
         ("extracted_title", Pipeline.VStr (row_title with_title row));
         ("riasec_code", Pipeline.VStr (Classifier.riasec_code c));
         ("riasec_confidence", Pipeline.VNum (Classifier.confidence c));
         ("primary_riasec_type", Pipeline.VStr (Classifier.primary_type c));
         ("riasec_total_score", Pipeline.VNum (Classifier.total_score c)) ]
    /\ String.length (Classifier.riasec_code c) = 3
    /\ all_chars riasec_letter (Classifier.riasec_code c) = true
    /\ (0 <= Classifier.confidence c <= 1)%Q.

(** The cells of a source row under the selected columns. *)
Definition project (idxs : list nat) (row : list Pipeline.cell)
  : list Pipeline.cell :=
  map (fun i => nth i row Pipeline.Null) idxs.

(** A run that fails before it writes anything or classifies any window. *)
Definition fails_before_writing (r : Pipeline.run) : Prop :=
  exists e,
    Pipeline.result r = Pipeline.Raised e
    /\ Pipeline.written r = None
    /\ Pipeline.windows r = 0.

End Spec.

(* ================================================================== *)
(** ** The in-memory batch path of the classifier script *)
(* ================================================================== *)

Module Frames.
Import Text Framework Classifier.

(** A cell of a data frame: a missing value, a text or a float. *)
Inductive pcell := NaN | Str (s : string) | Num (q : Q).

(** A data frame: its column labels and, row by row, the cells under
    them.  The row index is the default one, 0, 1, 2, ...; the functions
    below follow the library for frames whose labels are distinct. *)
Record frame := {
  labels : list string;
  body : list (list pcell)
}.

Section Process.
(** How Python prints a float; the functions below only pass it on. *)
Variable repr_float : Q -> string.

(** [str(x)] on a cell. *)
Definition py_str (c : pcell) : string :=
  match c with
  | NaN => "nan"
  | Str s => s
  | Num q => repr_float q
  end.

(** Position of a label among the column labels, compared exactly. *)
Fixpoint label_index (c : string) (ls : list string) : option nat :=
  match ls with
  | [] => None
  | h :: r => if String.eqb c h then Some 0
              else option_map S (label_index c r)
  end.

(** [str(row.get(col, '')) if col and col in df.columns else ''] *)
Definition text_at (ls : list string) (row : list pcell)
    (col : option string) : string :=
  match col with
  | Some (String _ _ as c) =>
      match label_index c ls with
      | Some i => py_str (nth i row NaN)
      | None => EmptyString
      end
  | _ => EmptyString
  end.

Fixpoint set_nth (i : nat) (v : pcell) (row : list pcell) : list pcell :=
  match i, row with
  | _, [] => []
  | O, _ :: r => v :: r
  | S k, x :: r => x :: set_nth k v r
  end.

(** [df[label] = values], with one value per row: an existing column is
    overwritten in place, a new one is added at the end. *)
Definition set_column (label : string) (values : list pcell) (df : frame)
  : frame :=
  match label_index label (labels df) with
  | Some i =>
      {| labels := labels df;
         body := map (fun '(row, v) => set_nth i v row)
                     (combine (body df) values) |}
  | None =>
      {| labels := (labels df ++ [label])%list;
         body := map (fun '(row, v) => (row ++ [v])%list)
                     (combine (body df) values) |}
  end.

(** The loop of [process_dataframe] over the rows: the classification of
    every row, or [None] as soon as one raises. *)
Fixpoint classify_rows (fw : framework) (ls : list string)
    (skills_col title_col link_col : option string)
    (rows : list (list pcell)) : option (list classification) :=
  match rows with
  | [] => Some []
  | row :: rest =>
      r <- classify_job fw (text_at ls row skills_col)
             (text_at ls row title_col) (text_at ls row link_col) ;;
      rs <- classify_rows fw ls skills_col title_col link_col rest ;;
      Some (r :: rs)
  end.

(** [process_dataframe], without its progress messages. *)
Definition process_dataframe (fw : framework) (df : frame)
    (skills_col title_col link_col : option string) : option frame :=
  rs <- classify_rows fw (labels df) skills_col title_col link_col
          (body df) ;;
  let df := set_column "riasec_code"
              (map (fun r => Str (riasec_code r)) rs) df in
  let df := set_column "riasec_confidence"
              (map (fun r => Num (confidence r)) rs) df in
  let df := set_column "primary_riasec_type"
              (map (fun r => Str (primary_type r)) rs) df in
  Some df.
End Process.

End Frames.

(* ================================================================== *)
(** ** The tools built on the classifier *)
(* ================================================================== *)

Module Tools.
Import Text Framework Classifier.

(** [s.upper()] *)
Definition upper (s : string) : string := map_str upper_char s.

(** The dictionary [infer_riasec_from_skills] returns. *)
Record inference := {
  inferred_code : string;
  inferred_type : string;
  inferred_confidence : Q;
  inferred_description : string;
  inferred_scores : scores_t;
  inferred_matches : matched_t
}.

(** [infer_riasec_from_skills] *)
Definition infer_riasec_from_skills (fw : framework) (skills : list string)
  : option inference :=
  let skills_text := String.concat ", " skills in
  r <- classify_job fw skills_text EmptyString EmptyString ;;
  Some {| inferred_code := riasec_code r;
          inferred_type := primary_type r;
          inferred_confidence := confidence r;
          inferred_description := description r;
          inferred_scores := scores r;
          inferred_matches := matched_indicators r |}.

(** The characters of [set(s)], each once. *)
Fixpoint letters_of (s : string) : list ascii :=
  match s with
  | EmptyString => []
  | String c r =>
      if existsb (Ascii.eqb c) (letters_of r) then letters_of r
      else c :: letters_of r
  end.

(** [s[i] == t[i]] guarded by [len(s) > i and len(t) > i]. *)
Definition same_at (i : nat) (s t : string) : bool :=
  match String.get i s, String.get i t with
  | Some a, Some b => Ascii.eqb a b
  | _, _ => false
  end.

Record comparison := {
  learner_riasec : string;
  job_riasec : string;
  fit_score : nat;
  fit_level : string;
  recommendation : string;
  primary_match : bool;
  secondary_match : bool;
  tertiary_match : bool;
  shared_types : list ascii
}.

(** [compare_riasec_codes].  [None] is the [IndexError] of the subscript
    [[0]] on an empty code.  The order of [shared_types] is that of a Python
    set and carries no meaning. *)
Definition compare_riasec_codes (learner_riasec job_riasec : string)
  : option comparison :=
  let learner := upper learner_riasec in
  let job := upper job_riasec in
  l0 <- String.get 0 learner ;;
  j0 <- String.get 0 job ;;
  let primary_match := Ascii.eqb l0 j0 in
  let secondary_match := same_at 1 learner job in
  let tertiary_match := same_at 2 learner job in
  let shared :=
    filter (fun c => existsb (Ascii.eqb c) (letters_of job))
           (letters_of learner) in
  let overlap_count := length shared in
  let fit_score := 0 in
  let fit_score := if primary_match then fit_score + 50 else fit_score in
  let fit_score := if secondary_match then fit_score + 30 else fit_score in
  let fit_score :=
    if tertiary_match then fit_score + 20
    else if 1 <? overlap_count then fit_score + (overlap_count - 1) * 10
    else fit_score in
  let '(fit_level, recommendation) :=
    if 80 <=? fit_score then
      ("Excellent",
       "Strong match - your interests align very well with this role")
    else if 50 <=? fit_score then
      ("Good", "Good match - your primary interests align with this role")
    else if 30 <=? fit_score then
      ("Moderate",
       "Moderate match - some shared interests but significant differences")
    else
      ("Low",
       "Limited match - this role may be quite different from your natural preferences")
  in
  Some {| learner_riasec := learner;
          job_riasec := job;
          fit_score := fit_score;
          fit_level := fit_level;
          recommendation := recommendation;
          primary_match := primary_match;
          secondary_match := secondary_match;
          tertiary_match := tertiary_match;
          shared_types := shared |}.

End Tools.

(* ================================================================== *)
(** ** Further specification-side predicates *)
(* ================================================================== *)

Module SpecMore.
Import Text Framework Classifier.

(** A keyword that scores: it occurs in the text and is, in lower case, no
    strong and no moderate indicator of its category. *)
Definition keyword_counts (combined_text : string) (td : type_data)
    (keyword : string) : bool :=
  contains (lower keyword) combined_text
  && negb (existsb (String.eqb (lower keyword)) (map lower (strong td)))
  && negb (existsb (String.eqb (lower keyword)) (map lower (moderate td))).

(** Some indicator of the category reaches its bucket. *)
Definition touches (combined_text : string) (td : type_data) : bool :=
  existsb (fun k => contains (lower k) combined_text) (strong td)
  || existsb (fun k => contains (lower k) combined_text) (moderate td)
  || existsb (keyword_counts combined_text td) (keywords td).

(** No indicator of any category of the framework reaches a bucket. *)
Definition untouched (fw : framework) (combined_text : string) : bool :=
  forallb (fun p => negb (touches combined_text (snd p))) (riasec_types fw).

(** The trace entries of a list of keywords. *)
Definition keyword_trace (combined_text : string) (td : type_data)
    (kws : list string) : list string :=
  map (fun k => k ++ keyword_tag)
      (filter (keyword_counts combined_text td) kws).

(** Scores and trace agree: a bucket without trace entry holds 0, a
    bucket with a trace entry holds at least 1. *)
Definition coherent (st : state) : Prop :=
  forall letter v tr,
    dict_get letter (fst st) = Some v ->
    dict_get letter (snd st) = Some tr ->
    (tr = [] -> (v == 0)%Q) /\ (tr <> [] -> (1 <= v)%Q).

(** The number of rows a run sets out to classify: all that the source
    holds, or at most the size of the sample. *)
Definition rows_to_process (available : nat) (sample_size : option nat)
  : nat :=
  match sample_size with
  | Some (S _ as n) => Nat.min available n
  | _ => available
  end.

(** The least number of windows of [size] rows that hold [n] rows. *)
Definition ceil_div (n size : nat) : nat := (n + size - 1) / size.

(** The outcome of classifying further rows after [acc]. *)
Definition extend (acc : list Pipeline.record)
    (o : Pipeline.outcome (list Pipeline.record))
  : Pipeline.outcome (list Pipeline.record) :=
  match o with
  | Pipeline.Returned recs => Pipeline.Returned (acc ++ recs)%list
  | Pipeline.Raised e => Pipeline.Raised e
  | Pipeline.OutOfFuel => Pipeline.OutOfFuel
  end.

(** The cells of a frame under a label. *)
Definition column (label : string) (df : Frames.frame)
  : option (list Frames.pcell) :=
  match Frames.label_index label (Frames.labels df) with
  | Some i => Some (map (fun row => nth i row Frames.NaN) (Frames.body df))
  | None => None
  end.

(** Every row of the frame has one cell per label. *)
Definition rectangular (df : Frames.frame) : Prop :=
  Forall (fun row => length row = length (Frames.labels df))
         (Frames.body df).

(** The columns [process_dataframe] sets. *)
Definition added_columns : list string :=
  ["riasec_code"; "riasec_confidence"; "primary_riasec_type"].

(** A result row with its title column blanked. *)
Definition blank_title (rec : Pipeline.record) : Pipeline.record :=
  map (fun kv => if String.eqb (fst kv) "extracted_title"
                 then (fst kv, Pipeline.VStr EmptyString) else kv) rec.

End SpecMore.

(* ================================================================== *)
(** ** The embedding at work *)
(* ================================================================== *)

Module Examples.
Import Text Framework Classifier Pipeline.

Example normalize_separators :
  normalize_text "  Data-Analyst / SQL,,Python_3  "
  = "data analyst sql python 3".
Proof. reflexivity. Qed.

Example normalize_blank_runs :
  normalize_text (String "009" (String "028" "Team" ++ String "010" "  Lead"))
  = "team lead".
Proof. reflexivity. Qed.

Example normalize_backslash :
  normalize_text ("C" ++ String "092" "C++ ; R|SAS") = "c c++ r sas".
Proof. reflexivity. Qed.

Example title_from_link :
  extract_title_from_url
    "https://www.linkedin.com/jobs/view/senior-data-analyst-at-acme-corp-1234567890"
  = "Senior Data Analyst".
Proof. reflexivity. Qed.

Example title_without_marker :
  extract_title_from_url "https://www.linkedin.com/jobs/12345" = EmptyString.
Proof. reflexivity. Qed.

Example trailing_id_only_at_end :
  strip_trailing_id "abc-12-34" = "abc-12"
  /\ strip_trailing_id ("x-12" ++ String "010" EmptyString)
     = String "x" (String "010" EmptyString)
  /\ strip_trailing_id "abc-12x" = "abc-12x".
Proof. repeat split. Qed.

Example split_keeps_last_piece :
  split_last "/view/" "a/view/view/b" = "view/b"
  /\ split_first "-at-" "x-at-y-at-z" = "x".
Proof. split; reflexivity. Qed.

Example title_case : title "o'neil 3d-x" = "O'Neil 3D-X".
Proof. reflexivity. Qed.

Example ranking_is_stable :
  sorted_desc snd
    [("R", 0); ("I", 3); ("A", 3); ("S", 0); ("E", 3 # 2); ("C", 3)]%Q
  = [("I", 3); ("A", 3); ("C", 3); ("E", 3 # 2); ("R", 0); ("S", 0)]%Q.
Proof. reflexivity. Qed.

Example code_fills_with_zero_scores :
  determine_riasec_code
    [("R", 0); ("I", 0); ("A", 0); ("S", 3 # 2); ("E", 0); ("C", 0)]%Q
  = "SRI".
Proof. reflexivity. Qed.

Example confidence_of_a_split_vote :
  (calculate_confidence
     [("R", 3); ("I", 3); ("A", 1); ("S", 0); ("E", 0); ("C", 0)]
   == 94 # 175)%Q
  /\ round3 (94 # 175) = (537 # 1000)%Q.
Proof. split; reflexivity. Qed.

Example data_scientist_is_investigative :
  option_map (fun r => (riasec_code r, primary_type r))
    (classify_job get_embedded_framework
       "Python, SQL, Machine Learning, Data Analysis" "Data Scientist"
       EmptyString)
  = Some ("IRA", "Investigative").
Proof. vm_compute. reflexivity. Qed.

Example title_match_scores_five :
  option_map (fun r => dict_get "A" (scores r))
    (classify_job get_embedded_framework "visual design" EmptyString
       "https://jobs.example/view/graphic-designer-at-studio-77")
  = Some (Some (8 # 1)%Q).
Proof. vm_compute. reflexivity. Qed.

Example no_evidence :
  option_map (fun r => (riasec_code r, confidence r, matched_indicators r))
    (classify_job get_embedded_framework "juggling" EmptyString EmptyString)
  = Some ("RIA", (0 # 1000)%Q, []).
Proof. vm_compute. reflexivity. Qed.

Example unknown_letter_raises :
  classify_job
    {| riasec_types := [("X", mk "Extra" "The Others" ["juggling"] [])];
       combinations := [] |}
    "juggling" EmptyString EmptyString
  = None.
Proof. reflexivity. Qed.

Example two_windows_for_three_rows :
  windows
    (process_csv_file 4 get_embedded_framework
       (Some {| columns := ["job_link"; "job_skills"];
                rows := [ [Null; Txt "welding"]; [Null; Txt "nursing"];
                          [Null; Txt "payroll"] ] |})
       true "out.parquet" "job_skills" "job_link" None 2 None)
  = 2.
Proof. vm_compute. reflexivity. Qed.

Example window_of_zero_rows_never_ends :
  result
    (process_csv_file 50 get_embedded_framework
       (Some {| columns := ["job_link"; "job_skills"];
                rows := [ [Null; Txt "welding"] ] |})
       true "out.parquet" "job_skills" "job_link" None 0 None)
  = OutOfFuel.
Proof. vm_compute. reflexivity. Qed.

End Examples.

(* ================================================================== *)
(** ** Facts about text normalisation *)
(* ================================================================== *)

Module TextFacts.
Import Text Spec.

Ltac by_cases_on_char c :=
  destruct c as [[] [] [] [] [] [] [] []]; vm_compute; reflexivity.

Lemma lowered_then_separated_settles (c : ascii) :
  let d := lower_char c in
  let e := if is_sep d then " "%char else d in
  (Ascii.eqb (lower_char e) e && negb (is_sep e))%bool = true.
Proof. by_cases_on_char c. Qed.

Lemma settled_fixed (c : ascii) :
  settled c = true ->
  lower_char c = c /\ is_sep c = false /\ (is_space c = true -> c = " "%char).
Proof.
  unfold settled. intro H.
  apply andb_true_iff in H as [H Hs]. apply andb_true_iff in H as [Hl Hp].
  apply Ascii.eqb_eq in Hl. apply negb_true_iff in Hp.
  repeat split; auto.
  intro Hb. rewrite Hb in Hs. simpl in Hs. now apply Ascii.eqb_eq in Hs.
Qed.

Lemma space_is_blank : is_space " " = true.
Proof. reflexivity. Qed.

Lemma all_chars_map (p : ascii -> bool) (f : ascii -> ascii) (s : string) :
  (forall c, p (f c) = true) -> all_chars p (map_str f s) = true.
Proof.
  intro H. induction s as [|c r IH]; simpl; [reflexivity|].
  now rewrite H, IH.
Qed.

Lemma map_str_fixed (f : ascii -> ascii) (s : string) :
  all_chars (fun c => Ascii.eqb (f c) c) s = true -> map_str f s = s.
Proof.
  induction s as [|c r IH]; simpl; [reflexivity|].
  intro H. apply andb_true_iff in H as [Hc Hr].
  apply Ascii.eqb_eq in Hc. now rewrite Hc, IH.
Qed.

Lemma all_chars_weaken (p q : ascii -> bool) (s : string) :
  (forall c, p c = true -> q c = true) ->
  all_chars p s = true -> all_chars q s = true.
Proof.
  intro H. induction s as [|c r IH]; simpl; [reflexivity|].
  intro Hs. apply andb_true_iff in Hs as [Hc Hr].
  now rewrite (H _ Hc), IH.
Qed.

(** *** What each stage establishes *)

Lemma collapse_settles (f : bool) (s : string) :
  all_chars (fun c => Ascii.eqb (lower_char c) c && negb (is_sep c)) s = true ->
  all_chars settled (collapse_from f s) = true.
Proof.
  revert f. induction s as [|c r IH]; intros f H; simpl; [reflexivity|].
  simpl in H. apply andb_true_iff in H as [Hc Hr].
  destruct (is_space c) eqn:Hsp.
  - destruct f; simpl; auto.
  - simpl. rewrite IH by assumption.
    unfold settled. now rewrite Hc, Hsp.
Qed.

Lemma lstrip_keeps (p : ascii -> bool) (s : string) :
  all_chars p s = true -> all_chars p (lstrip s) = true.
Proof.
  induction s as [|c r IH]; simpl; [reflexivity|].
  intro H. destruct (is_space c); [|exact H].
  apply andb_true_iff in H as [_ Hr]. auto.
Qed.

Lemma rstrip_keeps (p : ascii -> bool) (s : string) :
  all_chars p s = true -> all_chars p (rstrip s) = true.
Proof.
  induction s as [|c r IH]; simpl; [reflexivity|].
  intro H. apply andb_true_iff in H as [Hc Hr]. specialize (IH Hr).
  destruct (rstrip r) as [|d r'].
  - destruct (is_space c); simpl; [reflexivity|]. now rewrite Hc.
  - simpl in *. now rewrite Hc, IH.
Qed.

Lemma collapse_single_spaced (f : bool) (s : string) :
  single_spaced f (collapse_from f s) = true.
Proof.
  revert f. induction s as [|c r IH]; intro f; simpl; [reflexivity|].
  destruct (is_space c) eqn:Hsp.
  - destruct f; [apply IH|]. simpl. apply IH.
  - simpl. rewrite Hsp. apply IH.
Qed.

Lemma lstrip_single_spaced (f : bool) (s : string) :
  single_spaced f s = true -> single_spaced true (lstrip s) = true.
Proof.
  revert f. induction s as [|c r IH]; intros f H; simpl; [reflexivity|].
  simpl in H. destruct (is_space c) eqn:Hsp.
  - apply andb_true_iff in H as [_ Hr]. eauto.
  - simpl. now rewrite Hsp.
Qed.

Lemma rstrip_well_spaced (f : bool) (s : string) :
  single_spaced f s = true ->
  rstrip s = EmptyString \/ well_spaced f (rstrip s) = true.
Proof.
  revert f. induction s as [|c r IH]; intros f H; simpl; [now left|].
  simpl in H. destruct (is_space c) eqn:Hsp.
  - apply andb_true_iff in H as [Hf Hr].
    destruct (IH _ Hr) as [He|Hw].
    + rewrite He. now left.
    + destruct (rstrip r) as [|d r'] eqn:E; [discriminate Hw|].
      right. simpl. rewrite Hsp, Hf. exact Hw.
  - right. destruct (IH _ H) as [He|Hw].
    + rewrite He. simpl. now rewrite Hsp.
    + destruct (rstrip r) as [|d r'] eqn:E.
      * simpl. now rewrite Hsp.
      * simpl. rewrite Hsp. exact Hw.
Qed.

(** *** What each stage leaves alone *)

Lemma well_spaced_relax (s : string) :
  well_spaced true s = true -> well_spaced false s = true.
Proof.
  destruct s as [|c r]; simpl; [discriminate|].
  destruct (is_space c); [discriminate|auto].
Qed.

Lemma collapse_fixed (f : bool) (s : string) :
  all_chars settled s = true -> well_spaced f s = true ->
  collapse_from f s = s.
Proof.
  revert f. induction s as [|c r IH]; intros f Ha Hw; simpl; [reflexivity|].
  simpl in Ha, Hw. apply andb_true_iff in Ha as [Hc Hr].
  destruct (is_space c) eqn:Hsp.
  - apply andb_true_iff in Hw as [Hf Hw]. apply negb_true_iff in Hf. subst f.
    destruct (settled_fixed _ Hc) as (_ & _ & Hb).
    rewrite (Hb Hsp). f_equal. now apply IH.
  - f_equal. now apply IH.
Qed.

Lemma lstrip_fixed (s : string) :
  well_spaced true s = true -> lstrip s = s.
Proof.
  destruct s as [|c r]; simpl; [reflexivity|].
  destruct (is_space c); [discriminate|reflexivity].
Qed.

Lemma rstrip_fixed (f : bool) (s : string) :
  well_spaced f s = true -> rstrip s = s.
Proof.
  revert f. induction s as [|c r IH]; intros f H; simpl; [reflexivity|].
  simpl in H. destruct (is_space c) eqn:Hsp.
  - apply andb_true_iff in H as [_ Hw]. rewrite (IH _ Hw).
    destruct r; [discriminate Hw|reflexivity].
  - rewrite (IH _ H). destruct r; reflexivity.
Qed.

Lemma normalize_text_normal (t : string) :
  normal_form (normalize_text t) = true.
Proof.
  destruct t as [|c r]; [reflexivity|].
  unfold normalize_text, strip, collapse_whitespace, normal_form.
  set (x := replace_separators (lower (String c r))).
  assert (Hx : all_chars (fun c => Ascii.eqb (lower_char c) c
                                   && negb (is_sep c)) x = true).
  { unfold x, replace_separators, lower.
    assert (E : forall s, map_str (fun c => if is_sep c then " "%char else c)
                            (map_str lower_char s)
                        = map_str (fun c => if is_sep (lower_char c)
                                            then " "%char else lower_char c) s).
    { induction s as [|a s IH]; simpl; [reflexivity|]. now rewrite IH. }
    rewrite E. apply all_chars_map. intro a.
    apply (lowered_then_separated_settles a). }
  apply andb_true_iff. split.
  - apply rstrip_keeps, lstrip_keeps, collapse_settles, Hx.
  - pose proof (collapse_single_spaced false x) as H1.
    apply lstrip_single_spaced in H1.
    destruct (rstrip_well_spaced _ _ H1) as [E|W].
    + rewrite E. reflexivity.
    + destruct (rstrip _); [reflexivity|exact W].
Qed.

Lemma normalize_text_fixed (s : string) :
  normal_form s = true -> normalize_text s = s.
Proof.
  destruct s as [|c r]; [reflexivity|].
  unfold normal_form. intro H. apply andb_true_iff in H as [Ha Hw].
  set (s := String c r) in *.
  unfold normalize_text. fold s.
  assert (Hl : lower s = s).
  { apply map_str_fixed. revert Ha. apply all_chars_weaken.
    intros a Hs. destruct (settled_fixed _ Hs) as (E & _ & _).
    rewrite E. apply Ascii.eqb_refl. }
  assert (Hr : replace_separators s = s).
  { apply map_str_fixed. revert Ha. apply all_chars_weaken.
    intros a Hs. destruct (settled_fixed _ Hs) as (_ & E & _).
    rewrite E. apply Ascii.eqb_refl. }
  change (strip (collapse_whitespace (replace_separators (lower s))) = s).
  rewrite Hl, Hr. unfold strip, collapse_whitespace.
  rewrite (collapse_fixed false s Ha (well_spaced_relax _ Hw)).
  rewrite (lstrip_fixed _ Hw). apply (rstrip_fixed _ _ Hw).
Qed.

(** C10. Text normalisation is idempotent: normalising a normalised text
    gives it back, because the result of [normalize_text] has no upper-case
    letter, no separator character, no blank other than single spaces
    between words, and no blank at either end. *)
Theorem normalize_text_idempotent (t : string) :
  normalize_text (normalize_text t) = normalize_text t
  /\ normal_form (normalize_text t) = true.
Proof.
  split.
  - apply normalize_text_fixed, normalize_text_normal.
  - apply normalize_text_normal.
Qed.

End TextFacts.

(* ================================================================== *)
(** ** Facts about dictionaries *)
(* ================================================================== *)

Section DictFacts.
Context {V : Type}.
Implicit Types (d : list (string * V)) (k : string).

Lemma dict_update_keys k f d d' :
  dict_update k f d = Some d' -> map fst d' = map fst d.
Proof.
  revert d'. induction d as [|[k0 v0] r IH]; intros d' H; simpl in *.
  - discriminate.
  - destruct (String.eqb k k0).
    + injection H as <-. reflexivity.
    + destruct (dict_update k f r) as [r'|]; [|discriminate].
      injection H as <-. simpl. f_equal. now apply IH.
Qed.

Lemma dict_update_defined k f d :
  In k (map fst d) -> exists d', dict_update k f d = Some d'.
Proof.
  induction d as [|[k0 v0] r IH]; simpl; [tauto|].
  intros [E|Hin].
  - subst k0. rewrite String.eqb_refl. eauto.
  - destruct (String.eqb k k0); [eauto|].
    destruct (IH Hin) as [r' ->]. simpl. eauto.
Qed.

Lemma dict_update_values (P : V -> Prop) k f d d' :
  (forall v, P v -> P (f v)) ->
  Forall (fun p => P (snd p)) d ->
  dict_update k f d = Some d' ->
  Forall (fun p => P (snd p)) d'.
Proof.
  intros Hf. revert d'.
  induction d as [|[k0 v0] r IH]; intros d' Hd H; simpl in *.
  - discriminate.
  - inversion Hd as [|? ? H0 Hr]; subst.
    destruct (String.eqb k k0).
    + injection H as <-. constructor; simpl in *; auto.
    + destruct (dict_update k f r) as [r'|]; [|discriminate].
      injection H as <-. constructor; simpl in *; auto.
Qed.

Lemma dict_get_defined k d :
  In k (map fst d) -> exists v, dict_get k d = Some v.
Proof.
  induction d as [|[k0 v0] r IH]; simpl; [tauto|].
  intros [E|Hin].
  - subst k0. rewrite String.eqb_refl. eauto.
  - destruct (String.eqb k k0); eauto.
Qed.

(** Reading a key after an update. *)
Lemma dict_get_update k k' f d d' :
  dict_update k f d = Some d' ->
  dict_get k' d' =
    if String.eqb k' k then option_map f (dict_get k d) else dict_get k' d.
Proof.
  revert d'. induction d as [|[k0 v0] r IH]; intros d' H; simpl in *.
  - discriminate.
  - destruct (String.eqb k k0) eqn:E.
    + injection H as <-. simpl. apply String.eqb_eq in E. subst k0.
      destruct (String.eqb k' k); reflexivity.
    + destruct (dict_update k f r) as [r'|]; [|discriminate].
      injection H as <-. simpl. specialize (IH _ eq_refl).
      destruct (String.eqb k' k0) eqn:E'.
      * apply String.eqb_eq in E'. subst k0.
        destruct (String.eqb k' k) eqn:E''; [|reflexivity].
        apply String.eqb_eq in E''. subst k'.
        rewrite String.eqb_refl in E. discriminate.
      * exact IH.
Qed.
End DictFacts.

(* ================================================================== *)
(** ** Facts about scoring *)
(* ================================================================== *)

Module ScoringFacts.
Import Text Framework Classifier Spec.

Lemma bind_some {A B : Type} (m : option A) (f : A -> option B) (b : B) :
  bind m f = Some b -> exists a, m = Some a /\ f a = Some b.
Proof. destruct m as [a|]; simpl; [eauto|discriminate]. Qed.

Lemma initial_state_sound : sound initial_state.
Proof.
  repeat split; try reflexivity.
  unfold initial_state. simpl. repeat constructor; simpl; discriminate.
Qed.

Lemma add_score_keeps letter w st st' :
  (0 <= w)%Q -> add_score letter w st = Some st' -> sound st -> sound st'.
Proof.
  intros Hw H (Hs & Hm & Hn). unfold add_score in H.
  apply bind_some in H as (sc & Hu & E). injection E as <-.
  repeat split; simpl.
  - rewrite (dict_update_keys _ _ _ _ Hu). exact Hs.
  - exact Hm.
  - revert Hu. apply (dict_update_values (fun v => (0 <= v)%Q)); [|exact Hn].
    intros v Hv. lra.
Qed.

Lemma record_match_keeps letter entry st st' :
  record_match letter entry st = Some st' -> sound st -> sound st'.
Proof.
  intros H (Hs & Hm & Hn). unfold record_match in H.
  apply bind_some in H as (ma & Hu & E). injection E as <-.
  repeat split; simpl; auto.
  rewrite (dict_update_keys _ _ _ _ Hu). exact Hm.
Qed.

Lemma add_score_defined letter w st :
  In letter alphabet -> sound st -> exists st', add_score letter w st = Some st'.
Proof.
  intros Hl (Hs & _ & _). unfold add_score.
  rewrite <- Hs in Hl.
  destruct (dict_update_defined letter (fun v => (v + w)%Q) _ Hl) as [d ->].
  simpl. eauto.
Qed.

Lemma record_match_defined letter entry st :
  In letter alphabet -> sound st ->
  exists st', record_match letter entry st = Some st'.
Proof.
  intros Hl (_ & Hm & _). unfold record_match.
  rewrite <- Hm in Hl.
  destruct (dict_update_defined letter (fun l => (l ++ [entry])%list) _ Hl)
    as [d ->].
  simpl. eauto.
Qed.

Lemma weights_non_negative :
  (0 <= STRONG_INDICATOR_WEIGHT /\ 0 <= MODERATE_INDICATOR_WEIGHT
   /\ 0 <= KEYWORD_WEIGHT /\ 0 <= TITLE_BONUS_WEIGHT)%Q.
Proof. repeat split; discriminate. Qed.

Lemma for_each_keeps {A : Type} (body : state -> A -> option state) l :
  keeps body ->
  forall st st', for_each body l st = Some st' -> sound st -> sound st'.
Proof.
  intro K. induction l as [|x r IH]; intros st st' H Hs; simpl in H.
  - now injection H as <-.
  - apply bind_some in H as (st1 & H1 & H2). eauto.
Qed.

Lemma for_each_total {A : Type} (body : state -> A -> option state) l :
  keeps body -> never_raises body ->
  forall st, sound st -> exists st', for_each body l st = Some st'.
Proof.
  intros K T. induction l as [|x r IH]; intros st Hs; simpl; [eauto|].
  destruct (T st x Hs) as [st1 H1]. rewrite H1. simpl. eauto.
Qed.

Section Steps.
Variables (letter combined_text title_text : string).

Lemma strong_step_keeps : keeps (strong_step letter combined_text title_text).
Proof.
  intros st skill st' H Hs. unfold strong_step in H.
  destruct (contains (lower skill) combined_text); [|now injection H as <-].
  apply bind_some in H as (st1 & H1 & H).
  apply bind_some in H as (st2 & H2 & H).
  apply add_score_keeps in H1; [|discriminate|assumption].
  apply record_match_keeps in H2; [|assumption].
  destruct (contains (lower skill) title_text).
  - apply add_score_keeps in H; [assumption|discriminate|assumption].
  - now injection H as <-.
Qed.

Lemma moderate_step_keeps :
  keeps (moderate_step letter combined_text).
Proof.
  intros st skill st' H Hs. unfold moderate_step in H.
  destruct (contains (lower skill) combined_text); [|now injection H as <-].
  apply bind_some in H as (rec & _ & H).
  destruct (negb _); [|now injection H as <-].
  apply bind_some in H as (st1 & H1 & H).
  apply add_score_keeps in H1; [|discriminate|assumption].
  now apply record_match_keeps in H.
Qed.

Lemma keyword_step_keeps td :
  keeps (keyword_step letter combined_text td).
Proof.
  intros st kw st' H Hs. unfold keyword_step in H.
  destruct (_ && _); [|now injection H as <-].
  apply bind_some in H as (st1 & H1 & H).
  apply add_score_keeps in H1; [|discriminate|assumption].
  now apply record_match_keeps in H.
Qed.

Lemma score_type_keeps td st st' :
  score_type letter combined_text title_text td st = Some st' ->
  sound st -> sound st'.
Proof.
  unfold score_type. intros H Hs.
  apply bind_some in H as (st1 & H1 & H).
  apply bind_some in H as (st2 & H2 & H).
  apply (for_each_keeps _ _ strong_step_keeps) in H1; [|assumption].
  apply (for_each_keeps _ _ moderate_step_keeps) in H2; [|assumption].
  now apply (for_each_keeps _ _ (keyword_step_keeps td)) in H.
Qed.

Hypothesis letter_known : In letter alphabet.

Lemma strong_step_total :
  never_raises (strong_step letter combined_text title_text).
Proof.
  intros st skill Hs. unfold strong_step.
  destruct (contains (lower skill) combined_text); [|eauto].
  destruct (add_score_defined letter STRONG_INDICATOR_WEIGHT st
              letter_known Hs) as [st1 H1].
  rewrite H1. simpl.
  apply add_score_keeps in H1; [|discriminate|assumption].
  destruct (record_match_defined letter (skill ++ strong_tag) st1
              letter_known H1) as [st2 H2].
  rewrite H2. simpl. apply record_match_keeps in H2; [|assumption].
  destruct (contains (lower skill) title_text); [|eauto].
  now apply add_score_defined.
Qed.

Lemma moderate_step_total :
  never_raises (moderate_step letter combined_text).
Proof.
  intros st skill Hs. unfold moderate_step.
  destruct (contains (lower skill) combined_text); [|eauto].
  assert (Hk : In letter (map fst (snd st))).
  { destruct Hs as (_ & -> & _). exact letter_known. }
  destruct (dict_get_defined _ _ Hk) as [rec ->]. simpl.
  destruct (negb _); [|eauto].
  destruct (add_score_defined letter MODERATE_INDICATOR_WEIGHT st
              letter_known Hs) as [st1 H1].
  rewrite H1. simpl.
  apply add_score_keeps in H1; [|discriminate|assumption].
  now apply record_match_defined.
Qed.

Lemma keyword_step_total td :
  never_raises (keyword_step letter combined_text td).
Proof.
  intros st kw Hs. unfold keyword_step.
  destruct (_ && _); [|eauto].
  destruct (add_score_defined letter KEYWORD_WEIGHT st
              letter_known Hs) as [st1 H1].
  rewrite H1. simpl.
  apply add_score_keeps in H1; [|discriminate|assumption].
  now apply record_match_defined.
Qed.

Lemma score_type_total td st :
  sound st ->
  exists st', score_type letter combined_text title_text td st = Some st'.
Proof.
  intro Hs. unfold score_type.
  destruct (for_each_total _ (strong td) strong_step_keeps
              strong_step_total st Hs) as [st1 H1].
  rewrite H1. simpl.
  apply (for_each_keeps _ _ strong_step_keeps) in H1; [|assumption].
  destruct (for_each_total _ (moderate td) moderate_step_keeps
              moderate_step_total st1 H1) as [st2 H2].
  rewrite H2. simpl.
  apply (for_each_keeps _ _ moderate_step_keeps) in H2; [|assumption].
  apply (for_each_total _ _ (keyword_step_keeps td) (keyword_step_total td)).
  assumption.
Qed.
End Steps.

(** Whatever the framework, a scoring that returns leaves one bucket per
    letter in the fixed order, with non-negative scores. *)
Lemma calculate_riasec_scores_sound fw skills_text job_title st :
  calculate_riasec_scores fw skills_text job_title = Some st -> sound st.
Proof.
  unfold calculate_riasec_scores. intro H.
  eapply for_each_keeps; [|exact H|exact initial_state_sound].
  intros s [letter td] s'. apply score_type_keeps.
Qed.

(** With category letters from the alphabet, scoring cannot raise. *)
Lemma calculate_riasec_scores_total fw skills_text job_title :
  letters_in_alphabet fw = true ->
  exists st, calculate_riasec_scores fw skills_text job_title = Some st.
Proof.
  unfold letters_in_alphabet, calculate_riasec_scores. intro H.
  generalize (normalize_text (job_title ++ " " ++ skills_text))
             (normalize_text job_title).
  intros ct tt.
  generalize initial_state_sound. generalize initial_state.
  induction (riasec_types fw) as [|[letter td] r IH]; intros st Hs; simpl.
  - eauto.
  - cbn [forallb fst] in H. apply andb_true_iff in H as [Hl Hr].
    assert (Hin : In letter alphabet).
    { apply existsb_exists in Hl as (x & Hx & E).
      apply String.eqb_eq in E. now subst x. }
    destruct (score_type_total letter ct tt Hin td st Hs) as [st1 H1].
    rewrite H1. simpl. apply (IH Hr).
    eapply score_type_keeps; eauto.
Qed.

End ScoringFacts.

(* ================================================================== *)
(** ** Facts about the stable descending sort *)
(* ================================================================== *)

Module SortFacts.
Import Classifier Spec.

Section Stable.
Context {A : Type} (key : A -> Q) (before : A -> A -> Prop).

Lemma insert_desc_perm x l : Permutation (insert_desc key x l) (x :: l).
Proof.
  induction l as [|y r IH]; simpl; [reflexivity|].
  destruct (Qle_bool (key y) (key x)); [reflexivity|].
  rewrite IH. apply perm_swap.
Qed.

Lemma sorted_desc_perm l : Permutation (sorted_desc key l) l.
Proof.
  induction l as [|x r IH]; simpl; [reflexivity|].
  rewrite insert_desc_perm. now constructor.
Qed.

Lemma Forall_perm (P : A -> Prop) l l' :
  Permutation l l' -> Forall P l -> Forall P l'.
Proof.
  intros Hp H. rewrite Forall_forall in *. intros x Hx.
  apply H. eapply Permutation_in; [symmetry; exact Hp|exact Hx].
Qed.

Lemma stable_desc_le a b : stable_desc key before a b -> (key b <= key a)%Q.
Proof. intros [H|[H _]]; lra. Qed.

Lemma insert_desc_sorted x l :
  StronglySorted (stable_desc key before) l ->
  Forall (before x) l ->
  StronglySorted (stable_desc key before) (insert_desc key x l).
Proof.
  induction l as [|y r IH]; intros Hs Hb; simpl.
  - repeat constructor.
  - apply StronglySorted_inv in Hs as [Hr Hy].
    inversion Hb as [|? ? Hxy Hxr]; subst.
    destruct (Qle_bool (key y) (key x)) eqn:E.
    + apply Qle_bool_iff in E.
      constructor; [constructor; assumption|].
      constructor.
      * destruct (Qlt_le_dec (key y) (key x)) as [L|G];
          [left; exact L|right; split; [lra|assumption]].
      * rewrite Forall_forall in *. intros z Hz.
        pose proof (stable_desc_le _ _ (Hy z Hz)) as Hzy.
        destruct (Qlt_le_dec (key z) (key x)) as [L|G];
          [left; exact L|right; split; [lra|auto]].
    + assert (L : (key x < key y)%Q).
      { destruct (Qlt_le_dec (key x) (key y)) as [L|G]; [exact L|].
        apply Qle_bool_iff in G. congruence. }
      constructor; [auto|].
      apply (Forall_perm _ (x :: r)); [symmetry; apply insert_desc_perm|].
      constructor; [left; exact L|assumption].
Qed.

(** The sort is a stable descending sort: its result is a rearrangement
    of the input, in descending order of the keys, in which elements with
    equal keys keep the order they had. *)
Lemma sorted_desc_stable l :
  StronglySorted before l ->
  Permutation (sorted_desc key l) l
  /\ StronglySorted (stable_desc key before) (sorted_desc key l).
Proof.
  intro H. split; [apply sorted_desc_perm|].
  induction l as [|x r IH]; simpl; [constructor|].
  apply StronglySorted_inv in H as [Hr Hx].
  apply insert_desc_sorted; [auto|].
  apply (Forall_perm _ r); [symmetry; apply sorted_desc_perm|exact Hx].
Qed.

Lemma sorted_desc_descending l :
  StronglySorted (fun a b => (key b <= key a)%Q) (sorted_desc key l).
Proof.
  induction l as [|x r IH]; simpl; [constructor|].
  revert IH. generalize (sorted_desc key r). clear r.
  induction l as [|y r IH]; intro Hs; simpl.
  - repeat constructor.
  - apply StronglySorted_inv in Hs as [Hr Hy].
    destruct (Qle_bool (key y) (key x)) eqn:E.
    + apply Qle_bool_iff in E. constructor; [constructor; assumption|].
      constructor; [exact E|].
      rewrite Forall_forall in *. intros z Hz. specialize (Hy z Hz). lra.
    + assert (L : (key x < key y)%Q).
      { destruct (Qlt_le_dec (key x) (key y)) as [L|G]; [exact L|].
        apply Qle_bool_iff in G. congruence. }
      constructor; [auto|].
      apply (Forall_perm _ (x :: r)); [symmetry; apply insert_desc_perm|].
      constructor; [lra|assumption].
Qed.

(** Elements with equal keys are not moved. *)
Lemma sorted_desc_constant l (q : Q) :
  Forall (fun a => (key a == q)%Q) l -> sorted_desc key l = l.
Proof.
  induction l as [|x r IH]; intro H; simpl; [reflexivity|].
  inversion H as [|? ? Hx Hr]; subst. rewrite (IH Hr).
  destruct r as [|y r']; simpl; [reflexivity|].
  inversion Hr as [|? ? Hy _]; subst.
  assert (E : Qle_bool (key y) (key x) = true).
  { apply Qle_bool_iff. lra. }
  now rewrite E.
Qed.
End Stable.

(** A list has at most one sorted rearrangement under an order in which no
    two elements precede each other; in particular every stable descending
    sort of a list returns what [sorted_desc] returns. *)
Lemma sorted_rearrangement_unique {A : Type} (R : A -> A -> Prop) :
  (forall a b, R a b -> R b a -> False) ->
  forall l1 l2,
    Permutation l1 l2 -> StronglySorted R l1 -> StronglySorted R l2 ->
    l1 = l2.
Proof.
  intro Hasym. induction l1 as [|a r IH]; intros l2 Hp H1 H2.
  - now apply Permutation_nil in Hp.
  - destruct l2 as [|b r2].
    + symmetry in Hp. now apply Permutation_nil in Hp.
    + apply StronglySorted_inv in H1 as [Hr Ha].
      apply StronglySorted_inv in H2 as [Hr2 Hb].
      assert (E : a = b).
      { assert (Hin1 : In a (b :: r2))
          by (eapply Permutation_in; [exact Hp|now left]).
        assert (Hin2 : In b (a :: r))
          by (eapply Permutation_in; [symmetry; exact Hp|now left]).
        destruct Hin1 as [E|Hin1]; [now symmetry|].
        destruct Hin2 as [E|Hin2]; [exact E|].
        rewrite Forall_forall in Ha, Hb.
        exfalso. exact (Hasym a b (Ha b Hin2) (Hb a Hin1)). }
      subst b. f_equal. apply IH; try assumption.
      now apply Permutation_cons_inv in Hp.
Qed.

Lemma ranks_before_one_way (a b : string * Q) :
  ranks_before a b -> ranks_before b a -> False.
Proof.
  unfold ranks_before. intros [H1|[H1 L1]] [H2|[H2 L2]]; try lra. lia.
Qed.

End SortFacts.

(* ================================================================== *)
(** ** Facts about the code selection *)
(* ================================================================== *)

Module CodeFacts.
Import Text Classifier Spec SortFacts.

Lemma Qltb_true x y : Qltb x y = true <-> (x < y)%Q.
Proof.
  unfold Qltb. rewrite negb_true_iff. split.
  - intro H. destruct (Qlt_le_dec x y) as [L|G]; [exact L|].
    apply Qle_bool_iff in G. congruence.
  - intro H. destruct (Qle_bool y x) eqn:E; [|reflexivity].
    apply Qle_bool_iff in E. lra.
Qed.

Lemma Qltb_false x y : Qltb x y = false <-> (y <= x)%Q.
Proof.
  unfold Qltb. rewrite negb_false_iff. apply Qle_bool_iff.
Qed.

(** A descending list is its positive entries followed by the others. *)
Lemma split_by_sign (l : scores_t) :
  StronglySorted (fun a b => (snd b <= snd a)%Q) l ->
  exists pos rest,
    l = (pos ++ rest)%list
    /\ Forall (fun p => Qltb 0 (snd p) = true) pos
    /\ Forall (fun p => Qltb 0 (snd p) = false) rest.
Proof.
  induction l as [|a r IH]; intro H.
  - exists [], []. repeat split; constructor.
  - apply StronglySorted_inv in H as [Hr Ha].
    destruct (Qltb 0 (snd a)) eqn:E.
    + destruct (IH Hr) as (pos & rest & -> & Hp & Hz).
      exists (a :: pos), rest. repeat split; auto.
    + exists [], (a :: r). repeat split; [constructor|].
      constructor; [exact E|].
      apply Qltb_false in E. revert Ha. apply Forall_impl.
      intros b Hb. apply Qltb_false. lra.
Qed.

Lemma top_positive_fold l : top_positive l = fold_left take_positive l [].
Proof.
  unfold top_positive. f_equal.
Qed.

Lemma take_positive_rest rest acc :
  Forall (fun p => Qltb 0 (snd p) = false) rest ->
  fold_left take_positive rest acc = acc.
Proof.
  revert acc. induction rest as [|[l s] r IH]; intros acc H; simpl.
  - reflexivity.
  - inversion H as [|? ? Hs Hr]; subst. simpl in Hs. rewrite Hs. simpl.
    now apply IH.
Qed.

Lemma take_positive_pos pos acc :
  Forall (fun p => Qltb 0 (snd p) = true) pos ->
  length acc <= 3 ->
  fold_left take_positive pos acc
  = (acc ++ map fst (firstn (3 - length acc) pos))%list.
Proof.
  revert acc. induction pos as [|[l s] r IH]; intros acc H Hl.
  - rewrite firstn_nil. simpl. now rewrite app_nil_r.
  - inversion H as [|? ? Hs Hr]; subst. simpl in Hs.
    cbn [fold_left take_positive]. rewrite Hs. cbn [andb].
    destruct (length acc <? 3) eqn:E.
    + apply Nat.ltb_lt in E. rewrite IH; [|assumption|].
      * rewrite length_app. cbn [length].
        replace (3 - length acc) with (S (3 - (length acc + 1))) by lia.
        cbn [firstn map fst]. now rewrite <- app_assoc.
      * rewrite length_app. simpl. lia.
    + apply Nat.ltb_ge in E. rewrite IH by assumption.
      replace (3 - length acc) with 0 by lia. reflexivity.
Qed.

Lemma filter_known (top : list string) (pos : scores_t) :
  incl (map fst pos) top ->
  filter (fun '(letter, _) => negb (existsb (String.eqb letter) top)) pos = [].
Proof.
  induction pos as [|[l s] r IH]; intro H; simpl; [reflexivity|].
  assert (E : existsb (String.eqb l) top = true).
  { apply existsb_exists. exists l. split; [|apply String.eqb_refl].
    apply H. now left. }
  rewrite E. simpl. apply IH. intros x Hx. apply H. now right.
Qed.

Lemma filter_unknown (top : list string) (rest : scores_t) :
  (forall x, In x (map fst rest) -> ~ In x top) ->
  filter (fun '(letter, _) => negb (existsb (String.eqb letter) top)) rest
  = rest.
Proof.
  induction rest as [|[l s] r IH]; intro H; simpl; [reflexivity|].
  assert (E : existsb (String.eqb l) top = false).
  { destruct (existsb (String.eqb l) top) eqn:E; [|reflexivity].
    apply existsb_exists in E as (x & Hx & Hxl).
    apply String.eqb_eq in Hxl. subst x.
    exfalso. apply (H l); [now left|assumption]. }
  rewrite E. simpl. f_equal. apply IH. intros x Hx. apply H. now right.
Qed.

Lemma nodup_app_disjoint {A : Type} (l1 l2 : list A) :
  NoDup (l1 ++ l2) -> forall a, In a l1 -> ~ In a l2.
Proof.
  induction l1 as [|x r IH]; simpl; intros H a Ha; [contradiction|].
  apply NoDup_cons_iff in H as [Hx Hr].
  destruct Ha as [<-|Ha]; [|now apply IH].
  intro H2. apply Hx, in_or_app. now right.
Qed.

(** The code consists of the first three letters of the ranking. *)
Lemma code_is_top_three (scores : scores_t) :
  NoDup (map fst scores) ->
  determine_riasec_code scores
  = String.concat "" (map fst (firstn 3 (sorted_desc snd scores))).
Proof.
  intro Hnd. unfold determine_riasec_code.
  set (l := sorted_desc snd scores).
  assert (Hl : NoDup (map fst l)).
  { eapply Permutation_NoDup; [|exact Hnd].
    apply Permutation_map. symmetry. apply sorted_desc_perm. }
  destruct (split_by_sign l (sorted_desc_descending snd scores))
    as (pos & rest & E & Hp & Hz).
  clearbody l. subst l.
  rewrite top_positive_fold, fold_left_app.
  rewrite (take_positive_pos pos [] Hp) by (simpl; lia).
  rewrite (take_positive_rest rest _ Hz).
  change (3 - length (@nil string)) with 3. rewrite app_nil_l.
  destruct (length (map fst (firstn 3 pos)) <? 3) eqn:L.
  - apply Nat.ltb_lt in L. rewrite length_map, length_firstn in L.
    assert (Hlen : length pos < 3) by lia.
    rewrite (firstn_all2 pos) by lia.
    rewrite filter_app, (filter_known _ pos) by apply incl_refl.
    rewrite app_nil_l, filter_unknown.
    + rewrite length_map. f_equal.
      rewrite (firstn_app 3 pos rest), (firstn_all2 pos) by lia.
      rewrite map_app, firstn_map.
      apply firstn_all2.
      rewrite length_app, !length_map, length_firstn. lia.
    + rewrite map_app in Hl.
      intros x Hx Hin. exact (nodup_app_disjoint _ _ Hl x Hin Hx).
  - apply Nat.ltb_ge in L. rewrite length_map, length_firstn in L.
    f_equal. rewrite (firstn_app 3 pos rest).
    replace (3 - length pos) with 0 by lia.
    rewrite firstn_O, app_nil_r.
    apply firstn_all2. rewrite length_map, length_firstn. lia.
Qed.

Lemma alphabet_letter (x : string) :
  In x alphabet ->
  exists c, x = String c EmptyString /\ riasec_letter c = true.
Proof.
  simpl. intros [<-|[<-|[<-|[<-|[<-|[<-|[]]]]]]]; eexists; split; reflexivity.
Qed.

Lemma alphabet_nodup : NoDup alphabet.
Proof.
  repeat constructor; simpl; intuition discriminate.
Qed.

(** Codes built from the first three entries of a list of letters. *)
Lemma concat_three (letters : list string) :
  3 <= length letters ->
  Forall (fun x => In x alphabet) letters ->
  let code := String.concat "" (firstn 3 letters) in
  String.length code = 3 /\ all_chars riasec_letter code = true.
Proof.
  destruct letters as [|a [|b [|c r]]]; simpl; try lia. intros _ H.
  inversion H as [|? ? Ha H1]; subst.
  inversion H1 as [|? ? Hb H2]; subst.
  inversion H2 as [|? ? Hc _]; subst.
  destruct (alphabet_letter _ Ha) as (ca & -> & La).
  destruct (alphabet_letter _ Hb) as (cb & -> & Lb).
  destruct (alphabet_letter _ Hc) as (cc & -> & Lc).
  cbn [String.append all_chars String.length].
  now rewrite La, Lb, Lc.
Qed.

Lemma code_shape (scores : scores_t) :
  map fst scores = alphabet ->
  String.length (determine_riasec_code scores) = 3
  /\ all_chars riasec_letter (determine_riasec_code scores) = true.
Proof.
  intro Hk. rewrite code_is_top_three by (rewrite Hk; apply alphabet_nodup).
  rewrite <- firstn_map.
  pose proof (sorted_desc_perm snd scores) as Hp.
  apply (Permutation_map fst) in Hp. rewrite Hk in Hp.
  apply concat_three.
  - rewrite (Permutation_length Hp). simpl. lia.
  - apply Forall_forall. intros x Hx.
    eapply Permutation_in; [exact Hp|exact Hx].
Qed.

End CodeFacts.

(* ================================================================== *)
(** ** The classification result *)
(* ================================================================== *)

Module ClassifyFacts.
Import Text Framework Classifier Spec SortFacts ScoringFacts CodeFacts.

(** What a returned classification was computed from. *)
Lemma classify_job_result fw skills_text job_title job_link r :
  classify_job fw skills_text job_title job_link = Some r ->
  exists title st,
    calculate_riasec_scores fw skills_text title = Some st
    /\ scores r = fst st
    /\ riasec_code r = determine_riasec_code (fst st)
    /\ confidence r = round3 (calculate_confidence (fst st))
    /\ total_score r = total_of (fst st).
Proof.
  unfold classify_job.
  set (title := match job_title with
                | EmptyString => _
                | String _ _ => _
                end).
  intro H. exists title.
  destruct (calculate_riasec_scores fw skills_text title) as [[sc ma]|];
    [|discriminate].
  exists (sc, ma). simpl in H.
  destruct (match dict_get (determine_riasec_code sc) (combinations fw) with
            | Some (ComboDict d g) => _
            | Some (ComboText t) => _
            | None => _
            end) as [de gi].
  injection H as <-. simpl. auto.
Qed.

(** With category letters from the alphabet, classification returns. *)
Lemma classify_job_returns fw skills_text job_title job_link :
  letters_in_alphabet fw = true ->
  exists r, classify_job fw skills_text job_title job_link = Some r.
Proof.
  intro H. unfold classify_job.
  set (title := match job_title with
                | EmptyString => _
                | String _ _ => _
                end).
  destruct (calculate_riasec_scores_total fw skills_text title H)
    as [[sc ma] ->].
  simpl.
  destruct (match dict_get (determine_riasec_code sc) (combinations fw) with
            | Some (ComboDict d g) => _
            | Some (ComboText t) => _
            | None => _
            end) as [de gi].
  eauto.
Qed.

Lemma alphabet_order (sc : scores_t) :
  map fst sc = alphabet ->
  StronglySorted (fun a b => alpha_rank (fst a) < alpha_rank (fst b)) sc.
Proof.
  intro H.
  destruct sc as [|[k1 v1] [|[k2 v2] [|[k3 v3] [|[k4 v4] [|[k5 v5]
                  [|[k6 v6] [|? ?]]]]]]]; try discriminate H.
  injection H as -> -> -> -> -> ->.
  repeat (constructor; [|repeat constructor; unfold alpha_rank; simpl; lia]).
  constructor.
Qed.

Lemma all_zero_code (sc : scores_t) :
  map fst sc = alphabet ->
  Forall (fun p => (snd p == 0)%Q) sc ->
  determine_riasec_code sc = "RIA".
Proof.
  intros Hk Hz.
  rewrite code_is_top_three by (rewrite Hk; apply alphabet_nodup).
  rewrite (sorted_desc_constant snd sc 0 Hz).
  rewrite <- firstn_map, Hk. reflexivity.
Qed.

(** C1. For every skills text, job title and job link, and every framework
    whose category letters are letters of the alphabet, [classify_job]
    returns, and the code it returns has exactly three characters, each one
    of R, I, A, S, E, C. *)
Theorem classify_job_code_shape fw skills_text job_title job_link :
  letters_in_alphabet fw = true ->
  exists r,
    classify_job fw skills_text job_title job_link = Some r
    /\ String.length (riasec_code r) = 3
    /\ all_chars riasec_letter (riasec_code r) = true.
Proof.
  intro H.
  destruct (classify_job_returns fw skills_text job_title job_link H)
    as [r Hr].
  exists r. split; [exact Hr|].
  destruct (classify_job_result _ _ _ _ _ Hr) as (t & st & Hs & _ & -> & _).
  apply calculate_riasec_scores_sound in Hs as (Hk & _).
  now apply code_shape.
Qed.

Lemma classify_job_code_shape_witness :
  exists r,
    classify_job get_embedded_framework
      "Python, SQL, Machine Learning, Data Analysis" "Data Scientist" ""
    = Some r
    /\ String.length (riasec_code r) = 3
    /\ all_chars riasec_letter (riasec_code r) = true.
Proof.
  apply (classify_job_code_shape get_embedded_framework).
  reflexivity.
Defined.

(** C3. The code is read off a ranking of the six (letter, score) pairs by
    descending score in which equal scores keep the fixed order R, I, A, S,
    E, C: the list that [determine_riasec_code] sorts is a rearrangement of
    the pairs ordered by [ranks_before], and the code is the first three
    letters of any such rearrangement (there is only one).  When all six
    scores are zero the code is RIA.  The score dictionary of any returned
    classification has its letters in the fixed order whatever the order of
    the framework, so a classification without any match has the code RIA. *)
Theorem code_ranking_tie_break :
  (forall sc : scores_t,
     map fst sc = alphabet ->
     Permutation (sorted_desc snd sc) sc
     /\ StronglySorted ranks_before (sorted_desc snd sc)
     /\ (forall ranking,
           Permutation ranking sc -> StronglySorted ranks_before ranking ->
           determine_riasec_code sc
           = String.concat "" (map fst (firstn 3 ranking)))
     /\ (Forall (fun p => (snd p == 0)%Q) sc ->
         determine_riasec_code sc = "RIA"))
  /\ (forall fw skills_text job_title job_link r,
        classify_job fw skills_text job_title job_link = Some r ->
        map fst (scores r) = alphabet
        /\ (Forall (fun p => (snd p == 0)%Q) (scores r) ->
            riasec_code r = "RIA")).
Proof.
  split.
  - intros sc Hk.
    destruct (sorted_desc_stable snd
                (fun a b => alpha_rank (fst a) < alpha_rank (fst b)) sc
                (alphabet_order sc Hk)) as [Hp Hs].
    split; [exact Hp|]. split; [exact Hs|]. split.
    + intros ranking Hperm Hsorted.
      rewrite (sorted_rearrangement_unique ranks_before ranks_before_one_way
                 ranking (sorted_desc snd sc)); try assumption.
      * apply code_is_top_three. rewrite Hk. apply alphabet_nodup.
      * now rewrite Hperm, Hp.
    + now apply all_zero_code.
  - intros fw sk ti li r Hr.
    destruct (classify_job_result _ _ _ _ _ Hr)
      as (t & st & Hs & Hsc & Hc & _).
    apply calculate_riasec_scores_sound in Hs as (Hk & _).
    rewrite Hsc, Hc. split; [exact Hk|]. now apply all_zero_code.
Qed.

Lemma code_ranking_tie_break_witness :
  determine_riasec_code (fst initial_state) = "RIA"
  /\ exists r,
       classify_job get_embedded_framework "juggling, yodelling" "" ""
       = Some r
       /\ riasec_code r = "RIA".
Proof.
  split.
  - apply (proj1 code_ranking_tie_break (fst initial_state) eq_refl).
    repeat (constructor; [reflexivity|]). constructor.
  - eexists. split; [vm_compute; reflexivity|].
    eapply (proj2 code_ranking_tie_break get_embedded_framework
              "juggling, yodelling" "" "").
    + vm_compute. reflexivity.
    + repeat (constructor; [reflexivity|]). constructor.
Defined.

End ClassifyFacts.

(* ================================================================== *)
(** ** Facts about the confidence estimate *)
(* ================================================================== *)

Module ConfidenceFacts.
Import Framework Classifier Spec SortFacts ScoringFacts CodeFacts ClassifyFacts.

Lemma py_min_Qmin a b : (py_min a b == Qmin a b)%Q.
Proof.
  unfold py_min.
  destruct (Qltb b a) eqn:E.
  - apply Qltb_true in E. rewrite Q.min_r; [reflexivity|lra].
  - apply Qltb_false in E. rewrite Q.min_l; [reflexivity|lra].
Qed.

#[export] Instance py_min_comp : Proper (Qeq ==> Qeq ==> Qeq) py_min.
Proof.
  intros a a' Ha b b' Hb. rewrite !py_min_Qmin. now rewrite Ha, Hb.
Qed.

Lemma py_min_le_r a b : (py_min a b <= b)%Q.
Proof. rewrite py_min_Qmin. apply Q.le_min_r. Qed.

Lemma py_min_glb a b c : (c <= a -> c <= b -> c <= py_min a b)%Q.
Proof. intros. rewrite py_min_Qmin. now apply Q.min_glb. Qed.

Lemma py_min_mono a a' b : (a <= a' -> py_min a b <= py_min a' b)%Q.
Proof.
  intro H. rewrite !py_min_Qmin. apply Q.min_le_compat_r. exact H.
Qed.

Lemma fold_plus (l : list Q) (a : Q) :
  (fold_left Qplus l a == a + sumQ l)%Q.
Proof.
  revert a. induction l as [|x r IH]; intro a; simpl; [lra|].
  rewrite IH. lra.
Qed.

Lemma total_of_sum (sc : scores_t) : (total_of sc == sumQ (map snd sc))%Q.
Proof. unfold total_of. rewrite fold_plus. lra. Qed.

Lemma sumQ_app (l1 l2 : list Q) : (sumQ (l1 ++ l2) == sumQ l1 + sumQ l2)%Q.
Proof. induction l1 as [|x r IH]; simpl; [lra|]. rewrite IH. lra. Qed.

Lemma sumQ_non_negative (l : list Q) :
  Forall (fun v => (0 <= v)%Q) l -> (0 <= sumQ l)%Q.
Proof.
  induction 1 as [|x r Hx _ IH]; simpl; [discriminate|lra].
Qed.

Lemma sumQ_bounds_each (l : list Q) (x : Q) :
  Forall (fun v => (0 <= v)%Q) l -> In x l -> (x <= sumQ l)%Q.
Proof.
  induction 1 as [|y r Hy Hr IH]; simpl; [tauto|].
  pose proof (sumQ_non_negative r Hr).
  intros [->|Hin]; [lra|]. specialize (IH Hin). lra.
Qed.

(** The head of the descending sort is the largest value. *)
Lemma sorted_head_greatest (vs : list Q) (m : Q) :
  In m vs -> Forall (fun x => (x <= m)%Q) vs ->
  (hd 0 (sorted_desc (fun v => v) vs) == m)%Q.
Proof.
  intros Hin Hle.
  pose proof (sorted_desc_perm (fun v : Q => v) vs) as Hp.
  pose proof (sorted_desc_descending (fun v : Q => v) vs) as Hs.
  destruct (sorted_desc (fun v : Q => v) vs) as [|h r].
  - apply Permutation_nil in Hp. subst vs. contradiction.
  - simpl. apply StronglySorted_inv in Hs as [_ Hh].
    assert (H1 : (h <= m)%Q).
    { rewrite Forall_forall in Hle. apply Hle.
      eapply Permutation_in; [exact Hp|now left]. }
    assert (H2 : (m <= h)%Q).
    { apply (Permutation_in _ (Permutation_sym Hp)) in Hin.
      destruct Hin as [->|Hin]; [lra|].
      rewrite Forall_forall in Hh. now apply Hh. }
    lra.
Qed.

Lemma top_of_greatest (vs : list Q) :
  vs <> [] ->
  In (top_of vs) vs /\ Forall (fun x => (x <= top_of vs)%Q) vs.
Proof.
  induction vs as [|v r IH]; [congruence|]. intros _.
  destruct r as [|w r'].
  - simpl. split; [now left|]. repeat constructor. lra.
  - destruct IH as [Hin Hle]; [discriminate|].
    change (top_of (v :: w :: r')) with (Qmax v (top_of (w :: r'))).
    set (m := top_of (w :: r')) in *.
    split.
    + unfold Qmax, GenericMinMax.gmax.
      destruct (v ?= m)%Q; [now left|now right|now left].
    + constructor; [apply Q.le_max_l|].
      revert Hle. apply Forall_impl. intros x Hx.
      pose proof (Q.le_max_r v m). lra.
Qed.

Lemma sorted_head_top_of (vs : list Q) :
  vs <> [] -> (hd 0 (sorted_desc (fun v => v) vs) == top_of vs)%Q.
Proof.
  intro H. destruct (top_of_greatest vs H). now apply sorted_head_greatest.
Qed.

(** The value of [calculate_confidence] on a non-zero total, with [top]
    any value equal to the largest score. *)
Lemma calculate_confidence_value (sc : scores_t) (top : Q) :
  ~ (total_of sc == 0)%Q ->
  (hd 0 (sorted_desc (fun v => v) (map snd sc)) == top)%Q ->
  (calculate_confidence sc
   == py_min (top / total_of sc * (6 # 10)
              + py_min (total_of sc / 10) 1 * (4 # 10)) 1)%Q.
Proof.
  intros Ht Hh. unfold calculate_confidence.
  destruct (Qeq_bool (total_of sc) 0) eqn:E.
  - apply Qeq_bool_iff in E. contradiction.
  - now rewrite Hh.
Qed.

Lemma confidence_in_range (sc : scores_t) :
  Forall (fun p => (0 <= snd p)%Q) sc ->
  (0 <= calculate_confidence sc <= 1)%Q.
Proof.
  intro Hn.
  assert (Hv : Forall (fun v => (0 <= v)%Q) (map snd sc)).
  { apply Forall_forall. intros v Hv.
    apply in_map_iff in Hv as (p & <- & Hp).
    rewrite Forall_forall in Hn. now apply Hn. }
  unfold calculate_confidence.
  destruct (Qeq_bool (total_of sc) 0) eqn:E; [split; discriminate|].
  apply Qeq_bool_neq in E.
  pose proof (sumQ_non_negative _ Hv) as Hs.
  rewrite <- total_of_sum in Hs.
  assert (Hpos : (0 < total_of sc)%Q) by lra.
  assert (Hne : map snd sc <> []).
  { intro N. apply E. rewrite total_of_sum, N. reflexivity. }
  destruct (top_of_greatest _ Hne) as [Hin _].
  rewrite sorted_head_top_of by assumption.
  assert (Htop : (0 <= top_of (map snd sc))%Q).
  { rewrite Forall_forall in Hv. now apply Hv. }
  split; [|apply py_min_le_r].
  apply py_min_glb; [|discriminate].
  assert (H1 : (0 <= top_of (map snd sc) / total_of sc)%Q).
  { apply Qle_shift_div_l; [exact Hpos|lra]. }
  assert (H2 : (0 <= py_min (total_of sc / 10) 1)%Q).
  { apply py_min_glb; [|discriminate].
    apply Qle_shift_div_l; [reflexivity|lra]. }
  lra.
Qed.

Lemma round3_in_range (x : Q) : (0 <= x <= 1 -> 0 <= round3 x <= 1)%Q.
Proof.
  intros [H0 H1]. unfold round3.
  set (y := (x * 1000)%Q). set (f := Qfloor y).
  assert (Hy : (0 <= y <= 1000)%Q) by (unfold y; lra).
  assert (Hf0 : (0 <= f)%Z).
  { change 0%Z with (Qfloor 0). apply Qfloor_resp_le. lra. }
  assert (Hf1 : (f <= 1000)%Z).
  { change 1000%Z with (Qfloor 1000). apply Qfloor_resp_le. lra. }
  assert (Hup : Qltb ((y - inject_Z f) * 2) 1 = false -> (f < 1000)%Z).
  { intro E. apply Qltb_false in E.
    rewrite Zlt_Qlt. pose proof (Qfloor_le y). fold f in H.
    change (inject_Z 1000) with 1000%Q. lra. }
  assert (R : forall n, (0 <= n <= 1000)%Z -> (0 <= n # 1000 <= 1)%Q).
  { intros n Hn. unfold Qle. simpl. lia. }
  apply R.
  destruct (Qltb ((y - inject_Z f) * 2) 1) eqn:E1; [lia|].
  specialize (Hup eq_refl).
  destruct (Qltb 1 ((y - inject_Z f) * 2)); [lia|].
  destruct (Z.even f); lia.
Qed.

Lemma non_zero_total_non_empty (sc : scores_t) :
  ~ (total_of sc == 0)%Q -> map snd sc <> [].
Proof.
  intros H N. apply H. rewrite total_of_sum, N. reflexivity.
Qed.

(** With category letters from the alphabet, classification returns a
    three-letter code and a confidence between 0 and 1. *)
Lemma classify_job_valid fw skills_text job_title job_link :
  letters_in_alphabet fw = true ->
  exists r,
    classify_job fw skills_text job_title job_link = Some r
    /\ String.length (riasec_code r) = 3
    /\ all_chars riasec_letter (riasec_code r) = true
    /\ (0 <= confidence r <= 1)%Q.
Proof.
  intro H.
  destruct (classify_job_returns fw skills_text job_title job_link H)
    as [r Hr].
  exists r. split; [exact Hr|].
  destruct (classify_job_result _ _ _ _ _ Hr)
    as (t & st & Hs & _ & -> & -> & _).
  apply calculate_riasec_scores_sound in Hs as (Hk & _ & Hn).
  destruct (code_shape _ Hk) as [Hlen Hall].
  repeat split; try assumption;
    apply round3_in_range, confidence_in_range, Hn.
Qed.

(** C2. The confidence is 0 when the total score is 0 and otherwise
    min(0.6 * (top / total) + 0.4 * min(total / 10, 1), 1), with [top] the
    largest score; for every input the classification returns a confidence
    (the computed value rounded to three decimals) that lies in [0, 1], as
    does the computed value. *)
Theorem confidence_formula_and_range :
  (forall sc : scores_t,
     ((total_of sc == 0)%Q -> calculate_confidence sc = 0%Q)
     /\ (~ (total_of sc == 0)%Q ->
         (calculate_confidence sc
          == confidence_formula (total_of sc) (top_of (map snd sc)))%Q))
  /\ (forall fw skills_text job_title job_link,
        letters_in_alphabet fw = true ->
        exists r,
          classify_job fw skills_text job_title job_link = Some r
          /\ confidence r = round3 (calculate_confidence (scores r))
          /\ (0 <= calculate_confidence (scores r) <= 1)%Q
          /\ (0 <= confidence r <= 1)%Q).
Proof.
  split.
  - intro sc. split.
    + intro H. unfold calculate_confidence.
      apply Qeq_bool_iff in H. now rewrite H.
    + intro H.
      rewrite (calculate_confidence_value sc (top_of (map snd sc)) H)
        by (apply sorted_head_top_of, non_zero_total_non_empty, H).
      unfold confidence_formula. rewrite !py_min_Qmin.
      apply Q.min_compat; [|reflexivity]. ring.
  - intros fw sk ti li H.
    destruct (classify_job_returns fw sk ti li H) as [r Hr].
    exists r. split; [exact Hr|].
    destruct (classify_job_result _ _ _ _ _ Hr)
      as (t & st & Hs & Hsc & _ & Hc & _).
    apply calculate_riasec_scores_sound in Hs as (_ & _ & Hn).
    rewrite Hc, Hsc.
    pose proof (confidence_in_range _ Hn) as Hrange.
    repeat split; try apply Hrange; now apply round3_in_range.
Qed.

Lemma confidence_formula_and_range_witness :
  (calculate_confidence
     [("R", 3); ("I", 3); ("A", 1); ("S", 0); ("E", 0); ("C", 0)]
   == confidence_formula 7 3)%Q
  /\ exists r,
       classify_job get_embedded_framework "Python, SQL" "Data Analyst" ""
       = Some r
       /\ (0 <= confidence r <= 1)%Q.
Proof.
  split.
  - apply (proj2 (proj1 confidence_formula_and_range
                   [("R", 3); ("I", 3); ("A", 1); ("S", 0); ("E", 0);
                    ("C", 0)]%Q)).
    intro H. vm_compute in H. discriminate H.
  - destruct (proj2 confidence_formula_and_range get_embedded_framework
                "Python, SQL" "Data Analyst" "" eq_refl)
      as (r & Hr & _ & _ & Hc).
    exists r. split; assumption.
Defined.

(** C9. Confidence is monotone in the dominant score: in a vector of
    non-negative scores with a non-zero total, raising the score of a top
    category and leaving the others as they are does not lower the
    confidence. *)
Theorem confidence_monotone_in_top (pre post : scores_t) (k : string)
    (t t' : Q) :
  Forall (fun p => (0 <= snd p)%Q) (pre ++ (k, t) :: post)%list ->
  Forall (fun p => (snd p <= t)%Q) (pre ++ (k, t) :: post)%list ->
  ~ (total_of (pre ++ (k, t) :: post)%list == 0)%Q ->
  (t <= t')%Q ->
  (calculate_confidence (pre ++ (k, t) :: post)%list
   <= calculate_confidence (pre ++ (k, t') :: post)%list)%Q.
Proof.
  intros Hn Htop Hnz Hle.
  set (sc := (pre ++ (k, t) :: post)%list) in *.
  set (sc' := (pre ++ (k, t') :: post)%list).
  assert (Hv : Forall (fun v => (0 <= v)%Q) (map snd sc)).
  { apply Forall_forall. intros v Hv.
    apply in_map_iff in Hv as (p & <- & Hp).
    rewrite Forall_forall in Hn. now apply Hn. }
  assert (HT' : (total_of sc' == total_of sc + (t' - t))%Q).
  { rewrite !total_of_sum. unfold sc, sc'.
    rewrite !map_app, !sumQ_app. simpl. lra. }
  assert (Ht_in : In t (map snd sc)).
  { unfold sc. rewrite map_app. apply in_or_app. right. now left. }
  pose proof (sumQ_non_negative _ Hv) as Hs.
  pose proof (sumQ_bounds_each _ _ Hv Ht_in) as HtT.
  rewrite <- total_of_sum in Hs, HtT.
  assert (Hpos : (0 < total_of sc)%Q) by lra.
  assert (Hpos' : (0 < total_of sc')%Q) by lra.
  assert (H1 : (hd 0 (sorted_desc (fun v => v) (map snd sc)) == t)%Q).
  { apply sorted_head_greatest; [exact Ht_in|].
    apply Forall_forall. intros v Hin.
    apply in_map_iff in Hin as (p & <- & Hp).
    rewrite Forall_forall in Htop. now apply Htop. }
  assert (H2 : (hd 0 (sorted_desc (fun v => v) (map snd sc')) == t')%Q).
  { apply sorted_head_greatest.
    - unfold sc'. rewrite map_app. apply in_or_app. right. now left.
    - apply Forall_forall. intros v Hin.
      apply in_map_iff in Hin as (p & <- & Hp).
      unfold sc' in Hp. apply in_app_or in Hp as [Hp|[<-|Hp]].
      + rewrite Forall_forall in Htop.
        assert (snd p <= t)%Q by (apply Htop, in_or_app; now left). lra.
      + simpl. lra.
      + rewrite Forall_forall in Htop.
        assert (snd p <= t)%Q
          by (apply Htop, in_or_app; right; now right). lra. }
  rewrite (calculate_confidence_value sc t Hnz H1).
  rewrite (calculate_confidence_value sc' t') by (assumption || lra).
  apply py_min_mono.
  assert (Hd : (t / total_of sc <= t' / total_of sc')%Q).
  { apply Qle_shift_div_l; [exact Hpos'|].
    assert (Hx : (t / total_of sc * total_of sc == t)%Q)
      by (field; lra).
    assert (Hx1 : (t / total_of sc <= 1)%Q)
      by (apply Qle_shift_div_r; [exact Hpos|lra]).
    revert Hx Hx1. generalize (t / total_of sc)%Q. intros x Hx Hx1.
    assert (Hp : (0 <= (1 - x) * (t' - t))%Q)
      by (apply Qmult_le_0_compat; lra).
    rewrite HT'. nra. }
  assert (He : (py_min (total_of sc / 10) 1
                <= py_min (total_of sc' / 10) 1)%Q).
  { apply py_min_mono. apply Qmult_le_r; [reflexivity|lra]. }
  lra.
Qed.

Lemma confidence_monotone_in_top_witness :
  (calculate_confidence
     [("R", 0); ("I", 3); ("A", 3 # 2); ("S", 0); ("E", 0); ("C", 0)]
   <= calculate_confidence
        [("R", 0); ("I", 6); ("A", 3 # 2); ("S", 0); ("E", 0); ("C", 0)])%Q.
Proof.
  apply (confidence_monotone_in_top [("R", 0%Q)]
           [("A", 3 # 2); ("S", 0); ("E", 0); ("C", 0)]%Q "I" 3 6).
  - repeat (constructor; [discriminate|]). constructor.
  - repeat (constructor; [discriminate|]). constructor.
  - intro H. vm_compute in H. discriminate H.
  - discriminate.
Defined.

End ConfidenceFacts.

(* ================================================================== *)
(** ** Facts about the indicator passes *)
(* ================================================================== *)

Module PassFacts.
Import Text Framework Classifier Spec ScoringFacts.

Lemma dict_update_bucket {V : Type} (k : string) (f : V -> V)
    (d : list (string * V)) (v : V) :
  dict_get k d = Some v ->
  exists d',
    dict_update k f d = Some d'
    /\ dict_get k d' = Some (f v)
    /\ forall k', k' <> k -> dict_get k' d' = dict_get k' d.
Proof.
  intro H.
  assert (Hd : exists d', dict_update k f d = Some d').
  { revert H. generalize v.
    induction d as [|[k0 v0] r IH]; simpl; intros w H; [discriminate|].
    destruct (String.eqb k k0); [eauto|].
    destruct (IH w H) as [r' ->]. simpl. eauto. }
  destruct Hd as [d' Hu]. exists d'. split; [exact Hu|]. split.
  - rewrite (dict_get_update _ k _ _ _ Hu), String.eqb_refl, H. reflexivity.
  - intros k' Hk. rewrite (dict_get_update _ k' _ _ _ Hu).
    apply String.eqb_neq in Hk. now rewrite Hk.
Qed.

Lemma same_elsewhere_refl letter st : same_elsewhere letter st st.
Proof. intros k _. split; reflexivity. Qed.

Lemma same_elsewhere_trans letter st1 st2 st3 :
  same_elsewhere letter st1 st2 -> same_elsewhere letter st2 st3 ->
  same_elsewhere letter st1 st3.
Proof.
  intros H1 H2 k Hk. destruct (H1 k Hk) as [A B], (H2 k Hk) as [C D].
  split; congruence.
Qed.

Lemma add_score_bucket letter w (st : state) v :
  dict_get letter (fst st) = Some v ->
  exists st',
    add_score letter w st = Some st'
    /\ dict_get letter (fst st') = Some (v + w)%Q
    /\ snd st' = snd st
    /\ same_elsewhere letter st st'.
Proof.
  intro H.
  destruct (dict_update_bucket letter (fun x => (x + w)%Q) _ _ H)
    as (d' & Hu & Hg & Ho).
  exists (d', snd st). split.
  { exact (f_equal (fun m => bind m (fun sc => Some (sc, snd st))) Hu). }
  simpl. repeat split; auto.
Qed.

Lemma record_match_bucket letter entry (st : state) tr :
  dict_get letter (snd st) = Some tr ->
  exists st',
    record_match letter entry st = Some st'
    /\ dict_get letter (snd st') = Some (tr ++ [entry])%list
    /\ fst st' = fst st
    /\ same_elsewhere letter st st'.
Proof.
  intro H.
  destruct (dict_update_bucket letter (fun l => (l ++ [entry])%list) _ _ H)
    as (d' & Hu & Hg & Ho).
  exists (fst st, d'). split.
  { exact (f_equal (fun m => bind m (fun ma => Some (fst st, ma))) Hu). }
  simpl. repeat split; auto.
Qed.

Section Passes.
Variables (letter combined_text title_text : string).

(** What one iteration of the strong loop does to the bucket of its
    category. *)
Lemma strong_step_bucket (st : state) skill v tr :
  dict_get letter (fst st) = Some v ->
  dict_get letter (snd st) = Some tr ->
  exists st' v',
    strong_step letter combined_text title_text st skill = Some st'
    /\ dict_get letter (fst st') = Some v'
    /\ (v' == v + strong_points combined_text title_text skill)%Q
    /\ dict_get letter (snd st')
       = Some (tr ++ strong_trace combined_text [skill])%list
    /\ same_elsewhere letter st st'.
Proof.
  intros Hv Ht. unfold strong_step, strong_points, strong_trace.
  cbn [filter].
  destruct (contains (lower skill) combined_text).
  - destruct (add_score_bucket letter STRONG_INDICATOR_WEIGHT st v Hv)
      as (st1 & -> & Hv1 & Hs1 & Ho1).
    cbn [bind]. rewrite <- Hs1 in Ht.
    destruct (record_match_bucket letter (skill ++ strong_tag) st1 tr Ht)
      as (st2 & -> & Ht2 & Hs2 & Ho2).
    cbn [bind map]. rewrite <- Hs2 in Hv1.
    pose proof (same_elsewhere_trans _ _ _ _ Ho1 Ho2) as Ho.
    destruct (contains (lower skill) title_text).
    + destruct (add_score_bucket letter TITLE_BONUS_WEIGHT st2 _ Hv1)
        as (st3 & -> & Hv3 & Hs3 & Ho3).
      exists st3. eexists. split; [reflexivity|]. split; [exact Hv3|].
      split; [unfold STRONG_INDICATOR_WEIGHT, TITLE_BONUS_WEIGHT; ring|].
      split; [now rewrite Hs3|].
      eapply same_elsewhere_trans; eassumption.
    + exists st2. eexists. split; [reflexivity|]. split; [exact Hv1|].
      split; [unfold STRONG_INDICATOR_WEIGHT; ring|]. split; assumption.
  - exists st, v. split; [reflexivity|]. split; [exact Hv|].
    split; [ring|]. cbn [map]. rewrite app_nil_r.
    split; [exact Ht|apply same_elsewhere_refl].
Qed.








End Passes.

Lemma lower_app (a b : string) : lower (a ++ b) = lower a ++ lower b.
Proof.
  unfold lower. induction a as [|c r IH]; simpl; [reflexivity|].
  now rewrite IH.
Qed.





End PassFacts.

(* ================================================================== *)
(** ** Title bonus and tier de-duplication *)
(* ================================================================== *)

Module TierFacts.
Import Text Framework Classifier Spec ScoringFacts PassFacts.






End TierFacts.

(* ================================================================== *)
(** ** Facts about the batch pipeline *)
(* ================================================================== *)

Module PipelineFacts.
Import Text Framework Classifier Pipeline Spec ConfidenceFacts.

Lemma firstn_add {A : Type} (a b : nat) (l : list A) :
  firstn (a + b) l = (firstn a l ++ firstn b (skipn a l))%list.
Proof.
  revert l. induction a as [|a IH]; intro l; simpl; [reflexivity|].
  destruct l as [|x r]; simpl.
  - now rewrite firstn_nil.
  - now rewrite IH.
Qed.

Lemma column_indices_length cols header idxs :
  column_indices cols header = Some idxs -> length idxs = length cols.
Proof.
  revert idxs. induction cols as [|c r IH]; intros idxs H; simpl in H.
  - now injection H as <-.
  - destruct (column_index c header) as [i|]; [|discriminate]. simpl in H.
    destruct (column_indices r header) as [is'|]; [|discriminate].
    injection H as <-. simpl. f_equal. now apply IH.
Qed.

Lemma select_cols_length skills_col link_col title_col :
  title_col <> Some EmptyString ->
  length (select_cols skills_col link_col title_col)
  = if has_title title_col then 3 else 2.
Proof.
  intro H. unfold select_cols, has_title.
  destruct title_col as [[|c r]|]; [now elim H|reflexivity|reflexivity].
Qed.

Section Rows.
Variables (fw : framework) (with_title : bool).
Hypothesis letters_ok : letters_in_alphabet fw = true.

(** Every selected row is classified. *)
Lemma process_row_returns (row : list cell) :
  length row = (if with_title then 3 else 2) ->
  exists rec,
    process_row fw with_title row = Returned rec
    /\ classified_as fw with_title row rec.
Proof.
  intro Hlen. unfold process_row, classified_as, row_title.
  destruct with_title.
  - destruct row as [|l [|s [|ti [|? ?]]]]; try discriminate Hlen.
    cbn [nth].
    destruct (classify_job_valid fw (text_of s) (text_of ti) (text_of l)
                letters_ok) as (c & -> & Hc).
    eexists. split; [reflexivity|]. exists c. repeat split; apply Hc.
  - destruct row as [|l [|s [|? ?]]]; try discriminate Hlen.
    cbn [nth].
    destruct (classify_job_valid fw (text_of s)
                (extract_title_from_url (text_of l)) (text_of l)
                letters_ok) as (c & -> & Hc).
    eexists. split; [reflexivity|]. exists c. repeat split; apply Hc.
Qed.

Lemma process_batch_returns (batch : list (list cell)) :
  Forall (fun row => length row = (if with_title then 3 else 2)) batch ->
  exists recs,
    process_batch fw with_title batch = Returned recs
    /\ Forall2 (classified_as fw with_title) batch recs.
Proof.
  induction 1 as [|row r Hrow _ IH]; simpl.
  - exists []. split; [reflexivity|constructor].
  - destruct (process_row_returns row Hrow) as (rec & -> & Hc).
    destruct IH as (recs & -> & Hr).
    exists (rec :: recs). split; [reflexivity|now constructor].
Qed.

Variables (t : table) (cols : list string) (idxs : list nat).
Variables (batch_size total_rows : nat).
Hypothesis cols_found : column_indices cols (columns t) = Some idxs.
Hypothesis cols_count : length idxs = (if with_title then 3 else 2).
Hypothesis window_positive : 1 <= batch_size.
Hypothesis total_bounded : total_rows <= length (rows t).

Lemma select_window_rows limit offset :
  select_window t cols limit offset
  = Some (map (project idxs) (firstn limit (skipn offset (rows t)))).
Proof. unfold select_window. rewrite cols_found. reflexivity. Qed.

Lemma projected_rows_fit (l : list (list cell)) :
  Forall (fun row => length row = (if with_title then 3 else 2))
         (map (project idxs) l).
Proof.
  apply Forall_forall. intros row Hin.
  apply in_map_iff in Hin as (r & <- & _).
  unfold project. now rewrite length_map.
Qed.

(** With enough fuel the loop runs to the end: it classifies every row
    from the cursor up to [total_rows], in order. *)
Lemma window_loop_returns (fuel processed : nat) (acc : list record)
    (w : nat) :
  processed <= total_rows ->
  total_rows - processed < fuel ->
  exists w' recs,
    window_loop fuel fw t cols with_title batch_size total_rows processed
      acc w = (w', Returned (acc ++ recs)%list)
    /\ Forall2 (classified_as fw with_title)
         (map (project idxs)
              (firstn (total_rows - processed) (skipn processed (rows t))))
         recs
    /\ (processed = total_rows -> w' = w).
Proof.
  revert processed acc w.
  induction fuel as [|fuel IH]; intros processed acc w Hp Hf; [lia|].
  cbn [window_loop].
  destruct (processed <? total_rows) eqn:E.
  - apply Nat.ltb_lt in E.
    set (limit := Nat.min batch_size (total_rows - processed)).
    assert (Hl : 1 <= limit <= total_rows - processed)
      by (unfold limit; lia).
    rewrite select_window_rows.
    set (batch := firstn limit (skipn processed (rows t))).
    assert (Hb : length batch = limit).
    { unfold batch. rewrite length_firstn, length_skipn. lia. }
    destruct (process_batch_returns (map (project idxs) batch)
                (projected_rows_fit batch)) as (recs1 & -> & H1).
    rewrite length_map, Hb.
    destruct (IH (processed + limit) (acc ++ recs1)%list (S w))
      as (w' & recs2 & -> & H2 & _); [lia|lia|].
    exists w', (recs1 ++ recs2)%list.
    split; [now rewrite app_assoc|]. split; [|lia].
    replace (total_rows - processed)
      with (limit + (total_rows - (processed + limit))) by lia.
    rewrite firstn_add, map_app, skipn_skipn.
    replace (limit + processed) with (processed + limit) by lia.
    now apply Forall2_app.
  - apply Nat.ltb_ge in E.
    exists w, []. rewrite app_nil_r. split; [reflexivity|].
    replace (total_rows - processed) with 0 by lia.
    split; [constructor|reflexivity].
Qed.
End Rows.

Lemma classified_keys fw ht row rec :
  classified_as fw ht row rec -> map fst rec = output_columns.
Proof. intros (c & _ & -> & _). reflexivity. Qed.

(** The data frame of a non-empty list of result rows has the seven
    columns of a result row. *)
Lemma make_dataframe_columns (recs : list record) :
  recs <> [] ->
  Forall (fun r => map fst r = output_columns) recs ->
  df_columns (make_dataframe recs) = output_columns.
Proof.
  intros Hne H. unfold make_dataframe. cbn [df_columns].
  destruct recs as [|r rs]; [now elim Hne|]. clear Hne.
  inversion H as [|? ? Hr Hrs]; subst. clear H.
  cbn [fold_left]. rewrite Hr.
  change (fold_left add_key output_columns []) with output_columns.
  induction Hrs as [|r' rs' Hr' _ IH]; [reflexivity|].
  cbn [fold_left]. rewrite Hr'.
  change (fold_left add_key output_columns output_columns)
    with output_columns.
  exact IH.
Qed.

Lemma classified_all_keys fw ht rows recs :
  Forall2 (classified_as fw ht) rows recs ->
  Forall (fun r => map fst r = output_columns) recs.
Proof.
  induction 1 as [|row rec rows recs H _ IH]; constructor; [|exact IH].
  eapply classified_keys, H.
Qed.

(** A run over a readable source with the selected columns present, a
    window of at least one row and a writable destination: every row is
    classified, in order, and the result is written in one piece. *)
Lemma single_source_run fuel fw t output_path skills_col link_col title_col
    batch_size idxs :
  letters_in_alphabet fw = true ->
  column_indices (select_cols skills_col link_col title_col) (columns t)
  = Some idxs ->
  title_col <> Some EmptyString ->
  1 <= batch_size ->
  length (rows t) < fuel ->
  exists w recs,
    Forall2 (classified_as fw (has_title title_col))
            (map (project idxs) (rows t)) recs
    /\ process_csv_file fuel fw (Some t) true output_path skills_col
         link_col title_col batch_size None
       = {| windows := w;
            written :=
              Some (if ends_with ".parquet" output_path then Parquet
                    else Csv, make_dataframe recs);
            result :=
              if has_column (make_dataframe recs) "riasec_code"
                 && has_column (make_dataframe recs) "primary_riasec_type"
                 && has_column (make_dataframe recs) "riasec_confidence"
              then Returned (make_dataframe recs) else Raised KeyError |}.
Proof.
  intros Hfw Hcols Htitle Hw Hfuel.
  assert (Hcount : length idxs = if has_title title_col then 3 else 2).
  { rewrite (column_indices_length _ _ _ Hcols).
    now apply select_cols_length. }
  destruct (window_loop_returns fw (has_title title_col) Hfw t
              (select_cols skills_col link_col title_col) idxs batch_size
              (length (rows t)) Hcols Hcount Hw (Nat.le_refl _)
              fuel 0 [] 0 (Nat.le_0_l _)) as (w & recs & Hloop & Hall & _);
    [lia|].
  exists w, recs. rewrite Nat.sub_0_r in Hall. cbn [skipn] in Hall.
  rewrite firstn_all in Hall. split; [exact Hall|].
  unfold process_csv_file. rewrite Hloop. reflexivity.
Qed.

(** C6. For every input table of N rows and every window size of at least
    one row, the single-source run writes exactly N rows, the i-th of which
    carries the classification of the i-th input row; when N is not zero
    the run returns that table. *)
Theorem single_source_row_count fuel fw t output_path skills_col link_col
    title_col batch_size idxs :
  letters_in_alphabet fw = true ->
  column_indices (select_cols skills_col link_col title_col) (columns t)
  = Some idxs ->
  title_col <> Some EmptyString ->
  1 <= batch_size ->
  length (rows t) < fuel ->
  exists fmt df,
    written (process_csv_file fuel fw (Some t) true output_path skills_col
               link_col title_col batch_size None) = Some (fmt, df)
    /\ length (df_rows df) = length (rows t)
    /\ Forall2 (classified_as fw (has_title title_col))
         (map (project idxs) (rows t)) (df_rows df)
    /\ (rows t <> [] ->
        result (process_csv_file fuel fw (Some t) true output_path
                  skills_col link_col title_col batch_size None)
        = Returned df).
Proof.
  intros Hfw Hcols Htitle Hw Hfuel.
  destruct (single_source_run fuel fw t output_path skills_col link_col
              title_col batch_size idxs Hfw Hcols Htitle Hw Hfuel)
    as (w & recs & Hall & ->).
  eexists. exists (make_dataframe recs). cbn [written result df_rows make_dataframe].
  split; [reflexivity|]. split; [|split; [exact Hall|]].
  - apply Forall2_length in Hall. now rewrite length_map in Hall.
  - intro Hne.
    assert (Hrecs : recs <> []).
    { intro E. subst recs. inversion Hall as [E|]; subst.
      apply Hne. symmetry in E. now apply map_eq_nil in E. }
    unfold has_column.
    change (df_columns {| df_columns := _; df_rows := recs |})
      with (df_columns (make_dataframe recs)).
    rewrite (make_dataframe_columns recs Hrecs
               (classified_all_keys _ _ _ _ Hall)).
    reflexivity.
Qed.

Lemma single_source_row_count_witness :
  exists fmt df,
    written (process_csv_file 4 get_embedded_framework
               (Some {| columns := ["job_link"; "job_skills"];
                        rows :=
                          [ [Txt "https://jobs.example/view/line-cook-at-bistro-101";
                             Txt "cooking, food safety"];
                            [Null; Txt "Python, SQL"];
                            [Txt "https://jobs.example/view/sales-manager-202";
                             Null] ] |})
               true "jobs_riasec.parquet" "job_skills" "job_link" None 2 None)
    = Some (fmt, df)
    /\ length (df_rows df) = 3.
Proof.
  destruct (single_source_row_count 4 get_embedded_framework
              {| columns := ["job_link"; "job_skills"];
                 rows :=
                   [ [Txt "https://jobs.example/view/line-cook-at-bistro-101";
                      Txt "cooking, food safety"];
                     [Null; Txt "Python, SQL"];
                     [Txt "https://jobs.example/view/sales-manager-202";
                      Null] ] |}
              "jobs_riasec.parquet" "job_skills" "job_link" None 2 [0; 1]
              eq_refl eq_refl)
    as (fmt & df & Hw & Hlen & _).
  - discriminate.
  - lia.
  - simpl. lia.
  - exists fmt, df. split; [exact Hw|exact Hlen].
Defined.

(** C5, as the code has it. For every non-empty input table the
    single-source run writes a table with exactly the seven columns
    job_link, job_skills, extracted_title, riasec_code, riasec_confidence,
    primary_riasec_type and riasec_total_score.  In every row job_link and
    job_skills are the cells of the selected link and skills columns,
    extracted_title is the title text passed to the classifier (the text of
    the title cell when a title column is named, empty for an empty or NULL
    cell, and otherwise the title extracted from the link), riasec_code is a
    string of three letters of the alphabet and riasec_confidence lies in
    [0, 1].  No other input column is carried over. *)
Theorem single_source_output_shape fuel fw t output_path skills_col link_col
    title_col batch_size idxs :
  letters_in_alphabet fw = true ->
  column_indices (select_cols skills_col link_col title_col) (columns t)
  = Some idxs ->
  title_col <> Some EmptyString ->
  1 <= batch_size ->
  length (rows t) < fuel ->
  rows t <> [] ->
  exists fmt df,
    written (process_csv_file fuel fw (Some t) true output_path skills_col
               link_col title_col batch_size None) = Some (fmt, df)
    /\ result (process_csv_file fuel fw (Some t) true output_path
                 skills_col link_col title_col batch_size None)
       = Returned df
    /\ df_columns df = output_columns
    /\ Forall2 (classified_as fw (has_title title_col))
         (map (project idxs) (rows t)) (df_rows df).
Proof.
  intros Hfw Hcols Htitle Hw Hfuel Hne.
  destruct (single_source_run fuel fw t output_path skills_col link_col
              title_col batch_size idxs Hfw Hcols Htitle Hw Hfuel)
    as (w & recs & Hall & ->).
  assert (Hrecs : recs <> []).
  { intro E. subst recs. inversion Hall as [E|]; subst.
    apply Hne. symmetry in E. now apply map_eq_nil in E. }
  pose proof (make_dataframe_columns recs Hrecs
                (classified_all_keys _ _ _ _ Hall)) as Hc.
  eexists. exists (make_dataframe recs). cbn [written result].
  split; [reflexivity|]. split; [|split; [exact Hc|exact Hall]].
  unfold has_column. rewrite Hc. reflexivity.
Qed.

Lemma single_source_output_shape_witness :
  exists fmt df,
    written (process_csv_file 3 get_embedded_framework
               (Some {| columns := ["job_link"; "job_skills"; "company"];
                        rows :=
                          [ [Txt "https://jobs.example/view/line-cook-at-bistro-101";
                             Txt "cooking, food safety"; Txt "Bistro"] ] |})
               true "jobs_riasec.csv" "job_skills" "job_link" None 5 None)
    = Some (fmt, df)
    /\ df_columns df = output_columns.
Proof.
  destruct (single_source_output_shape 3 get_embedded_framework
              {| columns := ["job_link"; "job_skills"; "company"];
                 rows :=
                   [ [Txt "https://jobs.example/view/line-cook-at-bistro-101";
                      Txt "cooking, food safety"; Txt "Bistro"] ] |}
              "jobs_riasec.csv" "job_skills" "job_link" None 5 [0; 1]
              eq_refl eq_refl)
    as (fmt & df & Hw & _ & Hc & _).
  - discriminate.
  - lia.
  - simpl. lia.
  - discriminate.
  - exists fmt, df. split; [exact Hw|exact Hc].
Defined.

(** The claim C5 as it is worded fails: a source with the columns
    job_link, job_skills and company yields a table without the column
    company, and with the column riasec_total_score, which is neither an
    input column nor one of the four derived columns named. *)
Lemma passthrough_counterexample :
  exists fmt df,
    written (process_csv_file 3 get_embedded_framework
               (Some {| columns := ["job_link"; "job_skills"; "company"];
                        rows :=
                          [ [Txt "https://jobs.example/view/line-cook-at-bistro-101";
                             Txt "cooking, food safety"; Txt "Bistro"] ] |})
               true "jobs_riasec.csv" "job_skills" "job_link" None 5 None)
    = Some (fmt, df)
    /\ ~ In "company" (df_columns df)
    /\ In "riasec_total_score" (df_columns df)
    /\ ~ (forall c,
            In c (df_columns df)
            <-> In c ["job_link"; "job_skills"; "company"]
                \/ In c derived_columns).
Proof.
  eexists. eexists. split; [vm_compute; reflexivity|].
  assert (Hno : ~ In "company"
                  ["job_link"; "job_skills"; "extracted_title"; "riasec_code";
                   "riasec_confidence"; "primary_riasec_type";
                   "riasec_total_score"]).
  { simpl. intuition discriminate. }
  split; [exact Hno|]. split; [simpl; tauto|].
  intro H. apply Hno. apply H. left. simpl. tauto.
Qed.

(** C8, as the code has it. When the source cannot be read the run fails
    with an error before any window is classified and before anything is
    written to the destination.  When the source has no rows, no window is
    classified. *)
Theorem missing_source_fails_first :
  (forall fuel fw dest_writable output_path skills_col link_col title_col
          batch_size sample_size,
     fails_before_writing
       (process_csv_file fuel fw None dest_writable output_path skills_col
          link_col title_col batch_size sample_size))
  /\ (forall fuel fw t dest_writable output_path skills_col link_col
             title_col batch_size sample_size,
        rows t = [] ->
        windows (process_csv_file fuel fw (Some t) dest_writable output_path
                   skills_col link_col title_col batch_size sample_size) = 0).
Proof.
  split.
  - intros. exists SourceError. repeat split.
  - intros fuel fw t dw op sc lc tc bs ss Hrows.
    unfold process_csv_file. rewrite Hrows. cbn [length].
    assert (E : match ss with
                | Some (S _ as n) => Nat.min 0 n
                | _ => 0
                end = 0) by (destruct ss as [[|n]|]; reflexivity).
    rewrite E. destruct fuel as [|fuel]; cbn [window_loop Nat.ltb Nat.leb].
    + reflexivity.
    + destruct dw; reflexivity.
Qed.

Lemma missing_source_fails_first_witness :
  fails_before_writing
    (process_csv_file 1 get_embedded_framework None true "jobs_riasec.csv"
       "job_skills" "job_link" None 2 None)
  /\ windows (process_csv_file 1 get_embedded_framework
                (Some {| columns := ["job_link"; "job_skills"]; rows := [] |})
                true "jobs_riasec.csv" "job_skills" "job_link" None 2 None)
     = 0.
Proof.
  split.
  - apply (proj1 missing_source_fails_first).
  - apply (proj2 missing_source_fails_first). reflexivity.
Defined.

(** The claim C8 as it is worded fails for a source without rows: the run
    does end with an error, but only after the empty result has been
    written to the destination. *)
Lemma empty_source_counterexample :
  written (process_csv_file 1 get_embedded_framework
             (Some {| columns := ["job_link"; "job_skills"]; rows := [] |})
             true "jobs_riasec.csv" "job_skills" "job_link" None 2 None)
  = Some (Csv, {| df_columns := []; df_rows := [] |})
  /\ result (process_csv_file 1 get_embedded_framework
               (Some {| columns := ["job_link"; "job_skills"]; rows := [] |})
               true "jobs_riasec.csv" "job_skills" "job_link" None 2 None)
     = Raised KeyError
  /\ ~ fails_before_writing
        (process_csv_file 1 get_embedded_framework
           (Some {| columns := ["job_link"; "job_skills"]; rows := [] |})
           true "jobs_riasec.csv" "job_skills" "job_link" None 2 None).
Proof.
  split; [reflexivity|]. split; [reflexivity|].
  intros (e & _ & Hw & _). discriminate Hw.
Qed.

End PipelineFacts.

(* ================================================================== *)
(** ** More about titles and matching *)
(* ================================================================== *)

Module TitleFacts.
Import Text Framework Classifier Spec TextFacts PassFacts.

Lemma case_maps_keep (c : ascii) :
  is_space (lower_char c) = is_space c
  /\ is_space (upper_char c) = is_space c
  /\ is_sep (lower_char c) = is_sep c
  /\ is_alpha (lower_char c) = is_alpha c
  /\ is_alpha (upper_char c) = is_alpha c
  /\ lower_char (lower_char c) = lower_char c
  /\ upper_char (upper_char c) = upper_char c
  /\ (is_alpha c = true -> is_space c = false).
Proof.
  destruct c as [[] [] [] [] [] [] [] []]; vm_compute; intuition congruence.
Qed.

Lemma hyphen_stays_out (c : ascii) :
  Ascii.eqb c "-" = false ->
  Ascii.eqb (lower_char c) "-" = false /\ Ascii.eqb (upper_char c) "-" = false.
Proof.
  destruct c as [[] [] [] [] [] [] [] []]; vm_compute; intuition congruence.
Qed.

Lemma title_from_keeps (p : ascii -> bool) (b : bool) (s : string) :
  (forall c, p c = true -> p (lower_char c) = true /\ p (upper_char c) = true) ->
  all_chars p s = true -> all_chars p (title_from b s) = true.
Proof.
  intro Hp. revert b. induction s as [|c r IH]; intros b H.
  - reflexivity.
  - cbn [all_chars] in H. apply andb_true_iff in H as [Hc Hr].
    destruct (Hp c Hc) as [Hl Hu]. cbn [title_from].
    destruct (is_alpha c); cbn [all_chars]; rewrite IH by assumption.
    + destruct b; [now rewrite Hl|now rewrite Hu].
    + now rewrite Hc.
Qed.

Lemma title_from_idempotent (b : bool) (s : string) :
  title_from b (title_from b s) = title_from b s.
Proof.
  revert b. induction s as [|c r IH]; intro b; [reflexivity|].
  destruct (case_maps_keep c) as (_ & _ & _ & Al & Au & Ll & Uu & _).
  cbn [title_from].
  destruct (is_alpha c) eqn:E.
  - destruct b; cbn [title_from];
      [rewrite Al, Ll|rewrite Au, Uu]; now rewrite IH.
  - cbn [title_from]. now rewrite E, IH.
Qed.

Lemma title_from_first_blank (b : bool) (c : ascii) (r : string) :
  exists c' r', title_from b (String c r) = String c' r'
                /\ is_space c' = is_space c.
Proof.
  cbn [title_from].
  destruct (case_maps_keep c) as (Sl & Su & _ & _ & _ & _ & _ & Ha).
  destruct (is_alpha c) eqn:E.
  - destruct b; eexists; eexists; split; try reflexivity; assumption.
  - eexists. eexists. split; reflexivity.
Qed.

Lemma lstrip_shorter (s : string) : String.length (lstrip s) <= String.length s.
Proof.
  induction s as [|c r IH]; simpl; [lia|].
  destruct (is_space c); simpl; lia.
Qed.

Lemma lstrip_fixed_head (c : ascii) (r : string) :
  lstrip (String c r) = String c r -> is_space c = false.
Proof.
  simpl. destruct (is_space c); [|reflexivity].
  intro H. pose proof (lstrip_shorter r) as L. rewrite H in L. simpl in L. lia.
Qed.

Lemma title_from_lstrip (b : bool) (s : string) :
  lstrip s = s -> lstrip (title_from b s) = title_from b s.
Proof.
  destruct s as [|c r]; [reflexivity|]. intro H.
  apply lstrip_fixed_head in H.
  destruct (title_from_first_blank b c r) as (c' & r' & -> & E).
  simpl. now rewrite E, H.
Qed.

Lemma title_from_empty (b : bool) (s : string) :
  title_from b s = EmptyString -> s = EmptyString.
Proof.
  destruct s as [|c r]; [reflexivity|]. simpl.
  destruct (is_alpha c); discriminate.
Qed.

Lemma title_from_cons (b : bool) (c : ascii) :
  exists c',
    is_space c' = is_space c
    /\ forall r,
         title_from b (String c r) = String c' (title_from (is_alpha c) r).
Proof.
  destruct (case_maps_keep c) as (Sl & Su & _).
  cbn [title_from]. destruct (is_alpha c).
  - destruct b; eexists; split; try (intro; reflexivity); assumption.
  - exists c. split; [reflexivity|intro; reflexivity].
Qed.

Lemma title_from_rstrip (b : bool) (s : string) :
  rstrip (title_from b s) = title_from b (rstrip s).
Proof.
  revert b. induction s as [|c r IH]; intro b; [reflexivity|].
  destruct (title_from_cons b c) as (c' & Hs & Hc).
  rewrite Hc. cbn [rstrip]. rewrite IH.
  destruct (rstrip r) as [|d r'] eqn:R.
  - cbn [title_from]. rewrite Hs.
    destruct (is_space c); [reflexivity|]. now rewrite Hc.
  - rewrite (Hc (String d r')).
    destruct (title_from (is_alpha c) (String d r')) as [|e t] eqn:T;
      [|reflexivity].
    apply title_from_empty in T. discriminate.
Qed.

Lemma lstrip_idempotent (s : string) : lstrip (lstrip s) = lstrip s.
Proof.
  induction s as [|c r IH]; [reflexivity|]. simpl.
  destruct (is_space c) eqn:E; [exact IH|]. simpl. now rewrite E.
Qed.

Lemma rstrip_idempotent (s : string) : rstrip (rstrip s) = rstrip s.
Proof.
  induction s as [|c r IH]; [reflexivity|]. cbn [rstrip].
  destruct (rstrip r) as [|d r'] eqn:R.
  - destruct (is_space c) eqn:E; [reflexivity|].
    cbn [rstrip]. now rewrite E.
  - cbn [rstrip]. cbn [rstrip] in IH. now rewrite IH.
Qed.

Lemma rstrip_keeps_head (s : string) :
  lstrip s = s -> lstrip (rstrip s) = rstrip s.
Proof.
  destruct s as [|c r]; [reflexivity|]. intro H.
  apply lstrip_fixed_head in H. cbn [rstrip].
  destruct (rstrip r); rewrite ?H; simpl; now rewrite H.
Qed.

Lemma strip_idempotent (s : string) : strip (strip s) = strip s.
Proof.
  unfold strip.
  rewrite (rstrip_keeps_head (lstrip s) (lstrip_idempotent s)).
  apply rstrip_idempotent.
Qed.

Lemma title_strip (s : string) : strip (title (strip s)) = title (strip s).
Proof.
  unfold title.
  assert (Hl : lstrip (strip s) = strip s).
  { unfold strip. apply rstrip_keeps_head, lstrip_idempotent. }
  assert (Hr : rstrip (strip s) = strip s).
  { unfold strip. apply rstrip_idempotent. }
  unfold strip at 1.
  rewrite (title_from_lstrip false _ Hl), title_from_rstrip. now rewrite Hr.
Qed.

(** The title taken from a link is clean: it holds no hyphen, it has no
    blank at either end, it is already in title case, and it is empty when
    the link lacks the marker /view/. *)
Theorem extracted_title_is_clean (job_link : string) :
  all_chars (fun c => negb (Ascii.eqb c "-"))
            (extract_title_from_url job_link) = true
  /\ strip (extract_title_from_url job_link) = extract_title_from_url job_link
  /\ title (extract_title_from_url job_link) = extract_title_from_url job_link
  /\ (contains "/view/" job_link = false ->
      extract_title_from_url job_link = EmptyString).
Proof.
  unfold extract_title_from_url.
  destruct job_link as [|c0 r0]; [repeat split; reflexivity|].
  set (l := String c0 r0).
  destruct (contains "/view/" l); [|repeat split; reflexivity].
  set (path := if contains "-at-" (strip_trailing_id (split_last "/view/" l))
               then _ else _).
  set (spaced := map_str _ path).
  split; [|split; [apply title_strip|split; [|discriminate]]].
  - unfold title. apply title_from_keeps.
    + intros c Hc. apply negb_true_iff in Hc.
      destruct (hyphen_stays_out c Hc) as [-> ->]. now split.
    + apply rstrip_keeps, lstrip_keeps. unfold spaced.
      apply all_chars_map. intro c.
      destruct (Ascii.eqb c "-") eqn:E; [reflexivity|now rewrite E].
  - unfold title. apply title_from_idempotent.
Qed.

End TitleFacts.

(* ================================================================== *)
(** ** More about matching *)
(* ================================================================== *)

Module MatchFacts.
Import Text Framework Classifier Spec SpecMore TextFacts ScoringFacts.
Import PassFacts ClassifyFacts.

Lemma prefix_all_chars (q : ascii -> bool) (p s : string) :
  String.prefix p s = true -> all_chars q s = true -> all_chars q p = true.
Proof.
  revert s. induction p as [|a p IH]; intros s Hp Hs; [reflexivity|].
  destruct s as [|b s]; [discriminate Hp|]. simpl in Hp.
  destruct (ascii_dec a b) as [->|]; [|discriminate Hp].
  cbn [all_chars] in *. apply andb_true_iff in Hs as [Hb Hs].
  rewrite Hb. simpl. eauto.
Qed.

Lemma contains_all_chars (q : ascii -> bool) (p s : string) :
  contains p s = true -> all_chars q s = true -> all_chars q p = true.
Proof.
  induction s as [|b s IH]; intros Hc Hs.
  - destruct p; [reflexivity|discriminate Hc].
  - cbn [contains] in Hc. apply orb_true_iff in Hc as [Hp|Hc].
    + eapply prefix_all_chars; eassumption.
    + cbn [all_chars] in Hs. apply andb_true_iff in Hs as [_ Hs]. auto.
Qed.

Lemma all_chars_mapped (q : ascii -> bool) (f : ascii -> ascii) (s : string) :
  all_chars q (map_str f s) = all_chars (fun c => q (f c)) s.
Proof.
  induction s as [|c r IH]; [reflexivity|]. cbn [map_str all_chars].
  now rewrite IH.
Qed.

Lemma all_chars_ext (q q' : ascii -> bool) (s : string) :
  (forall c, q c = q' c) -> all_chars q s = all_chars q' s.
Proof.
  intro H. induction s as [|c r IH]; [reflexivity|]. cbn [all_chars].
  now rewrite H, IH.
Qed.

Lemma separator_phrase_absent (skill text : string) :
  all_chars (fun c => negb (is_sep c)) skill = false ->
  contains (lower skill) (normalize_text text) = false.
Proof.
  intro H. destruct (contains (lower skill) (normalize_text text)) eqn:E;
    [|reflexivity].
  assert (Hn : all_chars (fun c => negb (is_sep c)) (normalize_text text)
               = true).
  { pose proof (normalize_text_normal text) as N. unfold normal_form in N.
    apply andb_true_iff in N as [N _]. revert N. apply all_chars_weaken.
    intros c Hc. destruct (settled_fixed c Hc) as (_ & -> & _). reflexivity. }
  pose proof (contains_all_chars _ _ _ E Hn) as HL.
  unfold lower in HL. rewrite all_chars_mapped in HL.
  rewrite (all_chars_ext _ (fun c => negb (is_sep c))) in HL; [congruence|].
  intro c. destruct (TitleFacts.case_maps_keep c) as (_ & _ & -> & _).
  reflexivity.
Qed.

(** An indicator phrase that holds a separator character (a hyphen, a
    slash, a full stop, ...) never matches: in whatever tier it is listed,
    it leaves the scores and the trace as they are, for every title and
    skills text. *)
Theorem separator_phrase_never_scores
    (letter job_title skills_text phrase : string) (td : type_data)
    (st : state) :
  all_chars (fun c => negb (is_sep c)) phrase = false ->
  strong_step letter (normalize_text (job_title ++ " " ++ skills_text))
    (normalize_text job_title) st phrase = Some st
  /\ moderate_step letter (normalize_text (job_title ++ " " ++ skills_text))
       st phrase = Some st
  /\ keyword_step letter (normalize_text (job_title ++ " " ++ skills_text))
       td st phrase = Some st.
Proof.
  intro H. unfold strong_step, moderate_step, keyword_step.
  rewrite (separator_phrase_absent phrase _ H). repeat split.
Qed.

Lemma separator_phrase_never_scores_witness :
  moderate_step "R" (normalize_text (EmptyString ++ " " ++ "hands-on repair"))
    initial_state "hands-on" = Some initial_state.
Proof.
  apply (separator_phrase_never_scores "R" EmptyString "hands-on repair"
           "hands-on" (mk "Realistic" "The Doers" [] []) initial_state).
  reflexivity.
Defined.

Lemma normalize_text_lower (x : string) :
  normalize_text x
  = strip (collapse_whitespace (replace_separators (lower x))).
Proof. destruct x; reflexivity. Qed.

Lemma lower_empty (x y : string) :
  lower x = lower y -> (x = EmptyString <-> y = EmptyString).
Proof.
  destruct x, y; simpl; intro H; split; intro E;
    try reflexivity; try discriminate.
Qed.

(** Classification does not depend on the case of the skills text or of
    the title: two inputs that agree once in lower case give the same
    result. *)
Theorem classification_ignores_case (fw : framework)
    (skills_text skills_text' job_title job_title' job_link : string) :
  lower skills_text' = lower skills_text ->
  lower job_title' = lower job_title ->
  classify_job fw skills_text' job_title' job_link
  = classify_job fw skills_text job_title job_link.
Proof.
  intros Hs Ht.
  assert (Hscores : forall t t', lower t' = lower t ->
            calculate_riasec_scores fw skills_text' t'
            = calculate_riasec_scores fw skills_text t).
  { intros t t' H. unfold calculate_riasec_scores.
    rewrite (normalize_text_lower (t' ++ " " ++ skills_text')),
            (normalize_text_lower (t ++ " " ++ skills_text)),
            (normalize_text_lower t'), (normalize_text_lower t).
    rewrite !lower_app, Hs, H. reflexivity. }
  unfold classify_job.
  destruct job_title as [|a t], job_title' as [|a' t'];
    try (simpl in Ht; discriminate Ht).
  - destruct job_link; rewrite (Hscores _ _ eq_refl); reflexivity.
  - rewrite (Hscores _ _ Ht). reflexivity.
Qed.

Lemma classification_ignores_case_witness :
  classify_job get_embedded_framework "PYTHON, Sql" "DATA analyst" EmptyString
  = classify_job get_embedded_framework "python, sql" "data analyst"
      EmptyString.
Proof.
  apply classification_ignores_case; reflexivity.
Defined.

End MatchFacts.

(* ================================================================== *)
(** ** Keywords, foreign letters and texts without evidence *)
(* ================================================================== *)

Module EvidenceFacts.
Import Text Framework Classifier Spec SpecMore ScoringFacts PassFacts.

Lemma dict_get_absent {V : Type} (k : string) (d : list (string * V)) :
  ~ In k (map fst d) -> dict_get k d = None.
Proof.
  induction d as [|[k0 v0] r IH]; simpl; intro H; [reflexivity|].
  destruct (String.eqb k k0) eqn:E.
  - apply String.eqb_eq in E. subst k0. exfalso. apply H. now left.
  - apply IH. intro Hin. apply H. now right.
Qed.

Lemma dict_update_absent {V : Type} (k : string) (f : V -> V)
    (d : list (string * V)) :
  ~ In k (map fst d) -> dict_update k f d = None.
Proof.
  induction d as [|[k0 v0] r IH]; simpl; intro H; [reflexivity|].
  destruct (String.eqb k k0) eqn:E.
  - apply String.eqb_eq in E. subst k0. exfalso. apply H. now left.
  - rewrite IH; [reflexivity|]. intro Hin. apply H. now right.
Qed.

Lemma for_each_guard {A : Type} (body : state -> A -> option state)
    (g : A -> bool) (st : state) (l : list A) :
  (forall x, body st x = if g x then None else Some st) ->
  for_each body l st = if existsb g l then None else Some st.
Proof.
  intro H. induction l as [|x r IH]; [reflexivity|].
  cbn [for_each existsb]. rewrite H.
  destruct (g x); [reflexivity|exact IH].
Qed.

Lemma for_each_quiet {A : Type} (body : state -> A -> option state)
    (g : A -> bool) (st : state) (l : list A) :
  (forall x, g x = false -> body st x = Some st) ->
  existsb g l = false -> for_each body l st = Some st.
Proof.
  intro H. induction l as [|x r IH]; [reflexivity|].
  cbn [for_each existsb]. intro E. apply orb_false_iff in E as [Ex Er].
  rewrite (H x Ex). cbn [bind]. auto.
Qed.

Section OneType.
Variables (letter combined_text title_text : string) (td : type_data).

(** A category none of whose indicators reaches a bucket leaves the state
    as it is, whatever its letter. *)
Lemma score_type_quiet (st : state) :
  touches combined_text td = false ->
  score_type letter combined_text title_text td st = Some st.
Proof.
  unfold touches. intro H.
  apply orb_false_iff in H as [H Hk]. apply orb_false_iff in H as [Hs Hm].
  unfold score_type.
  rewrite (for_each_quiet _ (fun k => contains (lower k) combined_text) st
             (strong td)); [|intros x Hx; unfold strong_step; now rewrite Hx
                            |exact Hs].
  cbn [bind].
  rewrite (for_each_quiet _ (fun k => contains (lower k) combined_text) st
             (moderate td)); [|intros x Hx; unfold moderate_step;
                               now rewrite Hx|exact Hm].
  cbn [bind].
  apply (for_each_quiet _ (keyword_counts combined_text td)); [|exact Hk].
  intros x Hx. unfold keyword_step. unfold keyword_counts in Hx.
  now rewrite Hx.
Qed.

(** Error behaviour: a category whose letter is not one of R, I, A, S, E,
    C raises (the [KeyError] of the bucket subscript) exactly when one of
    its indicators reaches a bucket, and otherwise changes nothing. *)
Theorem foreign_letter_raises_on_match (st : state) :
  sound st ->
  ~ In letter alphabet ->
  score_type letter combined_text title_text td st
  = if touches combined_text td then None else Some st.
Proof.
  intros (Hs & Hm & _) Hl.
  assert (Hadd : forall w, add_score letter w st = None).
  { intro w. unfold add_score.
    rewrite dict_update_absent; [reflexivity|]. now rewrite Hs. }
  assert (Hget : dict_get letter (snd st) = None).
  { apply dict_get_absent. now rewrite Hm. }
  destruct (touches combined_text td) eqn:T;
    [|now apply score_type_quiet].
  unfold touches in T. unfold score_type.
  rewrite (for_each_guard _ (fun k => contains (lower k) combined_text) st
             (strong td));
    [|intro x; unfold strong_step;
      destruct (contains (lower x) combined_text); [|reflexivity];
      now rewrite Hadd].
  destruct (existsb _ (strong td)); [reflexivity|]. cbn [bind].
  rewrite (for_each_guard _ (fun k => contains (lower k) combined_text) st
             (moderate td));
    [|intro x; unfold moderate_step;
      destruct (contains (lower x) combined_text); [|reflexivity];
      now rewrite Hget].
  destruct (existsb _ (moderate td)); [reflexivity|]. cbn [bind].
  rewrite (for_each_guard _ (keyword_counts combined_text td) st
             (keywords td)).
  - simpl in T. now rewrite T.
  - intro x. unfold keyword_step, keyword_counts.
    destruct (_ && _); [|reflexivity]. now rewrite Hadd.
Qed.
End OneType.

Lemma foreign_letter_raises_on_match_witness :
  score_type "X" "juggling and welding" EmptyString
    (mk "Extra" "The Others" ["juggling"] []) initial_state = None.
Proof.
  rewrite (foreign_letter_raises_on_match "X" "juggling and welding"
             EmptyString (mk "Extra" "The Others" ["juggling"] [])
             initial_state initial_state_sound).
  - reflexivity.
  - simpl. intuition discriminate.
Defined.

Lemma scores_untouched (fw : framework) (skills_text job_title : string) :
  untouched fw (normalize_text (job_title ++ " " ++ skills_text)) = true ->
  calculate_riasec_scores fw skills_text job_title = Some initial_state.
Proof.
  unfold untouched, calculate_riasec_scores.
  generalize (normalize_text (job_title ++ " " ++ skills_text))
             (normalize_text job_title) initial_state.
  intros ct tt st H.
  induction (riasec_types fw) as [|[letter td] r IH]; [reflexivity|].
  cbn [forallb snd] in H. apply andb_true_iff in H as [Ht Hr].
  apply negb_true_iff in Ht.
  cbn [for_each]. rewrite (score_type_quiet letter ct tt td st Ht).
  cbn [bind]. auto.
Qed.

(** Zero evidence: when no indicator of the framework reaches a bucket
    (so for empty inputs, unless a phrase is empty), classification returns
    with six zero scores, the code RIA, confidence 0 and no matched
    indicator, also for a framework with foreign letters. *)
Theorem no_evidence_classification (fw : framework)
    (skills_text job_title : string) :
  untouched fw (normalize_text (job_title ++ " " ++ skills_text)) = true ->
  exists r,
    classify_job fw skills_text job_title EmptyString = Some r
    /\ scores r = fst initial_state
    /\ riasec_code r = "RIA"
    /\ (confidence r == 0)%Q
    /\ (total_score r == 0)%Q
    /\ matched_indicators r = [].
Proof.
  intro H. apply scores_untouched in H.
  unfold classify_job.
  replace (match job_title, EmptyString with
           | EmptyString, String _ _ => extract_title_from_url EmptyString
           | _, _ => job_title
           end) with job_title by now destruct job_title.
  rewrite H. cbn [bind initial_state fst snd].
  destruct (match dict_get _ (combinations fw) with
            | Some (ComboDict d g) => _
            | Some (ComboText t) => _
            | None => _
            end) as [de gi].
  eexists. split; [reflexivity|]. cbn. repeat split; reflexivity.
Qed.

Lemma no_evidence_classification_witness :
  exists r,
    classify_job get_embedded_framework EmptyString EmptyString EmptyString
    = Some r
    /\ riasec_code r = "RIA" /\ (confidence r == 0)%Q.
Proof.
  destruct (no_evidence_classification get_embedded_framework EmptyString
              EmptyString eq_refl) as (r & Hr & _ & Hc & Hz & _).
  exists r. repeat split; assumption.
Defined.

Section Keywords.
Variables (letter combined_text : string) (td : type_data).

Lemma keyword_step_bucket (st : state) kw v tr :
  dict_get letter (fst st) = Some v ->
  dict_get letter (snd st) = Some tr ->
  exists st' v',
    keyword_step letter combined_text td st kw = Some st'
    /\ dict_get letter (fst st') = Some v'
    /\ (v' == v + (if keyword_counts combined_text td kw then 1 else 0))%Q
    /\ dict_get letter (snd st')
       = Some (tr ++ keyword_trace combined_text td [kw])%list
    /\ same_elsewhere letter st st'.
Proof.
  intros Hv Ht. unfold keyword_step, keyword_trace. cbn [filter].
  fold (keyword_counts combined_text td kw).
  destruct (keyword_counts combined_text td kw).
  - destruct (add_score_bucket letter KEYWORD_WEIGHT st v Hv)
      as (st1 & -> & Hv1 & Hs1 & Ho1).
    cbn [bind]. rewrite <- Hs1 in Ht.
    destruct (record_match_bucket letter (kw ++ keyword_tag) st1 tr Ht)
      as (st2 & -> & Ht2 & Hs2 & Ho2).
    exists st2. eexists. split; [reflexivity|].
    split; [rewrite Hs2; exact Hv1|]. split; [reflexivity|].
    split; [exact Ht2|]. eapply same_elsewhere_trans; eassumption.
  - exists st, v. split; [reflexivity|]. split; [exact Hv|].
    split; [ring|]. cbn [map]. rewrite app_nil_r.
    split; [exact Ht|apply same_elsewhere_refl].
Qed.

(** The keyword pass adds 1.0 and one trace entry for every keyword of the
    list that occurs in the text and is, in lower case, neither a strong
    nor a moderate indicator of the category, each time it is listed; the
    other buckets are not touched. *)
Theorem keyword_pass_adds_one_each (kws : list string) (st : state) v tr :
  dict_get letter (fst st) = Some v ->
  dict_get letter (snd st) = Some tr ->
  exists st' v',
    for_each (keyword_step letter combined_text td) kws st = Some st'
    /\ dict_get letter (fst st') = Some v'
    /\ (v' == v + inject_Z (Z.of_nat
                    (length (filter (keyword_counts combined_text td) kws))))%Q
    /\ dict_get letter (snd st')
       = Some (tr ++ keyword_trace combined_text td kws)%list
    /\ same_elsewhere letter st st'.
Proof.
  revert st v tr.
  induction kws as [|kw r IH]; intros st v tr Hv Ht.
  - exists st, v. split; [reflexivity|]. split; [exact Hv|].
    split; [simpl; ring|]. unfold keyword_trace. simpl.
    rewrite app_nil_r. split; [exact Ht|apply same_elsewhere_refl].
  - destruct (keyword_step_bucket st kw v tr Hv Ht)
      as (st1 & v1 & H1 & Hv1 & E1 & Ht1 & Ho1).
    destruct (IH st1 v1 _ Hv1 Ht1) as (st2 & v2 & H2 & Hv2 & E2 & Ht2 & Ho2).
    exists st2, v2. cbn [for_each]. rewrite H1. cbn [bind].
    split; [exact H2|]. split; [exact Hv2|].
    split; [|split; [|eapply same_elsewhere_trans; eassumption]].
    + rewrite E2, E1. cbn [filter].
      destruct (keyword_counts combined_text td kw); cbn [length].
      * rewrite Nat2Z.inj_succ, <- Z.add_1_r, inject_Z_plus. ring.
      * ring.
    + rewrite Ht2, <- app_assoc. unfold keyword_trace. cbn [filter].
      destruct (keyword_counts combined_text td kw); reflexivity.
Qed.
End Keywords.

Lemma keyword_pass_adds_one_each_witness :
  exists st' v',
    for_each (keyword_step "I" "data and data pipelines"
                {| name := None; display_title := None;
                   strong := ["Data"]; moderate := [];
                   keywords := ["pipelines"; "data"; "pipelines"] |})
      ["pipelines"; "data"; "pipelines"] initial_state = Some st'
    /\ dict_get "I" (fst st') = Some v'
    /\ (v' == 2)%Q.
Proof.
  destruct (keyword_pass_adds_one_each "I" "data and data pipelines"
              {| name := None; display_title := None;
                 strong := ["Data"]; moderate := [];
                 keywords := ["pipelines"; "data"; "pipelines"] |}
              ["pipelines"; "data"; "pipelines"] initial_state 0%Q []
              eq_refl eq_refl)
    as (st' & v' & H & Hv & E & _).
  exists st', v'. split; [exact H|]. split; [exact Hv|].
  rewrite E. reflexivity.
Defined.

End EvidenceFacts.

(* ================================================================== *)
(** ** Scores and trace agree *)
(* ================================================================== *)

Module CoherenceFacts.
Import Text Framework Classifier Spec SpecMore ScoringFacts PassFacts.
Import EvidenceFacts.

Lemma initial_state_coherent : coherent initial_state.
Proof.
  intros letter v tr Hv Ht. unfold initial_state in *. simpl in *.
  repeat (destruct (String.eqb letter _);
          [injection Hv as <-; injection Ht as <-;
           split; [reflexivity|congruence]|]).
  discriminate.
Qed.

(** A step that leaves the bucket of its letter alone or adds at least one
    point and one trace entry to it keeps scores and trace in agreement. *)
Lemma coherent_step letter (st st' : state) v tr v' tr' :
  coherent st ->
  dict_get letter (fst st) = Some v ->
  dict_get letter (snd st) = Some tr ->
  dict_get letter (fst st') = Some v' ->
  dict_get letter (snd st') = Some tr' ->
  same_elsewhere letter st st' ->
  ((v' == v)%Q /\ tr' = tr) \/ ((v + 1 <= v')%Q /\ exists e, tr' = (tr ++ [e])%list) ->
  coherent st'.
Proof.
  intros Hc Hv Ht Hv' Ht' Ho Hstep k w u Hw Hu.
  destruct (String.eqb k letter) eqn:E.
  - apply String.eqb_eq in E. subst k.
    rewrite Hv' in Hw. rewrite Ht' in Hu.
    injection Hw as <-. injection Hu as <-.
    destruct (Hc letter v tr Hv Ht) as [H0 H1].
    assert (Hpos : (0 <= v)%Q).
    { destruct tr; [rewrite H0 by reflexivity; discriminate|].
      assert (1 <= v)%Q by (apply H1; discriminate). lra. }
    destruct Hstep as [[Ev ->]|[Ev [e ->]]].
    + split; intro H; [rewrite Ev; auto|rewrite Ev; auto].
    + split; intro H; [destruct tr; discriminate H|lra].
  - apply String.eqb_neq in E. destruct (Ho k E) as [A B].
    rewrite A in Hw. rewrite B in Hu. exact (Hc k w u Hw Hu).
Qed.

Lemma buckets_of_sound letter (st : state) :
  sound st -> In letter alphabet ->
  exists v tr,
    dict_get letter (fst st) = Some v /\ dict_get letter (snd st) = Some tr.
Proof.
  intros (Hs & Hm & _) Hl.
  destruct (dict_get_defined letter (fst st)) as [v Hv]; [now rewrite Hs|].
  destruct (dict_get_defined letter (snd st)) as [tr Ht]; [now rewrite Hm|].
  eauto.
Qed.

Lemma foreign_bucket letter (st : state) :
  sound st -> ~ In letter alphabet ->
  (forall w, add_score letter w st = None)
  /\ dict_get letter (snd st) = None.
Proof.
  intros (Hs & Hm & _) Hl. split.
  - intro w. unfold add_score.
    rewrite dict_update_absent; [reflexivity|]. now rewrite Hs.
  - apply dict_get_absent. now rewrite Hm.
Qed.

Section Steps.
Variables (letter combined_text title_text : string) (td : type_data).

Lemma strong_step_coherent : forall st x st',
  sound st -> coherent st ->
  strong_step letter combined_text title_text st x = Some st' ->
  coherent st'.
Proof.
  intros st x st' Hs Hc H.
  destruct (in_dec string_dec letter alphabet) as [Hl|Hl].
  - destruct (buckets_of_sound letter st Hs Hl) as (v & tr & Hv & Ht).
    destruct (strong_step_bucket letter combined_text title_text st x v tr
                Hv Ht) as (st2 & v' & H2 & Hv' & E & Ht' & Ho).
    rewrite H in H2. injection H2 as <-.
    apply (coherent_step letter st st' v tr v' _ Hc Hv Ht Hv' Ht' Ho).
    unfold strong_points in E. unfold strong_trace in *. cbn [filter] in *.
    destruct (contains (lower x) combined_text).
    + right. split; [|eexists; reflexivity].
      destruct (contains (lower x) title_text); rewrite E; lra.
    + left. split; [rewrite E; ring|apply app_nil_r].
  - destruct (foreign_bucket letter st Hs Hl) as [Hadd _].
    unfold strong_step in H.
    destruct (contains (lower x) combined_text).
    + rewrite Hadd in H. discriminate.
    + now injection H as <-.
Qed.

Lemma moderate_step_coherent : forall st x st',
  sound st -> coherent st ->
  moderate_step letter combined_text st x = Some st' ->
  coherent st'.
Proof.
  intros st x st' Hs Hc H.
  unfold moderate_step in H.
  destruct (contains (lower x) combined_text); [|now injection H as <-].
  destruct (in_dec string_dec letter alphabet) as [Hl|Hl].
  - destruct (buckets_of_sound letter st Hs Hl) as (v & tr & Hv & Ht).
    rewrite Ht in H. cbn [bind] in H.
    destruct (negb _); [|now injection H as <-].
    destruct (add_score_bucket letter MODERATE_INDICATOR_WEIGHT st v Hv)
      as (st1 & H1 & Hv1 & Hs1 & Ho1).
    rewrite H1 in H. cbn [bind] in H. rewrite <- Hs1 in Ht.
    destruct (record_match_bucket letter (x ++ moderate_tag) st1 tr Ht)
      as (st2 & H2 & Ht2 & Hs2 & Ho2).
    rewrite H2 in H. injection H as <-. rewrite Hs1 in Ht.
    apply (coherent_step letter st st2 v tr
             (v + MODERATE_INDICATOR_WEIGHT)%Q
             (tr ++ [(x ++ moderate_tag)%string])%list Hc Hv Ht).
    + rewrite Hs2. exact Hv1.
    + exact Ht2.
    + eapply same_elsewhere_trans; eassumption.
    + right. split; [unfold MODERATE_INDICATOR_WEIGHT; lra|].
      eexists. reflexivity.
  - destruct (foreign_bucket letter st Hs Hl) as [_ Hget].
    rewrite Hget in H. discriminate.
Qed.

Lemma keyword_step_coherent : forall st x st',
  sound st -> coherent st ->
  keyword_step letter combined_text td st x = Some st' ->
  coherent st'.
Proof.
  intros st x st' Hs Hc H.
  destruct (in_dec string_dec letter alphabet) as [Hl|Hl].
  - destruct (buckets_of_sound letter st Hs Hl) as (v & tr & Hv & Ht).
    destruct (keyword_step_bucket letter combined_text td st x v tr Hv Ht)
      as (st2 & v' & H2 & Hv' & E & Ht' & Ho).
    rewrite H in H2. injection H2 as <-.
    apply (coherent_step letter st st' v tr v' _ Hc Hv Ht Hv' Ht' Ho).
    unfold keyword_trace in *. cbn [filter] in *.
    destruct (keyword_counts combined_text td x).
    + right. split; [rewrite E; lra|eexists; reflexivity].
    + left. split; [rewrite E; ring|apply app_nil_r].
  - destruct (foreign_bucket letter st Hs Hl) as [Hadd _].
    unfold keyword_step in H.
    destruct (_ && _).
    + rewrite Hadd in H. discriminate.
    + now injection H as <-.
Qed.
End Steps.

Lemma for_each_coherent {A : Type} (body : state -> A -> option state) l :
  keeps body ->
  (forall st x st', sound st -> coherent st -> body st x = Some st' ->
                    coherent st') ->
  forall st st',
    sound st -> coherent st -> for_each body l st = Some st' ->
    sound st' /\ coherent st'.
Proof.
  intros K C. induction l as [|x r IH]; intros st st' Hs Hc H; simpl in H.
  - injection H as <-. now split.
  - apply bind_some in H as (st1 & H1 & H2).
    apply (IH st1 st'); eauto.
Qed.

Lemma score_type_coherent letter ct tt td (st st' : state) :
  sound st -> coherent st ->
  score_type letter ct tt td st = Some st' ->
  sound st' /\ coherent st'.
Proof.
  intros Hs Hc H. unfold score_type in H.
  apply bind_some in H as (st1 & H1 & H).
  apply bind_some in H as (st2 & H2 & H).
  apply (for_each_coherent _ _ (strong_step_keeps letter ct tt)
           (strong_step_coherent letter ct tt)) in H1 as [Hs1 Hc1];
    try assumption.
  apply (for_each_coherent _ _ (moderate_step_keeps letter ct)
           (moderate_step_coherent letter ct)) in H2 as [Hs2 Hc2];
    try assumption.
  apply (for_each_coherent _ _ (keyword_step_keeps letter ct td)
           (keyword_step_coherent letter ct td)) in H; assumption.
Qed.

Lemma calculate_riasec_scores_coherent fw skills_text job_title st :
  calculate_riasec_scores fw skills_text job_title = Some st ->
  sound st /\ coherent st.
Proof.
  unfold calculate_riasec_scores.
  generalize (normalize_text (job_title ++ " " ++ skills_text))
             (normalize_text job_title).
  intros ct tt.
  generalize initial_state_sound initial_state_coherent.
  generalize initial_state. revert st.
  induction (riasec_types fw) as [|[letter td] r IH];
    intros st st0 Hs Hc H; simpl in H.
  - injection H as <-. now split.
  - apply bind_some in H as (st1 & H1 & H2).
    destruct (score_type_coherent _ _ _ _ _ _ Hs Hc H1) as [Hs1 Hc1].
    eauto.
Qed.

Lemma classify_job_matched fw skills_text job_title job_link r :
  classify_job fw skills_text job_title job_link = Some r ->
  exists title st,
    calculate_riasec_scores fw skills_text title = Some st
    /\ scores r = fst st
    /\ matched_indicators r
       = filter (fun '(_, v) => match v with [] => false | _ => true end)
                (snd st).
Proof.
  unfold classify_job.
  set (title := match job_title with
                | EmptyString => _
                | String _ _ => _
                end).
  intro H. exists title.
  destruct (calculate_riasec_scores fw skills_text title) as [[sc ma]|];
    [|discriminate].
  exists (sc, ma). simpl in H.
  destruct (match dict_get (determine_riasec_code sc) (combinations fw) with
            | Some (ComboDict d g) => _
            | Some (ComboText t) => _
            | None => _
            end) as [de gi].
  injection H as <-. simpl. auto.
Qed.

Lemma dict_get_in {V : Type} (k : string) (d : list (string * V)) (v : V) :
  dict_get k d = Some v -> In (k, v) d.
Proof.
  induction d as [|[k0 v0] r IH]; simpl; [discriminate|].
  destruct (String.eqb k k0) eqn:E.
  - apply String.eqb_eq in E. subst k0. intro H. injection H as <-. now left.
  - intro H. right. auto.
Qed.

Lemma in_dict_get {V : Type} (k : string) (d : list (string * V)) (v : V) :
  NoDup (map fst d) -> In (k, v) d -> dict_get k d = Some v.
Proof.
  induction d as [|[k0 v0] r IH]; simpl; [tauto|].
  intros Hnd [E|Hin].
  - injection E as -> ->. now rewrite String.eqb_refl.
  - apply NoDup_cons_iff in Hnd as [Hk Hr].
    destruct (String.eqb k k0) eqn:E.
    + apply String.eqb_eq in E. subst k0. exfalso. apply Hk.
      apply in_map_iff. exists (k, v). now split.
    + auto.
Qed.

(** The trace explains the scores: in every returned classification a
    letter is listed in [matched_indicators] exactly when its score is
    positive, and a positive score is at least 1. *)
Theorem matched_letters_are_scored fw skills_text job_title job_link r
    letter v :
  classify_job fw skills_text job_title job_link = Some r ->
  dict_get letter (scores r) = Some v ->
  (In letter (map fst (matched_indicators r)) <-> (0 < v)%Q)
  /\ ((0 < v)%Q -> (1 <= v)%Q).
Proof.
  intros Hr Hv.
  destruct (classify_job_matched _ _ _ _ _ Hr) as (t & st & Hst & Hsc & Hm).
  destruct (calculate_riasec_scores_coherent _ _ _ _ Hst)
    as [(Hks & Hkm & Hn) Hc].
  rewrite Hsc in Hv. rewrite Hm.
  assert (Hl : In letter alphabet).
  { rewrite <- Hks. apply in_map_iff. exists (letter, v).
    split; [reflexivity|now apply dict_get_in]. }
  destruct (dict_get_defined letter (snd st)) as [tr Ht]; [now rewrite Hkm|].
  destruct (Hc letter v tr Hv Ht) as [H0 H1].
  assert (Hnd : NoDup (map fst (snd st)))
    by (rewrite Hkm; apply CodeFacts.alphabet_nodup).
  split.
  - split.
    + intro Hin. apply in_map_iff in Hin as ([k u] & Ek & Hin).
      simpl in Ek. subst k. apply filter_In in Hin as [Hin Hu].
      apply (in_dict_get _ _ _ Hnd) in Hin. rewrite Ht in Hin.
      injection Hin as ->.
      assert (1 <= v)%Q by (apply H1; destruct u; [discriminate Hu|discriminate]).
      lra.
    + intro Hpos. apply in_map_iff. exists (letter, tr). split; [reflexivity|].
      apply filter_In. split; [now apply dict_get_in|].
      destruct tr; [|reflexivity]. rewrite H0 in Hpos by reflexivity.
      apply Qlt_irrefl in Hpos. contradiction.
  - intro Hpos. apply H1. intro E. rewrite H0 in Hpos by exact E.
    apply Qlt_irrefl in Hpos. contradiction.
Qed.

Lemma matched_letters_are_scored_witness :
  exists r v,
    classify_job get_embedded_framework "Python, SQL" "Data Analyst"
      EmptyString = Some r
    /\ dict_get "I" (scores r) = Some v
    /\ (In "I" (map fst (matched_indicators r)) <-> (0 < v)%Q).
Proof.
  eexists. eexists.
  split; [vm_compute; reflexivity|]. split; [reflexivity|].
  eapply (proj1 (matched_letters_are_scored get_embedded_framework
                   "Python, SQL" "Data Analyst" EmptyString _ "I" _ _ _)).
  Unshelve.
  - vm_compute. reflexivity.
  - reflexivity.
Defined.

End CoherenceFacts.

(* ================================================================== *)
(** ** More about the code *)
(* ================================================================== *)

Module RankFacts.
Import Text Framework Classifier Spec SortFacts CodeFacts.

Lemma top_three (sc : scores_t) :
  map fst sc = alphabet ->
  exists p1 p2 p3 rest,
    sorted_desc snd sc = p1 :: p2 :: p3 :: rest
    /\ Permutation (p1 :: p2 :: p3 :: rest) sc
    /\ determine_riasec_code sc = fst p1 ++ fst p2 ++ fst p3.
Proof.
  intro Hk.
  pose proof (sorted_desc_perm snd sc) as Hp.
  pose proof (code_is_top_three sc) as Hc.
  rewrite Hk in Hc. specialize (Hc alphabet_nodup).
  assert (Hlen : length (sorted_desc snd sc) = 6).
  { rewrite (Permutation_length Hp), <- (length_map fst), Hk. reflexivity. }
  destruct (sorted_desc snd sc) as [|p1 [|p2 [|p3 rest]]];
    try discriminate Hlen.
  exists p1, p2, p3, rest. split; [reflexivity|]. split; [exact Hp|].
  rewrite Hc. reflexivity.
Qed.

(** The three letters of a code are pairwise different. *)
Theorem code_letters_distinct (sc : scores_t) :
  map fst sc = alphabet ->
  exists a b c : ascii,
    determine_riasec_code sc = String a (String b (String c EmptyString))
    /\ a <> b /\ a <> c /\ b <> c.
Proof.
  intro Hk.
  destruct (top_three sc Hk) as (p1 & p2 & p3 & rest & _ & Hp & ->).
  assert (Hnd : NoDup (map fst (p1 :: p2 :: p3 :: rest))).
  { eapply Permutation_NoDup.
    - apply Permutation_map. symmetry. exact Hp.
    - rewrite Hk. apply alphabet_nodup. }
  assert (Hin : forall p, In p (p1 :: p2 :: p3 :: rest) ->
                          In (fst p) alphabet).
  { intros p Hin. rewrite <- Hk. apply in_map.
    eapply Permutation_in; eassumption. }
  destruct (alphabet_letter _ (Hin p1 (or_introl eq_refl))) as (a & Ea & _).
  destruct (alphabet_letter _ (Hin p2 (or_intror (or_introl eq_refl))))
    as (b & Eb & _).
  destruct (alphabet_letter _
              (Hin p3 (or_intror (or_intror (or_introl eq_refl)))))
    as (c & Ec & _).
  exists a, b, c. rewrite Ea, Eb, Ec. split; [reflexivity|].
  cbn [map] in Hnd. rewrite Ea, Eb, Ec in Hnd.
  apply NoDup_cons_iff in Hnd as [N1 Hnd].
  apply NoDup_cons_iff in Hnd as [N2 _].
  repeat split; intro E; subst.
  - apply N1. now left.
  - apply N1. right. now left.
  - apply N2. now left.
Qed.

Lemma code_letters_distinct_witness :
  exists a b c : ascii,
    determine_riasec_code
      [("R", 0); ("I", 3); ("A", 0); ("S", 3); ("E", 0); ("C", 0)]%Q
    = String a (String b (String c EmptyString))
    /\ a <> b /\ a <> c /\ b <> c.
Proof.
  apply code_letters_distinct. reflexivity.
Defined.

(** The code follows the scores: its letters come in order of
    non-increasing score, and no letter left out of the code has a score
    above the third letter of the code.  In particular the primary type is
    a category of greatest score. *)
Theorem code_follows_scores (sc : scores_t) :
  map fst sc = alphabet ->
  exists l1 l2 l3 v1 v2 v3,
    determine_riasec_code sc = l1 ++ l2 ++ l3
    /\ In (l1, v1) sc /\ In (l2, v2) sc /\ In (l3, v3) sc
    /\ (v2 <= v1)%Q /\ (v3 <= v2)%Q
    /\ forall l v,
         In (l, v) sc -> l <> l1 -> l <> l2 -> l <> l3 -> (v <= v3)%Q.
Proof.
  intro Hk.
  destruct (top_three sc Hk) as ([l1 v1] & [l2 v2] & [l3 v3] & rest
                                 & Hs & Hp & Hc).
  pose proof (sorted_desc_descending snd sc) as Hd. rewrite Hs in Hd.
  apply StronglySorted_inv in Hd as [Hd H1].
  apply StronglySorted_inv in Hd as [Hd H2].
  apply StronglySorted_inv in Hd as [_ H3].
  exists l1, l2, l3, v1, v2, v3. split; [exact Hc|].
  assert (Hin : forall p, In p ((l1, v1) :: (l2, v2) :: (l3, v3) :: rest) ->
                          In p sc)
    by (intros p; apply Permutation_in; exact Hp).
  split; [apply Hin; now left|].
  split; [apply Hin; right; now left|].
  split; [apply Hin; right; right; now left|].
  inversion H1 as [|? ? H12 _]; subst. inversion H2 as [|? ? H23 _]; subst.
  split; [exact H12|]. split; [exact H23|].
  intros l v Hl N1 N2 N3.
  apply (Permutation_in _ (Permutation_sym Hp)) in Hl.
  destruct Hl as [E|[E|[E|Hl]]]; try (injection E as <- <-; congruence).
  rewrite Forall_forall in H3. exact (H3 (l, v) Hl).
Qed.

Lemma code_follows_scores_witness :
  exists l1 l2 l3 v1 v2 v3,
    determine_riasec_code
      [("R", 0); ("I", 3); ("A", 0); ("S", 3); ("E", 3 # 2); ("C", 0)]%Q
    = l1 ++ l2 ++ l3
    /\ In (l1, v1)
         [("R", 0); ("I", 3); ("A", 0); ("S", 3); ("E", 3 # 2); ("C", 0)]%Q
    /\ (v2 <= v1)%Q /\ (v3 <= v2)%Q.
Proof.
  destruct (code_follows_scores
              [("R", 0); ("I", 3); ("A", 0); ("S", 3); ("E", 3 # 2);
               ("C", 0)]%Q eq_refl)
    as (l1 & l2 & l3 & v1 & v2 & v3 & Hc & H1 & _ & _ & H12 & H23 & _).
  exists l1, l2, l3, v1, v2, v3. repeat split; assumption.
Defined.

End RankFacts.

(* ================================================================== *)
(** ** More about the confidence estimate *)
(* ================================================================== *)

Module ConfidenceMoreFacts.
Import Text Framework Classifier Spec SpecMore SortFacts ScoringFacts.
Import CodeFacts ClassifyFacts ConfidenceFacts CoherenceFacts.

Lemma sumQ_perm (l l' : list Q) : Permutation l l' -> (sumQ l == sumQ l')%Q.
Proof.
  induction 1 as [|x l l' _ IH|x y l|l l' l'' _ IH1 _ IH2]; simpl.
  - reflexivity.
  - now rewrite IH.
  - ring.
  - now rewrite IH1.
Qed.

Lemma scores_non_negative_values (sc : scores_t) :
  Forall (fun p => (0 <= snd p)%Q) sc ->
  Forall (fun v => (0 <= v)%Q) (map snd sc).
Proof.
  intro Hn. apply Forall_forall. intros v Hv.
  apply in_map_iff in Hv as (p & <- & Hp).
  rewrite Forall_forall in Hn. now apply Hn.
Qed.

(** The confidence depends on the scores only, not on the letters that
    hold them: rearranging a score vector leaves it unchanged. *)
Theorem confidence_ignores_order (sc sc' : scores_t) :
  Permutation sc sc' ->
  (calculate_confidence sc == calculate_confidence sc')%Q.
Proof.
  intro Hp.
  assert (Hv : Permutation (map snd sc) (map snd sc'))
    by now apply Permutation_map.
  assert (Ht : (total_of sc' == total_of sc)%Q).
  { rewrite !total_of_sum. symmetry. now apply sumQ_perm. }
  destruct (Qeq_dec (total_of sc) 0) as [Z|NZ].
  - unfold calculate_confidence.
    assert (Z' : (total_of sc' == 0)%Q) by now rewrite Ht.
    apply Qeq_bool_iff in Z, Z'. rewrite Z, Z'. reflexivity.
  - assert (NZ' : ~ (total_of sc' == 0)%Q) by now rewrite Ht.
    pose proof (non_zero_total_non_empty sc NZ) as Hne.
    destruct (top_of_greatest _ Hne) as [Hin Hle].
    rewrite (calculate_confidence_value sc (top_of (map snd sc)) NZ)
      by now apply sorted_head_top_of.
    rewrite (calculate_confidence_value sc' (top_of (map snd sc)) NZ').
    + now rewrite Ht.
    + apply sorted_head_greatest.
      * eapply Permutation_in; eassumption.
      * eapply Forall_perm; eassumption.
Qed.

Lemma confidence_ignores_order_witness :
  (calculate_confidence [("R", 3); ("I", 1)]
   == calculate_confidence [("I", 1); ("R", 3)])%Q.
Proof.
  apply confidence_ignores_order. apply perm_swap.
Defined.

Lemma top_bounded_by_total (sc : scores_t) :
  Forall (fun p => (0 <= snd p)%Q) sc ->
  ~ (total_of sc == 0)%Q ->
  (0 < total_of sc)%Q
  /\ (0 <= top_of (map snd sc) <= total_of sc)%Q.
Proof.
  intros Hn NZ.
  pose proof (scores_non_negative_values sc Hn) as Hv.
  pose proof (sumQ_non_negative _ Hv) as Hs.
  destruct (top_of_greatest _ (non_zero_total_non_empty sc NZ)) as [Hin _].
  pose proof (sumQ_bounds_each _ _ Hv Hin) as Hb.
  rewrite <- total_of_sum in Hs, Hb.
  rewrite Forall_forall in Hv. specialize (Hv _ Hin).
  repeat split; lra.
Qed.

(** Full confidence is reached only with all the evidence in one category
    and at least 10 points of it: for non-negative scores with a non-zero
    total, the confidence is 1 exactly when the largest score equals the
    total and the total is at least 10. *)
Theorem full_confidence_condition (sc : scores_t) :
  Forall (fun p => (0 <= snd p)%Q) sc ->
  ~ (total_of sc == 0)%Q ->
  ((calculate_confidence sc == 1)%Q
   <-> (top_of (map snd sc) == total_of sc)%Q /\ (10 <= total_of sc)%Q).
Proof.
  intros Hn NZ.
  destruct (top_bounded_by_total sc Hn NZ) as (Hpos & Htop0 & Htop).
  rewrite (calculate_confidence_value sc (top_of (map snd sc)) NZ)
    by (apply sorted_head_top_of, non_zero_total_non_empty, NZ).
  set (T := total_of sc) in *. set (top := top_of (map snd sc)) in *.
  assert (Hd : (top / T * T == top)%Q) by (field; lra).
  assert (He : (T / 10 * 10 == T)%Q) by field.
  assert (Hd1 : (top / T <= 1)%Q)
    by (apply Qle_shift_div_r; [exact Hpos|lra]).
  revert Hd He Hd1. generalize (top / T)%Q (T / 10)%Q. intros d u Hd He Hd1.
  rewrite !py_min_Qmin.
  assert (Hm1 : (Qmin u 1 <= 1)%Q) by apply Q.le_min_r.
  assert (Hm1' : (Qmin u 1 <= u)%Q) by apply Q.le_min_l.
  assert (Hm1g : (1 <= u -> Qmin u 1 == 1)%Q)
    by (intro G; apply Q.min_r; exact G).
  revert Hm1 Hm1' Hm1g. generalize (Qmin u 1). intros m1 Hm1 Hm1' Hm1g.
  split.
  - intro H.
    assert (Hge : (1 <= d * (6 # 10) + m1 * (4 # 10))%Q).
    { rewrite <- H at 1. apply Q.le_min_l. }
    assert (D1 : (d == 1)%Q) by lra.
    assert (M1 : (m1 == 1)%Q) by lra.
    rewrite D1 in Hd. split; lra.
  - intros [Ht Hten].
    assert (D1 : (d == 1)%Q).
    { apply Qmult_inj_r with (z := T); [lra|]. rewrite Hd, Ht. ring. }
    assert (M1 : (m1 == 1)%Q) by (apply Hm1g; lra).
    rewrite D1, M1. reflexivity.
Qed.

Lemma full_confidence_condition_witness :
  (calculate_confidence
     [("R", 0); ("I", 12); ("A", 0); ("S", 0); ("E", 0); ("C", 0)] == 1)%Q.
Proof.
  apply (full_confidence_condition
           [("R", 0); ("I", 12); ("A", 0); ("S", 0); ("E", 0); ("C", 0)]%Q).
  - repeat (constructor; [discriminate|]). constructor.
  - intro H. vm_compute in H. discriminate H.
  - split; [reflexivity|discriminate].
Defined.

(** Rounding to three decimals moves a value by at most 0.0005. *)
Lemma round3_close (x : Q) :
  (- (1 # 2000) <= round3 x - x <= 1 # 2000)%Q.
Proof.
  unfold round3.
  set (y := (x * 1000)%Q). set (f := Qfloor y).
  pose proof (Qfloor_le y) as Hlo. pose proof (Qlt_floor y) as Hhi.
  fold f in Hlo, Hhi. rewrite inject_Z_plus in Hhi.
  change (inject_Z 1) with 1%Q in Hhi.
  assert (R : forall n : Z, (n # 1000 == inject_Z n / 1000)%Q).
  { intro n. rewrite (Qmake_Qdiv n 1000). reflexivity. }
  assert (Hx : (x == y / 1000)%Q) by (unfold y; field).
  destruct (Qltb ((y - inject_Z f) * 2) 1) eqn:E1.
  - apply Qltb_true in E1. rewrite R, Hx.
    split; apply Qmult_le_l with (z := 1000%Q); try reflexivity;
      field_simplify; lra.
  - apply Qltb_false in E1.
    assert (Hup : (-(1 # 2000) <= (f + 1 # 1000) - x <= 1 # 2000)%Q).
    { rewrite R, inject_Z_plus, Hx. change (inject_Z 1) with 1%Q.
      split; apply Qmult_le_l with (z := 1000%Q); try reflexivity;
        field_simplify; lra. }
    destruct (Qltb 1 ((y - inject_Z f) * 2)) eqn:E2; [exact Hup|].
    apply Qltb_false in E2.
    destruct (Z.even f); [|exact Hup].
    rewrite R, Hx.
    split; apply Qmult_le_l with (z := 1000%Q); try reflexivity;
      field_simplify; lra.
Qed.

Lemma round3_at_least (k : Z) (x : Q) :
  (inject_Z k <= x * 1000)%Q -> (k # 1000 <= round3 x)%Q.
Proof.
  intro H. unfold round3.
  set (y := (x * 1000)%Q) in *. set (f := Qfloor y).
  assert (Hk : (k <= f)%Z).
  { rewrite <- (Qfloor_Z k). now apply Qfloor_resp_le. }
  assert (R : forall n, (k <= n)%Z -> (k # 1000 <= n # 1000)%Q).
  { intros n Hn. unfold Qle. simpl. lia. }
  apply R.
  destruct (Qltb _ 1); [lia|]. destruct (Qltb 1 _); [lia|].
  destruct (Z.even f); lia.
Qed.

Lemma positive_entry (l : list Q) :
  Forall (fun v => (0 <= v)%Q) l -> ~ (sumQ l == 0)%Q ->
  exists x, In x l /\ (0 < x)%Q.
Proof.
  induction 1 as [|x r Hx Hr IH]; simpl; intro NZ.
  - exfalso. apply NZ. reflexivity.
  - destruct (Qlt_le_dec 0 x) as [L|G].
    + exists x. split; [now left|exact L].
    + destruct IH as (y & Hy & Py).
      * intro Z. apply NZ. rewrite Z. lra.
      * exists y. split; [now right|exact Py].
Qed.

Lemma sumQ_at_most (l : list Q) (m : Q) :
  Forall (fun x => (x <= m)%Q) l ->
  (sumQ l <= inject_Z (Z.of_nat (length l)) * m)%Q.
Proof.
  induction 1 as [|x r Hx _ IH].
  - unfold sumQ. cbn [fold_right length Z.of_nat].
    change (inject_Z 0) with 0%Q. lra.
  - change (sumQ (x :: r)) with (x + sumQ r)%Q. cbn [length].
    rewrite Nat2Z.inj_succ, <- Z.add_1_r, inject_Z_plus.
    change (inject_Z 1) with 1%Q. lra.
Qed.

(** A classification with any evidence at all is never given a confidence
    below 0.14: the returned confidence is 0 when the total score is 0 and
    at least 0.14 otherwise (a total of at least 1, of which the top
    category holds at least a sixth). *)
Theorem confidence_floor fw skills_text job_title job_link r :
  classify_job fw skills_text job_title job_link = Some r ->
  ((total_score r == 0)%Q -> (confidence r == 0)%Q)
  /\ (~ (total_score r == 0)%Q ->
      (1 <= total_score r)%Q /\ (14 # 100 <= confidence r)%Q).
Proof.
  intro Hr.
  destruct (classify_job_result _ _ _ _ _ Hr)
    as (t & st & Hst & Hsc & _ & Hc & Ht).
  destruct (calculate_riasec_scores_coherent _ _ _ _ Hst)
    as [(Hks & Hkm & Hn) Hco].
  rewrite Hc, Ht. clear Hc Ht. split.
  - intro Z. unfold calculate_confidence.
    apply Qeq_bool_iff in Z. rewrite Z. reflexivity.
  - intro NZ.
    destruct (top_bounded_by_total _ Hn NZ) as (Hpos & Htop0 & Htop).
    pose proof (scores_non_negative_values _ Hn) as Hv.
    assert (H1 : (1 <= total_of (fst st))%Q).
    { destruct (positive_entry _ Hv) as (x & Hx & Px).
      { now rewrite <- total_of_sum. }
      pose proof (sumQ_bounds_each _ _ Hv Hx) as Hb.
      rewrite <- total_of_sum in Hb.
      apply in_map_iff in Hx as ([l w] & E & Hin). simpl in E. subst w.
      assert (Hnd : NoDup (map fst (fst st)))
        by (rewrite Hks; apply alphabet_nodup).
      pose proof (in_dict_get _ _ _ Hnd Hin) as Hg.
      destruct (dict_get_defined l (snd st)) as [tr Htr].
      { rewrite Hkm, <- Hks. apply in_map_iff. exists (l, x). now split. }
      destruct (Hco l x tr Hg Htr) as [H0 H1].
      destruct tr; [rewrite H0 in Px by reflexivity;
                    apply Qlt_irrefl in Px; contradiction|].
      assert (1 <= x)%Q by (apply H1; discriminate). lra. }
    split; [exact H1|].
    destruct (top_of_greatest _ (non_zero_total_non_empty _ NZ)) as [_ Hle].
    pose proof (sumQ_at_most _ _ Hle) as Hsix.
    rewrite <- total_of_sum, length_map in Hsix.
    assert (L6 : length (fst st) = 6)
      by (rewrite <- (length_map fst), Hks; reflexivity).
    rewrite L6 in Hsix. change (inject_Z (Z.of_nat 6)) with 6%Q in Hsix.
    apply Qle_trans with (140 # 1000)%Q; [discriminate|].
    apply round3_at_least.
    rewrite (calculate_confidence_value _ (top_of (map snd (fst st))) NZ)
      by (apply sorted_head_top_of, non_zero_total_non_empty, NZ).
    set (T := total_of (fst st)) in *.
    set (top := top_of (map snd (fst st))) in *.
    assert (Hd : (1 # 6 <= top / T)%Q)
      by (apply Qle_shift_div_l; [exact Hpos|lra]).
    assert (He : (1 # 10 <= py_min (T / 10) 1)%Q).
    { apply py_min_glb; [|discriminate].
      apply Qle_shift_div_l; [reflexivity|lra]. }
    assert (Hx : (14 # 100 <= py_min (top / T * (6 # 10)
                                     + py_min (T / 10) 1 * (4 # 10)) 1)%Q).
    { apply py_min_glb; [lra|discriminate]. }
    change (inject_Z 140) with 140%Q. lra.
Qed.

Lemma confidence_floor_witness :
  exists r,
    classify_job get_embedded_framework "filing" EmptyString EmptyString
    = Some r
    /\ (14 # 100 <= confidence r)%Q.
Proof.
  eexists. split; [vm_compute; reflexivity|].
  eapply (proj2 (confidence_floor get_embedded_framework "filing"
                   EmptyString EmptyString _ _)).
  Unshelve.
  - intro H. vm_compute in H. discriminate H.
  - vm_compute. reflexivity.
Defined.

(** The confidence that [classify_job] returns is the computed confidence
    of the returned scores rounded to three decimals: the two differ by at
    most 0.0005. *)
Theorem returned_confidence_is_close fw skills_text job_title job_link r :
  classify_job fw skills_text job_title job_link = Some r ->
  (- (1 # 2000) <= confidence r - calculate_confidence (scores r)
   <= 1 # 2000)%Q.
Proof.
  intro Hr.
  destruct (classify_job_result _ _ _ _ _ Hr)
    as (t & st & _ & Hsc & _ & Hc & _).
  rewrite Hc, Hsc. apply round3_close.
Qed.

Lemma returned_confidence_is_close_witness :
  exists r,
    classify_job get_embedded_framework "welding, sql" "Welder" EmptyString
    = Some r
    /\ (confidence r - calculate_confidence (scores r) <= 1 # 2000)%Q.
Proof.
  eexists. split; [vm_compute; reflexivity|].
  refine (proj2 (returned_confidence_is_close get_embedded_framework
                   "welding, sql" "Welder" EmptyString _ _)).
  vm_compute. reflexivity.
Defined.

End ConfidenceMoreFacts.

(* ================================================================== *)
(** ** More about the windowed run *)
(* ================================================================== *)

Module LoopFacts.
Import Text Framework Classifier Pipeline Spec SpecMore PipelineFacts.

Lemma process_batch_app fw ht (a b : list (list cell)) :
  process_batch fw ht (a ++ b)
  = match process_batch fw ht a with
    | Returned ra => extend ra (process_batch fw ht b)
    | Raised e => Raised e
    | OutOfFuel => OutOfFuel
    end.
Proof.
  induction a as [|row a IH]; cbn [app process_batch].
  - destruct (process_batch fw ht b); reflexivity.
  - destruct (process_row fw ht row); try reflexivity.
    rewrite IH. destruct (process_batch fw ht a); try reflexivity.
    destruct (process_batch fw ht b); reflexivity.
Qed.

Lemma process_batch_length fw ht (batch : list (list cell)) recs :
  process_batch fw ht batch = Returned recs -> length recs = length batch.
Proof.
  revert recs. induction batch as [|row r IH]; intros recs H;
    cbn [process_batch] in H.
  - now injection H as <-.
  - destruct (process_row fw ht row); try discriminate H.
    destruct (process_batch fw ht r); try discriminate H.
    injection H as <-. cbn [length]. f_equal. now apply IH.
Qed.

Lemma extend_extend acc recs o :
  extend (acc ++ recs) o = extend acc (extend recs o).
Proof. destruct o; cbn [extend]; try reflexivity. now rewrite app_assoc. Qed.

Lemma select_window_length t cols limit offset batch :
  select_window t cols limit offset = Some batch ->
  length batch = Nat.min limit (length (rows t) - offset).
Proof.
  unfold select_window. destruct (column_indices cols (columns t));
    [|discriminate]. cbn [bind]. intro H. injection H as <-.
  now rewrite length_map, length_firstn, length_skipn.
Qed.

(** The windows are classified as one pass over the rows would: the
    outcome of the loop is that of [process_batch] on the rows from the
    cursor up to [total_rows]. *)
Lemma window_loop_one_pass fw t cols idxs ht batch_size total_rows :
  column_indices cols (columns t) = Some idxs ->
  1 <= batch_size ->
  total_rows <= length (rows t) ->
  forall fuel processed acc w,
    processed <= total_rows ->
    total_rows - processed < fuel ->
    snd (window_loop fuel fw t cols ht batch_size total_rows processed
           acc w)
    = extend acc
        (process_batch fw ht
           (map (project idxs)
                (firstn (total_rows - processed)
                        (skipn processed (rows t))))).
Proof.
  intros Hcols Hb Ht.
  induction fuel as [|fuel IH]; intros processed acc w Hp Hf; [lia|].
  cbn [window_loop].
  destruct (processed <? total_rows) eqn:E.
  - apply Nat.ltb_lt in E.
    set (limit := Nat.min batch_size (total_rows - processed)).
    assert (Hl : 1 <= limit <= total_rows - processed)
      by (unfold limit; lia).
    rewrite (select_window_rows t cols idxs Hcols).
    set (batch := firstn limit (skipn processed (rows t))).
    assert (Hlen : length batch = limit).
    { unfold batch. rewrite length_firstn, length_skipn. lia. }
    replace (total_rows - processed)
      with (limit + (total_rows - (processed + limit))) by lia.
    rewrite firstn_add, map_app, skipn_skipn, process_batch_app.
    fold batch.
    replace (limit + processed) with (processed + limit) by lia.
    destruct (process_batch fw ht (map (project idxs) batch))
      as [recs1| |]; try reflexivity.
    rewrite length_map, Hlen, IH by lia.
    apply extend_extend.
  - apply Nat.ltb_ge in E. replace (total_rows - processed) with 0 by lia.
    cbn [firstn map process_batch extend snd]. now rewrite app_nil_r.
Qed.

Lemma ceil_div_zero size : ceil_div 0 size = 0.
Proof.
  unfold ceil_div. destruct size as [|s]; [reflexivity|].
  apply Nat.div_small. lia.
Qed.

Lemma ceil_div_step n size :
  1 <= size -> 1 <= n ->
  ceil_div n size = S (ceil_div (n - Nat.min size n) size).
Proof.
  intros Hs Hn. unfold ceil_div.
  destruct (Nat.le_gt_cases n size) as [L|G].
  - rewrite Nat.min_r by exact L.
    replace (n - n + size - 1) with (size - 1) by lia.
    rewrite (Nat.div_small (size - 1)) by lia.
    symmetry. apply (Nat.div_unique (n + size - 1) size 1 (n - 1)); lia.
  - rewrite Nat.min_l by lia.
    replace (n + size - 1) with ((n - size + size - 1) + 1 * size) by lia.
    rewrite Nat.div_add by lia. lia.
Qed.

(** When the loop comes to its end it has classified every row up to
    [total_rows], in the least number of windows. *)
Lemma window_loop_returned fw t cols ht batch_size total_rows :
  total_rows <= length (rows t) ->
  forall fuel processed acc w w' recs,
    processed <= total_rows ->
    window_loop fuel fw t cols ht batch_size total_rows processed acc w
    = (w', Returned recs) ->
    length recs = length acc + (total_rows - processed)
    /\ (1 <= batch_size ->
        w' = w + ceil_div (total_rows - processed) batch_size).
Proof.
  intro Ht.
  induction fuel as [|fuel IH]; intros processed acc w w' recs Hp H;
    cbn [window_loop] in H; [discriminate H|].
  destruct (processed <? total_rows) eqn:E.
  - apply Nat.ltb_lt in E.
    set (limit := Nat.min batch_size (total_rows - processed)) in H.
    destruct (select_window t cols limit processed) as [batch|] eqn:Hsel;
      [|discriminate H].
    apply select_window_length in Hsel.
    assert (Hlen : length batch = limit) by (unfold limit in *; lia).
    destruct (process_batch fw ht batch) as [recs1| |] eqn:Hpb;
      try discriminate H.
    apply process_batch_length in Hpb.
    apply IH in H; [|unfold limit in *; lia].
    destruct H as [H1 H2]. rewrite length_app in H1. split.
    + unfold limit in *. lia.
    + intro Hb. rewrite (H2 Hb), Hlen.
      rewrite (ceil_div_step (total_rows - processed) batch_size) by lia.
      unfold limit.
      replace (total_rows - (processed + Nat.min batch_size
                                           (total_rows - processed)))
        with (total_rows - processed
              - Nat.min batch_size (total_rows - processed)) by lia.
      lia.
  - apply Nat.ltb_ge in E. injection H as <- <-.
    replace (total_rows - processed) with 0 by lia.
    rewrite ceil_div_zero. split; [lia|intros _; lia].
Qed.

Lemma rows_to_process_bounded n sample_size :
  rows_to_process n sample_size <= n.
Proof. destruct sample_size as [[|k]|]; cbn [rows_to_process]; lia. Qed.

Lemma run_loop fuel fw t dest_writable output_path skills_col link_col
    title_col batch_size sample_size :
  process_csv_file fuel fw (Some t) dest_writable output_path skills_col
    link_col title_col batch_size sample_size
  = let total_rows := rows_to_process (length (rows t)) sample_size in
    match window_loop fuel fw t (select_cols skills_col link_col title_col)
            (has_title title_col) batch_size total_rows 0 [] 0 with
    | (w, Returned all_results) =>
        let df := make_dataframe all_results in
        if dest_writable then
          {| windows := w;
             written := Some (if ends_with ".parquet" output_path
                              then Parquet else Csv, df);
             result :=
               if has_column df "riasec_code"
                  && has_column df "primary_riasec_type"
                  && has_column df "riasec_confidence"
               then Returned df else Raised KeyError |}
        else {| windows := w; written := None; result := Raised WriteError |}
    | (w, Raised e) => {| windows := w; written := None; result := Raised e |}
    | (w, OutOfFuel) =>
        {| windows := w; written := None; result := OutOfFuel |}
    end.
Proof. reflexivity. Qed.

(** Whatever a run writes is complete: a written table has one row for
    each row the run set out to classify, for every source, window size,
    fuel and selection of columns.  A run that fails on the way writes
    nothing rather than the rows classified so far. *)
Theorem written_table_is_complete fuel fw t dest_writable output_path
    skills_col link_col title_col batch_size sample_size fmt df :
  written (process_csv_file fuel fw (Some t) dest_writable output_path
             skills_col link_col title_col batch_size sample_size)
  = Some (fmt, df) ->
  length (df_rows df) = rows_to_process (length (rows t)) sample_size.
Proof.
  rewrite run_loop. cbv zeta.
  destruct (window_loop _ _ _ _ _ _ _ _ _ _) as [w [recs|e|]] eqn:Hloop;
    cbn [written]; try discriminate.
  destruct dest_writable; cbn [written]; [|discriminate].
  intro H. injection H as _ <-. cbn [df_rows make_dataframe].
  apply window_loop_returned in Hloop;
    [|apply rows_to_process_bounded|lia].
  destruct Hloop as [H _]. cbn [length] in H. lia.
Qed.

Lemma written_table_is_complete_witness :
  exists fmt df,
    written (process_csv_file 5 get_embedded_framework
               (Some {| columns := ["job_link"; "job_skills"];
                        rows := [ [Null; Txt "welding"];
                                  [Null; Txt "nursing"];
                                  [Null; Txt "accounting"] ] |})
               true "out.csv" "job_skills" "job_link" None 2 (Some 2))
    = Some (fmt, df)
    /\ length (df_rows df) = 2.
Proof.
  eexists. eexists. split; [vm_compute; reflexivity|].
  refine (written_table_is_complete 5 get_embedded_framework
            {| columns := ["job_link"; "job_skills"];
               rows := [ [Null; Txt "welding"];
                         [Null; Txt "nursing"];
                         [Null; Txt "accounting"] ] |}
            true "out.csv" "job_skills" "job_link" None 2 (Some 2)
            Csv _ _).
  vm_compute. reflexivity.
Defined.

(** A run that writes its table has classified the rows in the least
    number of windows that holds them: with a window of at least one row,
    ceil(N / window size) windows for the N rows it set out to classify. *)
Theorem window_count fuel fw t dest_writable output_path skills_col
    link_col title_col batch_size sample_size fmt df :
  1 <= batch_size ->
  written (process_csv_file fuel fw (Some t) dest_writable output_path
             skills_col link_col title_col batch_size sample_size)
  = Some (fmt, df) ->
  windows (process_csv_file fuel fw (Some t) dest_writable output_path
             skills_col link_col title_col batch_size sample_size)
  = ceil_div (rows_to_process (length (rows t)) sample_size) batch_size.
Proof.
  intro Hb. rewrite run_loop. cbv zeta.
  destruct (window_loop _ _ _ _ _ _ _ _ _ _) as [w [recs|e|]] eqn:Hloop;
    cbn [written]; try discriminate.
  destruct dest_writable; cbn [written windows]; [|discriminate].
  intros _.
  apply window_loop_returned in Hloop;
    [|apply rows_to_process_bounded|lia].
  destruct Hloop as [_ H]. rewrite (H Hb), Nat.sub_0_r. reflexivity.
Qed.

Lemma window_count_witness :
  windows (process_csv_file 5 get_embedded_framework
             (Some {| columns := ["job_link"; "job_skills"];
                      rows := [ [Null; Txt "welding"];
                                [Null; Txt "nursing"];
                                [Null; Txt "accounting"] ] |})
             true "out.csv" "job_skills" "job_link" None 2 None)
  = 2.
Proof.
  destruct (written (process_csv_file 5 get_embedded_framework
              (Some {| columns := ["job_link"; "job_skills"];
                       rows := [ [Null; Txt "welding"];
                                 [Null; Txt "nursing"];
                                 [Null; Txt "accounting"] ] |})
              true "out.csv" "job_skills" "job_link" None 2 None))
    as [[fmt df]|] eqn:E.
  - refine (window_count 5 get_embedded_framework
              {| columns := ["job_link"; "job_skills"];
                 rows := [ [Null; Txt "welding"];
                           [Null; Txt "nursing"];
                           [Null; Txt "accounting"] ] |}
              true "out.csv" "job_skills" "job_link" None 2 None fmt df
              _ E).
    lia.
  - vm_compute in E. discriminate E.
Defined.

Lemma run_follows_outcome fuel1 fuel2 fw t dest_writable output_path
    skills_col link_col title_col b1 b2 sample_size :
  snd (window_loop fuel1 fw t (select_cols skills_col link_col title_col)
         (has_title title_col) b1
         (rows_to_process (length (rows t)) sample_size) 0 [] 0)
  = snd (window_loop fuel2 fw t (select_cols skills_col link_col title_col)
           (has_title title_col) b2
           (rows_to_process (length (rows t)) sample_size) 0 [] 0) ->
  let r1 := process_csv_file fuel1 fw (Some t) dest_writable output_path
              skills_col link_col title_col b1 sample_size in
  let r2 := process_csv_file fuel2 fw (Some t) dest_writable output_path
              skills_col link_col title_col b2 sample_size in
  written r1 = written r2 /\ result r1 = result r2.
Proof.
  intro H. cbv zeta. rewrite !run_loop. cbv zeta.
  destruct (window_loop fuel1 _ _ _ _ _ _ _ _ _) as [w1 o1].
  destruct (window_loop fuel2 _ _ _ _ _ _ _ _ _) as [w2 o2].
  cbn [snd] in H. subst o2.
  destruct o1; [destruct dest_writable|..]; split; reflexivity.
Qed.

Lemma window_loop_no_column fw t cols ht batch_size total_rows fuel acc w :
  column_indices cols (columns t) = None ->
  window_loop (S fuel) fw t cols ht batch_size total_rows 0 acc w
  = (w, if 0 <? total_rows then Raised ColumnError else Returned acc).
Proof.
  intro H. cbn [window_loop]. destruct (0 <? total_rows); [|reflexivity].
  unfold select_window. rewrite H. reflexivity.
Qed.

(** The window size has no effect on what a run writes or returns: with
    any two window sizes of at least one row (and fuel for the rows), the
    written table and the result are the same, whether the run succeeds
    or fails. *)
Theorem window_size_is_immaterial fuel1 fuel2 b1 b2 fw t dest_writable
    output_path skills_col link_col title_col sample_size :
  1 <= b1 -> 1 <= b2 ->
  length (rows t) < fuel1 -> length (rows t) < fuel2 ->
  let r1 := process_csv_file fuel1 fw (Some t) dest_writable output_path
              skills_col link_col title_col b1 sample_size in
  let r2 := process_csv_file fuel2 fw (Some t) dest_writable output_path
              skills_col link_col title_col b2 sample_size in
  written r1 = written r2 /\ result r1 = result r2.
Proof.
  intros H1 H2 F1 F2. apply run_follows_outcome.
  pose proof (rows_to_process_bounded (length (rows t)) sample_size) as Hn.
  destruct (column_indices (select_cols skills_col link_col title_col)
              (columns t)) as [idxs|] eqn:Hcols.
  - rewrite (window_loop_one_pass fw t _ idxs _ b1 _ Hcols H1 Hn) by lia.
    rewrite (window_loop_one_pass fw t _ idxs _ b2 _ Hcols H2 Hn) by lia.
    reflexivity.
  - destruct fuel1 as [|f1]; [lia|]. destruct fuel2 as [|f2]; [lia|].
    now rewrite !window_loop_no_column.
Qed.

Lemma window_size_is_immaterial_witness :
  written (process_csv_file 5 get_embedded_framework
             (Some {| columns := ["job_link"; "job_skills"];
                      rows := [ [Null; Txt "welding"];
                                [Null; Txt "nursing"];
                                [Null; Txt "accounting"] ] |})
             true "out.csv" "job_skills" "job_link" None 1 None)
  = written (process_csv_file 4 get_embedded_framework
               (Some {| columns := ["job_link"; "job_skills"];
                        rows := [ [Null; Txt "welding"];
                                  [Null; Txt "nursing"];
                                  [Null; Txt "accounting"] ] |})
               true "out.csv" "job_skills" "job_link" None 50 None).
Proof.
  apply (window_size_is_immaterial 5 4 1 50 get_embedded_framework
           {| columns := ["job_link"; "job_skills"];
              rows := [ [Null; Txt "welding"];
                        [Null; Txt "nursing"];
                        [Null; Txt "accounting"] ] |}
           true "out.csv" "job_skills" "job_link" None None);
    cbn [rows length]; lia.
Defined.

(** A sample of k >= 1 rows: the run classifies the first min(N, k) rows
    of the source, in order, and writes exactly those. *)
Theorem sample_takes_first_rows fuel fw t output_path skills_col link_col
    title_col batch_size k idxs :
  letters_in_alphabet fw = true ->
  column_indices (select_cols skills_col link_col title_col) (columns t)
  = Some idxs ->
  title_col <> Some EmptyString ->
  1 <= batch_size ->
  1 <= k ->
  length (rows t) < fuel ->
  exists fmt df,
    written (process_csv_file fuel fw (Some t) true output_path skills_col
               link_col title_col batch_size (Some k)) = Some (fmt, df)
    /\ length (df_rows df) = Nat.min (length (rows t)) k
    /\ Forall2 (classified_as fw (has_title title_col))
         (map (project idxs) (firstn k (rows t))) (df_rows df).
Proof.
  intros Hfw Hcols Htitle Hb Hk Hfuel.
  assert (Hcount : length idxs = if has_title title_col then 3 else 2).
  { rewrite (column_indices_length _ _ _ Hcols).
    now apply select_cols_length. }
  assert (Hn : rows_to_process (length (rows t)) (Some k)
               = Nat.min (length (rows t)) k)
    by (destruct k; [lia|reflexivity]).
  destruct (window_loop_returns fw (has_title title_col) Hfw t
              (select_cols skills_col link_col title_col) idxs batch_size
              (Nat.min (length (rows t)) k) Hcols Hcount Hb
              (Nat.le_min_l _ _) fuel 0 [] 0 (Nat.le_0_l _))
    as (w & recs & Hloop & Hall & _); [lia|].
  rewrite Nat.sub_0_r in Hall. cbn [skipn app] in Hall, Hloop.
  assert (Hfirst : firstn (Nat.min (length (rows t)) k) (rows t)
                   = firstn k (rows t)).
  { destruct (Nat.le_gt_cases k (length (rows t))) as [L|G].
    - now rewrite Nat.min_r by exact L.
    - rewrite Nat.min_l by lia.
      rewrite firstn_all. symmetry. apply firstn_all2. lia. }
  rewrite Hfirst in Hall.
  rewrite run_loop. cbv zeta. rewrite Hn, Hloop.
  eexists. exists (make_dataframe recs). cbn [written df_rows make_dataframe].
  split; [reflexivity|]. split; [|exact Hall].
  apply Forall2_length in Hall. rewrite length_map, length_firstn in Hall.
  lia.
Qed.

Lemma sample_takes_first_rows_witness :
  exists fmt df,
    written (process_csv_file 5 get_embedded_framework
               (Some {| columns := ["job_link"; "job_skills"];
                        rows := [ [Null; Txt "welding"];
                                  [Null; Txt "nursing"];
                                  [Null; Txt "accounting"] ] |})
               true "out.csv" "job_skills" "job_link" None 50 (Some 2))
    = Some (fmt, df)
    /\ length (df_rows df) = 2.
Proof.
  destruct (sample_takes_first_rows 5 get_embedded_framework
              {| columns := ["job_link"; "job_skills"];
                 rows := [ [Null; Txt "welding"];
                           [Null; Txt "nursing"];
                           [Null; Txt "accounting"] ] |}
              "out.csv" "job_skills" "job_link" None 50 2 [0; 1]
              eq_refl eq_refl)
    as (fmt & df & Hw & Hlen & _).
  - discriminate.
  - lia.
  - lia.
  - cbn [rows length]. lia.
  - exists fmt, df. split; [exact Hw|exact Hlen].
Defined.

Lemma window_loop_zero_window fw t cols idxs ht total_rows :
  column_indices cols (columns t) = Some idxs ->
  forall fuel processed acc w,
    processed < total_rows ->
    window_loop fuel fw t cols ht 0 total_rows processed acc w
    = (w + fuel, OutOfFuel).
Proof.
  intro Hcols.
  induction fuel as [|fuel IH]; intros processed acc w Hp;
    cbn [window_loop].
  - now rewrite Nat.add_0_r.
  - apply Nat.ltb_lt in Hp as E. rewrite E.
    rewrite (select_window_rows t cols idxs Hcols).
    cbn [Nat.min firstn map process_batch length].
    rewrite Nat.add_0_r, IH by exact Hp. f_equal. lia.
Qed.

(** A window size of 0 makes the run spin: over a source with at least one
    row and the selected columns present, every window comes back empty,
    the cursor stays at 0 and the loop does not end, whatever the fuel;
    nothing is written. *)
Theorem zero_window_never_ends fuel fw t dest_writable output_path
    skills_col link_col title_col sample_size idxs :
  column_indices (select_cols skills_col link_col title_col) (columns t)
  = Some idxs ->
  rows t <> [] ->
  let r := process_csv_file fuel fw (Some t) dest_writable output_path
             skills_col link_col title_col 0 sample_size in
  result r = OutOfFuel /\ written r = None /\ windows r = fuel.
Proof.
  intros Hcols Hne. cbv zeta. rewrite run_loop. cbv zeta.
  rewrite (window_loop_zero_window fw t _ idxs _ _ Hcols).
  - repeat split.
  - destruct (rows t) as [|row r]; [now elim Hne|].
    destruct sample_size as [[|k]|]; cbn [rows_to_process length]; lia.
Qed.

Lemma zero_window_never_ends_witness :
  result (process_csv_file 1000 get_embedded_framework
            (Some {| columns := ["job_link"; "job_skills"];
                     rows := [ [Null; Txt "welding"] ] |})
            true "out.csv" "job_skills" "job_link" None 0 None)
  = OutOfFuel.
Proof.
  apply (zero_window_never_ends 1000 get_embedded_framework
           {| columns := ["job_link"; "job_skills"];
              rows := [ [Null; Txt "welding"] ] |}
           true "out.csv" "job_skills" "job_link" None None [0; 1]).
  - reflexivity.
  - discriminate.
Defined.

(** A selected column that the source does not have: over a source with
    at least one row the run fails at the first query, before any window
    is classified, and writes nothing. *)
Theorem missing_column_fails_first fuel fw t dest_writable output_path
    skills_col link_col title_col batch_size sample_size :
  column_indices (select_cols skills_col link_col title_col) (columns t)
  = None ->
  rows t <> [] ->
  1 <= fuel ->
  let r := process_csv_file fuel fw (Some t) dest_writable output_path
             skills_col link_col title_col batch_size sample_size in
  result r = Raised ColumnError /\ written r = None /\ windows r = 0.
Proof.
  intros Hcols Hne Hf. cbv zeta. rewrite run_loop. cbv zeta.
  destruct fuel as [|fuel]; [lia|].
  rewrite (window_loop_no_column _ _ _ _ _ _ _ _ _ Hcols).
  assert (E : (0 <? rows_to_process (length (rows t)) sample_size) = true).
  { apply Nat.ltb_lt. destruct (rows t) as [|row r]; [now elim Hne|].
    destruct sample_size as [[|k]|]; cbn [rows_to_process length]; lia. }
  rewrite E. repeat split.
Qed.

Lemma missing_column_fails_first_witness :
  result (process_csv_file 5 get_embedded_framework
            (Some {| columns := ["job_link"; "skills"];
                     rows := [ [Null; Txt "welding"] ] |})
            true "out.csv" "job_skills" "job_link" None 50 None)
  = Raised ColumnError.
Proof.
  apply (missing_column_fails_first 5 get_embedded_framework
           {| columns := ["job_link"; "skills"];
              rows := [ [Null; Txt "welding"] ] |}
           true "out.csv" "job_skills" "job_link" None 50 None).
  - reflexivity.
  - discriminate.
  - lia.
Defined.

(** An empty title column name: no title is selected, yet the rows are
    unpacked as if one were, so over a source with at least one row the
    run fails on the first row and writes nothing. *)
Theorem empty_title_column_fails fuel fw t dest_writable output_path
    skills_col link_col batch_size sample_size idxs :
  column_indices [link_col; skills_col] (columns t) = Some idxs ->
  rows t <> [] ->
  1 <= batch_size ->
  1 <= fuel ->
  let r := process_csv_file fuel fw (Some t) dest_writable output_path
             skills_col link_col (Some EmptyString) batch_size
             sample_size in
  result r = Raised UnpackError /\ written r = None /\ windows r = 0.
Proof.
  intros Hcols Hne Hb Hf. cbv zeta. rewrite run_loop. cbv zeta.
  change (select_cols skills_col link_col (Some EmptyString))
    with [link_col; skills_col].
  destruct fuel as [|fuel]; [lia|]. cbn [window_loop has_title].
  assert (Hn : 1 <= rows_to_process (length (rows t)) sample_size).
  { destruct (rows t) as [|row r]; [now elim Hne|].
    destruct sample_size as [[|k]|]; cbn [rows_to_process length]; lia. }
  assert (E : (0 <? rows_to_process (length (rows t)) sample_size) = true)
    by (apply Nat.ltb_lt; lia).
  rewrite E, (select_window_rows t _ idxs Hcols).
  pose proof (column_indices_length _ _ _ Hcols) as Hlen.
  destruct idxs as [|i [|j [|? ?]]]; try discriminate Hlen.
  destruct (rows t) as [|row r]; [now elim Hne|].
  destruct (Nat.min batch_size
              (rows_to_process (length (row :: r)) sample_size - 0))
    as [|m] eqn:Em; [lia|].
  cbn [skipn firstn map project process_batch process_row].
  repeat split.
Qed.

Lemma empty_title_column_fails_witness :
  result (process_csv_file 5 get_embedded_framework
            (Some {| columns := ["job_link"; "job_skills"];
                     rows := [ [Null; Txt "welding"] ] |})
            true "out.csv" "job_skills" "job_link" (Some EmptyString)
            50 None)
  = Raised UnpackError.
Proof.
  apply (empty_title_column_fails 5 get_embedded_framework
           {| columns := ["job_link"; "job_skills"];
              rows := [ [Null; Txt "welding"] ] |}
           true "out.csv" "job_skills" "job_link" 50 None [0; 1]).
  - reflexivity.
  - discriminate.
  - lia.
  - lia.
Defined.

Lemma extract_title_of_empty : extract_title_from_url EmptyString = EmptyString.
Proof. reflexivity. Qed.

Lemma classify_job_title_fallback fw skills_text job_link :
  classify_job fw skills_text EmptyString job_link
  = classify_job fw skills_text (extract_title_from_url job_link) job_link.
Proof.
  unfold classify_job.
  destruct job_link as [|c r]; [reflexivity|].
  destruct (extract_title_from_url (String c r)) eqn:E; reflexivity.
Qed.

(** A row whose title cell is empty or NULL, in a run with a title column,
    is classified with the title taken from its link, exactly as in a run
    without title column; only the extracted_title it records is empty. *)
Theorem empty_title_falls_back_to_link fw job_link job_skills job_title :
  text_of job_title = EmptyString ->
  process_row fw true [job_link; job_skills; job_title]
  = match process_row fw false [job_link; job_skills] with
    | Returned rec => Returned (blank_title rec)
    | Raised e => Raised e
    | OutOfFuel => OutOfFuel
    end.
Proof.
  intro H. unfold process_row. rewrite H, classify_job_title_fallback.
  destruct (classify_job fw (text_of job_skills)
              (extract_title_from_url (text_of job_link))
              (text_of job_link)); reflexivity.
Qed.

Lemma empty_title_falls_back_to_link_witness :
  exists rec,
    process_row get_embedded_framework true
      [Txt "https://jobs.example/view/welder-at-yard-77"; Txt "teamwork";
       Null] = Returned rec
    /\ dict_get "riasec_code" rec = Some (VStr "SRI")
    /\ dict_get "extracted_title" rec = Some (VStr EmptyString).
Proof.
  eexists. split.
  - rewrite (empty_title_falls_back_to_link get_embedded_framework
               (Txt "https://jobs.example/view/welder-at-yard-77")
               (Txt "teamwork") Null eq_refl).
    vm_compute. reflexivity.
  - vm_compute. split; reflexivity.
Defined.

End LoopFacts.

(* ================================================================== *)
(** ** The in-memory batch path *)
(* ================================================================== *)

Module FrameFacts.
Import Text Framework Classifier Frames Spec SpecMore ClassifyFacts.

Lemma label_index_bound c ls i :
  label_index c ls = Some i -> i < length ls.
Proof.
  revert i. induction ls as [|h r IH]; intros i H; cbn [label_index] in H;
    [discriminate|].
  destruct (String.eqb c h).
  - injection H as <-. cbn [length]. lia.
  - destruct (label_index c r) as [k|]; [|discriminate].
    injection H as <-. specialize (IH k eq_refl). cbn [length]. lia.
Qed.

Lemma label_index_app c ls l :
  label_index c (ls ++ [l])
  = match label_index c ls with
    | Some i => Some i
    | None => if String.eqb c l then Some (length ls) else None
    end.
Proof.
  induction ls as [|h r IH]; cbn [app label_index length].
  - destruct (String.eqb c l); reflexivity.
  - destruct (String.eqb c h); [reflexivity|]. rewrite IH.
    destruct (label_index c r); [reflexivity|].
    destruct (String.eqb c l); reflexivity.
Qed.

Lemma label_index_present c ls :
  existsb (String.eqb c) ls
  = match label_index c ls with Some _ => true | None => false end.
Proof.
  induction ls as [|h r IH]; cbn [existsb label_index]; [reflexivity|].
  destruct (String.eqb c h); [reflexivity|]. cbn [orb]. rewrite IH.
  destruct (label_index c r); reflexivity.
Qed.

Lemma label_index_inj c l ls i :
  label_index c ls = Some i -> label_index l ls = Some i -> c = l.
Proof.
  revert i. induction ls as [|h r IH]; intros i Hc Hl;
    cbn [label_index] in Hc, Hl; [discriminate|].
  destruct (String.eqb c h) eqn:Ec, (String.eqb l h) eqn:El.
  - apply String.eqb_eq in Ec, El. congruence.
  - destruct (label_index l r); [|discriminate]. injection Hc as <-.
    discriminate Hl.
  - destruct (label_index c r); [|discriminate]. injection Hl as <-.
    discriminate Hc.
  - destruct (label_index c r) as [a|]; [|discriminate].
    destruct (label_index l r) as [b|]; [|discriminate].
    injection Hc as <-. injection Hl as E. apply (IH a); congruence.
Qed.

Lemma set_nth_length i v row : length (set_nth i v row) = length row.
Proof.
  revert i. induction row as [|x r IH]; intros [|i]; cbn [set_nth length];
    try reflexivity. now rewrite IH.
Qed.

Lemma nth_set_nth i v row :
  i < length row -> nth i (set_nth i v row) NaN = v.
Proof.
  revert i. induction row as [|x r IH]; intros [|i] H; cbn [length] in H;
    try lia; cbn [set_nth nth]; [reflexivity|]. apply IH. lia.
Qed.

Lemma nth_set_nth_other i j v row :
  i <> j -> nth j (set_nth i v row) NaN = nth j row NaN.
Proof.
  revert i j. induction row as [|x r IH]; intros [|i] [|j] H;
    cbn [set_nth nth]; try reflexivity; try lia.
  apply IH. lia.
Qed.

Section Rows.
Variable upd : list pcell -> pcell -> list pcell.
Variable P : list pcell -> Prop.

Lemma updated_rows_length (rows : list (list pcell)) (vs : list pcell) :
  length vs = length rows ->
  length (map (fun '(row, v) => upd row v) (combine rows vs)) = length rows.
Proof. intro H. rewrite length_map, length_combine. lia. Qed.

Lemma updated_rows_all (Q : list pcell -> Prop) rows vs :
  Forall P rows ->
  (forall row v, P row -> Q (upd row v)) ->
  Forall Q (map (fun '(row, v) => upd row v) (combine rows vs)).
Proof.
  intros HP H. revert vs.
  induction HP as [|row r Hrow _ IH]; intros [|v vs]; cbn [combine map];
    constructor; [now apply H|apply IH].
Qed.

Lemma updated_rows_set (sel : list pcell -> pcell) rows vs :
  Forall P rows -> length vs = length rows ->
  (forall row v, P row -> sel (upd row v) = v) ->
  map sel (map (fun '(row, v) => upd row v) (combine rows vs)) = vs.
Proof.
  intros HP Hlen H. revert vs Hlen.
  induction HP as [|row r Hrow _ IH]; intros [|v vs] Hlen;
    cbn [length] in Hlen; try lia; cbn [combine map]; [reflexivity|].
  rewrite (H row v Hrow), IH by lia. reflexivity.
Qed.

Lemma updated_rows_kept (sel : list pcell -> pcell) rows vs :
  Forall P rows -> length vs = length rows ->
  (forall row v, P row -> sel (upd row v) = sel row) ->
  map sel (map (fun '(row, v) => upd row v) (combine rows vs))
  = map sel rows.
Proof.
  intros HP Hlen H. revert vs Hlen.
  induction HP as [|row r Hrow _ IH]; intros [|v vs] Hlen;
    cbn [length] in Hlen; try lia; cbn [combine map]; [reflexivity|].
  rewrite (H row v Hrow), IH by lia. reflexivity.
Qed.
End Rows.

Section SetColumn.
Variables (l : string) (vs : list pcell) (df : frame).
Hypothesis rect : rectangular df.
Hypothesis len : length vs = length (body df).

Lemma set_column_labels :
  labels (set_column l vs df)
  = if existsb (String.eqb l) (labels df) then labels df
    else (labels df ++ [l])%list.
Proof.
  unfold set_column. rewrite label_index_present.
  destruct (label_index l (labels df)); reflexivity.
Qed.

Lemma set_column_body_length :
  length (body (set_column l vs df)) = length (body df).
Proof.
  unfold set_column.
  destruct (label_index l (labels df)); cbn [body];
    now apply updated_rows_length.
Qed.

Lemma set_column_rectangular : rectangular (set_column l vs df).
Proof.
  unfold rectangular, set_column.
  destruct (label_index l (labels df)) as [i|]; cbn [body labels].
  - apply (updated_rows_all _ _ _ _ _ rect).
    intros row v H. now rewrite set_nth_length.
  - apply (updated_rows_all _ _ _ _ _ rect).
    intros row v H. rewrite !length_app, H. reflexivity.
Qed.

Lemma set_column_same : column l (set_column l vs df) = Some vs.
Proof.
  unfold column, set_column.
  destruct (label_index l (labels df)) as [i|] eqn:E; cbn [body labels].
  - rewrite E. f_equal.
    apply (updated_rows_set _ _ _ _ _ rect len).
    intros row v H. apply nth_set_nth. rewrite H.
    now apply label_index_bound in E.
  - rewrite label_index_app, E, String.eqb_refl. f_equal.
    apply (updated_rows_set _ _ _ _ _ rect len).
    intros row v H. rewrite <- H, nth_middle. reflexivity.
Qed.

Lemma set_column_other c :
  c <> l -> column c (set_column l vs df) = column c df.
Proof.
  intro Hc. unfold column, set_column.
  destruct (label_index l (labels df)) as [i|] eqn:E; cbn [body labels].
  - destruct (label_index c (labels df)) as [j|] eqn:Ej; [|reflexivity].
    f_equal. apply (updated_rows_kept _ _ _ _ _ rect len).
    intros row v _. apply nth_set_nth_other. intros ->.
    apply Hc. eapply label_index_inj; eassumption.
  - rewrite label_index_app.
    destruct (label_index c (labels df)) as [j|] eqn:Ej.
    + f_equal. apply (updated_rows_kept _ _ _ _ _ rect len).
      intros row v H. apply app_nth1. rewrite H.
      now apply label_index_bound in Ej.
    + apply String.eqb_neq in Hc. now rewrite Hc.
Qed.
End SetColumn.

Lemma set_column_nodup l vs df :
  NoDup (labels df) -> NoDup (labels (set_column l vs df)).
Proof.
  intro H. rewrite set_column_labels.
  destruct (existsb (String.eqb l) (labels df)) eqn:E; [exact H|].
  apply NoDup_app; [exact H|repeat constructor; intros []|].
  intros a Ha [Hl|[]]. subst a.
  assert (T : existsb (String.eqb l) (labels df) = true).
  { apply existsb_exists. exists l. split; [exact Ha|apply String.eqb_refl]. }
  congruence.
Qed.

Section Classified.
Variable repr_float : Q -> string.
Variables (fw : framework) (ls : list string).
Variables (skills_col title_col link_col : option string).

Lemma classify_rows_length rows rs :
  classify_rows repr_float fw ls skills_col title_col link_col rows
  = Some rs ->
  length rs = length rows.
Proof.
  revert rs. induction rows as [|row r IH]; intros rs H;
    cbn [classify_rows] in H.
  - now injection H as <-.
  - destruct (classify_job fw _ _ _); [|discriminate H]. cbn [bind] in H.
    destruct (classify_rows repr_float fw ls skills_col title_col link_col r)
      as [rs'|]; [|discriminate H].
    cbn [bind] in H. injection H as <-. cbn [length]. f_equal. now apply IH.
Qed.

Lemma classify_rows_returns rows :
  letters_in_alphabet fw = true ->
  exists rs,
    classify_rows repr_float fw ls skills_col title_col link_col rows
    = Some rs.
Proof.
  intro Hfw. induction rows as [|row r [rs IH]]; cbn [classify_rows].
  - now exists [].
  - destruct (classify_job_returns fw (text_at repr_float ls row skills_col)
                (text_at repr_float ls row title_col)
                (text_at repr_float ls row link_col) Hfw) as [c ->].
    rewrite IH. now exists (c :: rs).
Qed.
(** The loop classifies each row from the texts under the three named
    columns. *)
Lemma classify_rows_each rows rs :
  classify_rows repr_float fw ls skills_col title_col link_col rows
  = Some rs ->
  Forall2 (fun row r =>
             classify_job fw (text_at repr_float ls row skills_col)
               (text_at repr_float ls row title_col)
               (text_at repr_float ls row link_col) = Some r)
          rows rs.
Proof.
  revert rs. induction rows as [|row r IH]; intros rs H;
    cbn [classify_rows] in H.
  - injection H as <-. constructor.
  - destruct (classify_job fw _ _ _) as [c|] eqn:Hc; [|discriminate H].
    cbn [bind] in H.
    destruct (classify_rows repr_float fw ls skills_col title_col link_col r)
      as [rs'|]; [|discriminate H].
    cbn [bind] in H. injection H as <-. constructor; [exact Hc|].
    now apply IH.
Qed.
End Classified.

(** What [process_dataframe] does to a frame, given the classifications
    of its rows. *)
Lemma process_dataframe_result repr_float fw df skills_col title_col
    link_col rs :
  classify_rows repr_float fw (labels df) skills_col title_col link_col
    (body df) = Some rs ->
  rectangular df ->
  exists df',
    process_dataframe repr_float fw df skills_col title_col link_col
    = Some df'
    /\ rectangular df'
    /\ length (body df') = length (body df)
    /\ labels df'
       = (labels df
          ++ filter (fun c => negb (existsb (String.eqb c) (labels df)))
               added_columns)%list
    /\ (NoDup (labels df) -> NoDup (labels df'))
    /\ column "riasec_code" df' = Some (map (fun r => Str (riasec_code r)) rs)
    /\ column "riasec_confidence" df'
       = Some (map (fun r => Num (confidence r)) rs)
    /\ column "primary_riasec_type" df'
       = Some (map (fun r => Str (primary_type r)) rs)
    /\ (forall c, ~ In c added_columns -> column c df' = column c df).
Proof.
  intros Hrs Hrect. unfold process_dataframe. rewrite Hrs. cbn [bind].
  apply classify_rows_length in Hrs.
  set (codes := map (fun r => Str (riasec_code r)) rs).
  set (confs := map (fun r => Num (confidence r)) rs).
  set (prims := map (fun r => Str (primary_type r)) rs).
  assert (L0 : length codes = length (body df))
    by (unfold codes; now rewrite length_map).
  set (df1 := set_column "riasec_code" codes df).
  pose proof (set_column_rectangular "riasec_code" codes df Hrect) as R1.
  pose proof (set_column_body_length "riasec_code" codes df L0) as B1.
  fold df1 in R1, B1.
  assert (L1 : length confs = length (body df1))
    by (unfold confs; rewrite length_map; congruence).
  set (df2 := set_column "riasec_confidence" confs df1).
  pose proof (set_column_rectangular "riasec_confidence" confs df1 R1) as R2.
  pose proof (set_column_body_length "riasec_confidence" confs df1 L1) as B2.
  fold df2 in R2, B2.
  assert (L2 : length prims = length (body df2))
    by (unfold prims; rewrite length_map; congruence).
  set (df3 := set_column "primary_riasec_type" prims df2).
  exists df3. split; [reflexivity|].
  split; [apply set_column_rectangular, R2|].
  split.
  { unfold df3. rewrite set_column_body_length by exact L2. congruence. }
  split.
  { unfold df3, df2, df1. rewrite !set_column_labels.
    unfold added_columns. cbn [filter].
    destruct (existsb (String.eqb "riasec_code") (labels df)) eqn:E1;
      destruct (existsb (String.eqb "riasec_confidence") (labels df)) eqn:E2;
      destruct (existsb (String.eqb "primary_riasec_type") (labels df))
        eqn:E3;
      cbn [negb];
      repeat (rewrite ?existsb_app, ?E1, ?E2, ?E3; cbn [existsb orb];
              rewrite ?String.eqb_refl;
              change (String.eqb "riasec_confidence" "riasec_code")
                with false;
              change (String.eqb "primary_riasec_type" "riasec_code")
                with false;
              change (String.eqb "primary_riasec_type" "riasec_confidence")
                with false;
              cbn [orb]);
      rewrite <- ?app_assoc, ?app_nil_r; reflexivity. }
  split.
  { intro Hnd. unfold df3, df2, df1. now repeat apply set_column_nodup. }
  split.
  { unfold df3. rewrite (set_column_other _ _ _ R2 L2) by discriminate.
    unfold df2. rewrite (set_column_other _ _ _ R1 L1) by discriminate.
    apply set_column_same; assumption. }
  split.
  { unfold df3. rewrite (set_column_other _ _ _ R2 L2) by discriminate.
    apply set_column_same; assumption. }
  split.
  { apply set_column_same; assumption. }
  intros c Hc. cbn [added_columns In] in Hc.
  unfold df3. rewrite (set_column_other _ _ _ R2 L2) by (intros ->; tauto).
  unfold df2. rewrite (set_column_other _ _ _ R1 L1) by (intros ->; tauto).
  apply set_column_other; [assumption|assumption|intros ->; tauto].
Qed.

(** [process_dataframe] classifies every row and returns: for a frame with
    distinct labels and one cell per label in every row it yields a frame
    of as many rows, and there is one classification per row, the result
    of [classify_job] on the skills, title and link texts of that row (the
    text of the cell under the named column, empty when no column is named
    or the frame lacks it), such that the columns riasec_code,
    riasec_confidence and primary_riasec_type hold, row by row, the code,
    the confidence and the primary type of these classifications. *)
Theorem process_dataframe_adds_classification repr_float fw df skills_col
    title_col link_col :
  letters_in_alphabet fw = true ->
  rectangular df ->
  NoDup (labels df) ->
  exists rs df',
    process_dataframe repr_float fw df skills_col title_col link_col
    = Some df'
    /\ Forall2 (fun row r =>
                  classify_job fw
                    (text_at repr_float (labels df) row skills_col)
                    (text_at repr_float (labels df) row title_col)
                    (text_at repr_float (labels df) row link_col) = Some r)
               (body df) rs
    /\ length (body df') = length (body df)
    /\ column "riasec_code" df' = Some (map (fun r => Str (riasec_code r)) rs)
    /\ column "riasec_confidence" df'
       = Some (map (fun r => Num (confidence r)) rs)
    /\ column "primary_riasec_type" df'
       = Some (map (fun r => Str (primary_type r)) rs).
Proof.
  intros Hfw Hrect _.
  destruct (classify_rows_returns repr_float fw (labels df) skills_col
              title_col link_col (body df) Hfw) as [rs Hrs].
  destruct (process_dataframe_result _ _ _ _ _ _ _ Hrs Hrect)
    as (df' & Hp & _ & Hlen & _ & _ & H1 & H2 & H3 & _).
  exists rs, df'. split; [exact Hp|].
  split; [now apply classify_rows_each|].
  repeat (split; [assumption|]). assumption.
Qed.

Lemma process_dataframe_adds_classification_witness :
  exists r1 r2 df',
    process_dataframe (fun _ => "0.0") get_embedded_framework
      {| labels := ["job_skills"; "company"];
         body := [ [Str "welding"; Str "Yard"]; [NaN; Str "Clinic"] ] |}
      (Some "job_skills") None None = Some df'
    /\ classify_job get_embedded_framework "welding" EmptyString EmptyString
       = Some r1
    /\ classify_job get_embedded_framework "nan" EmptyString EmptyString
       = Some r2
    /\ column "riasec_code" df'
       = Some [Str (riasec_code r1); Str (riasec_code r2)].
Proof.
  destruct (process_dataframe_adds_classification (fun _ => "0.0")
              get_embedded_framework
              {| labels := ["job_skills"; "company"];
                 body := [ [Str "welding"; Str "Yard"];
                           [NaN; Str "Clinic"] ] |}
              (Some "job_skills") None None eq_refl)
    as (rs & df' & Hp & Hall & _ & Hc & _).
  - repeat constructor.
  - repeat constructor; simpl; intuition discriminate.
  - cbn [body] in Hall.
    inversion Hall as [|row1 r1 rows1 rs1 H1 Hall1]; subst.
    inversion Hall1 as [|row2 r2 rows2 rs2 H2 Hall2]; subst.
    inversion Hall2; subst.
    exists r1, r2, df'. split; [exact Hp|].
    split; [exact H1|]. split; [exact H2|exact Hc].
Defined.

(** [process_dataframe] leaves the rest of the frame alone: every column
    other than the three it sets keeps its cells, the labels keep their
    order, and of the three labels only those the frame did not have are
    added, at the end; one it already had is overwritten in place, so that
    distinct labels stay distinct. *)
Theorem process_dataframe_keeps_columns repr_float fw df skills_col
    title_col link_col df' :
  process_dataframe repr_float fw df skills_col title_col link_col
  = Some df' ->
  rectangular df ->
  NoDup (labels df) ->
  labels df'
  = (labels df
     ++ filter (fun c => negb (existsb (String.eqb c) (labels df)))
          added_columns)%list
  /\ NoDup (labels df')
  /\ (forall c, ~ In c added_columns -> column c df' = column c df).
Proof.
  intros Hp Hrect Hnd.
  destruct (classify_rows repr_float fw (labels df) skills_col title_col
              link_col (body df)) as [rs|] eqn:Hrs.
  - destruct (process_dataframe_result _ _ _ _ _ _ _ Hrs Hrect)
      as (df'' & Hp' & _ & _ & Hl & Hn & _ & _ & _ & Hc).
    rewrite Hp in Hp'. injection Hp' as <-.
    split; [exact Hl|]. split; [exact (Hn Hnd)|exact Hc].
  - unfold process_dataframe in Hp. rewrite Hrs in Hp. discriminate Hp.
Qed.

Lemma process_dataframe_keeps_columns_witness :
  exists df',
    process_dataframe (fun _ => "0.0") get_embedded_framework
      {| labels := ["riasec_code"; "job_skills"];
         body := [ [Str "???"; Str "welding"] ] |}
      (Some "job_skills") None None = Some df'
    /\ labels df'
       = ["riasec_code"; "job_skills"; "riasec_confidence";
          "primary_riasec_type"]
    /\ column "job_skills" df' = Some [Str "welding"].
Proof.
  eexists. split; [vm_compute; reflexivity|].
  destruct (process_dataframe_keeps_columns (fun _ => "0.0")
              get_embedded_framework
              {| labels := ["riasec_code"; "job_skills"];
                 body := [ [Str "???"; Str "welding"] ] |}
              (Some "job_skills") None None _ eq_refl)
    as (Hl & _ & Hc).
  - repeat constructor.
  - repeat constructor; simpl; intuition discriminate.
  - split; [exact Hl|]. apply (Hc "job_skills").
    simpl. intuition discriminate.
Defined.

End FrameFacts.

(* ================================================================== *)
(** ** The skills text counts through its normal form only *)
(* ================================================================== *)

Module NormalFormFacts.
Import Text Framework Classifier Spec TextFacts PassFacts TitleFacts MatchFacts.

Lemma map_str_app (f : ascii -> ascii) (a b : string) :
  map_str f (a ++ b) = map_str f a ++ map_str f b.
Proof. induction a as [|c r IH]; simpl; [reflexivity|]. now rewrite IH. Qed.

Lemma string_app_assoc (a b c : string) : (a ++ b) ++ c = a ++ (b ++ c).
Proof. induction a as [|x r IH]; simpl; [reflexivity|]. now rewrite IH. Qed.

(** Collapsing a text is collapsing its front and, from the state in which
    the front ends, its rear. *)
Lemma collapse_app (f : bool) (a : string) :
  exists g, forall x,
    collapse_from f (a ++ x) = collapse_from f a ++ collapse_from g x.
Proof.
  revert f. induction a as [|c r IH]; intro f.
  - exists f. reflexivity.
  - cbn [append collapse_from]. destruct (is_space c).
    + destruct (IH true) as [g Hg]. exists g. intro x. rewrite Hg.
      destruct f; reflexivity.
    + destruct (IH false) as [g Hg]. exists g. intro x. now rewrite Hg.
Qed.

Lemma collapse_true_no_lead (s : string) :
  lstrip (collapse_from true s) = collapse_from true s.
Proof.
  induction s as [|c r IH]; [reflexivity|]. cbn [collapse_from].
  destruct (is_space c) eqn:E; [exact IH|]. cbn [lstrip]. now rewrite E.
Qed.

Lemma lstrip_collapse (f : bool) (s : string) :
  lstrip (collapse_from f s) = collapse_from true s.
Proof.
  destruct s as [|c r]; [reflexivity|]. cbn [collapse_from].
  destruct (is_space c) eqn:E.
  - destruct f; [apply collapse_true_no_lead|].
    cbn [lstrip]. rewrite space_is_blank. apply collapse_true_no_lead.
  - cbn [lstrip]. now rewrite E.
Qed.

Lemma rstrip_app_rstrip (x d : string) :
  rstrip (x ++ rstrip d) = rstrip (x ++ d).
Proof.
  induction x as [|c r IH]; [apply rstrip_idempotent|].
  cbn [append rstrip]. now rewrite IH.
Qed.

Lemma strip_commute (s : string) : rstrip (lstrip s) = lstrip (rstrip s).
Proof.
  induction s as [|c r IH]; [reflexivity|]. cbn [lstrip rstrip].
  destruct (is_space c) eqn:E.
  - rewrite IH. destruct (rstrip r) as [|d r'] eqn:R; [reflexivity|].
    cbn [lstrip]. now rewrite E.
  - cbn [rstrip].
    destruct (rstrip r) as [|d r'] eqn:R; cbn [lstrip]; rewrite ?E;
      reflexivity.
Qed.

Lemma lstrip_app (p d : string) :
  lstrip (p ++ d)
  = if all_chars is_space p then lstrip d else lstrip p ++ d.
Proof.
  induction p as [|c r IH]; [reflexivity|].
  cbn [append lstrip all_chars]. destruct (is_space c); [exact IH|reflexivity].
Qed.

Lemma strip_app_rstrip (p d : string) :
  strip (p ++ rstrip d) = strip (p ++ d).
Proof.
  unfold strip. rewrite !lstrip_app. destruct (all_chars is_space p).
  - rewrite <- !strip_commute, !rstrip_idempotent. reflexivity.
  - apply rstrip_app_rstrip.
Qed.

Lemma replace_separators_space :
  replace_separators (lower " ") = " ".
Proof. reflexivity. Qed.

(** The text that is matched depends on the skills text through its
    normal form only. *)
Lemma combined_text_through_normal_form (job_title : string) :
  exists G : string -> string, forall skills_text,
    normalize_text (job_title ++ " " ++ skills_text)
    = G (normalize_text skills_text).
Proof.
  destruct (collapse_app false (replace_separators (lower job_title)))
    as [g Hg].
  set (P := collapse_from false (replace_separators (lower job_title))
            ++ (if g then EmptyString else " ")).
  exists (fun n => strip (P ++ n)). intro s.
  rewrite normalize_text_lower.
  unfold lower, replace_separators. rewrite !map_str_app.
  fold (lower job_title) (lower s) (lower " ").
  fold (replace_separators (lower job_title))
       (replace_separators (lower s)) (replace_separators (lower " ")).
  rewrite replace_separators_space. unfold collapse_whitespace.
  rewrite Hg. cbn [append collapse_from]. rewrite space_is_blank.
  set (D := collapse_from true (replace_separators (lower s))).
  assert (HN : normalize_text s = rstrip D).
  { rewrite normalize_text_lower. unfold strip, collapse_whitespace.
    now rewrite lstrip_collapse. }
  rewrite HN, strip_app_rstrip. unfold P.
  rewrite string_app_assoc. destruct g; reflexivity.
Qed.

(** Classification depends on the skills text through its normal form
    only: two skills texts with the same normal form (the same words,
    however they are cased, separated and spaced) give the same result. *)
Theorem classification_uses_normal_form (fw : framework)
    (skills_text skills_text' job_title job_link : string) :
  normalize_text skills_text' = normalize_text skills_text ->
  classify_job fw skills_text' job_title job_link
  = classify_job fw skills_text job_title job_link.
Proof.
  intro H.
  assert (Hs : forall t, calculate_riasec_scores fw skills_text' t
                         = calculate_riasec_scores fw skills_text t).
  { intro t. unfold calculate_riasec_scores.
    destruct (combined_text_through_normal_form t) as [G HG].
    now rewrite !HG, H. }
  unfold classify_job. now rewrite Hs.
Qed.

Lemma classification_uses_normal_form_witness :
  classify_job get_embedded_framework "Welding;  blueprint-reading |SQL "
    "Welder" EmptyString
  = classify_job get_embedded_framework "welding, blueprint reading, sql"
      "Welder" EmptyString.
Proof.
  apply classification_uses_normal_form. vm_compute. reflexivity.
Defined.

End NormalFormFacts.

(* ================================================================== *)
(** ** Comparing two codes *)
(* ================================================================== *)

Module ToolFacts.
Import Text Framework Classifier Tools Spec SpecMore.

Lemma existsb_eqb_in (c : ascii) (l : list ascii) :
  existsb (Ascii.eqb c) l = true <-> In c l.
Proof.
  rewrite existsb_exists. split.
  - intros (x & Hx & E). apply Ascii.eqb_eq in E. now subst.
  - intro H. exists c. split; [exact H|apply Ascii.eqb_refl].
Qed.

Lemma letters_of_nodup (s : string) : NoDup (letters_of s).
Proof.
  induction s as [|c r IH]; cbn [letters_of]; [constructor|].
  destruct (existsb (Ascii.eqb c) (letters_of r)) eqn:E; [exact IH|].
  constructor; [|exact IH]. intro H. apply existsb_eqb_in in H. congruence.
Qed.

Lemma letters_of_length (s : string) :
  length (letters_of s) <= String.length s.
Proof.
  induction s as [|c r IH]; cbn [letters_of String.length];
    [apply Nat.le_refl|].
  destruct (existsb (Ascii.eqb c) (letters_of r)); cbn [List.length]; lia.
Qed.

Lemma filter_shorter {A : Type} (f : A -> bool) (l : list A) :
  length (filter f l) <= length l.
Proof.
  induction l as [|x r IH]; cbn [filter length]; [lia|].
  destruct (f x); cbn [length]; lia.
Qed.

(** The letters two codes share, taken from either side. *)
Lemma shared_either_way (a b : list ascii) :
  NoDup a -> NoDup b ->
  Permutation (filter (fun c => existsb (Ascii.eqb c) b) a)
              (filter (fun c => existsb (Ascii.eqb c) a) b).
Proof.
  intros Ha Hb. apply NoDup_Permutation.
  - now apply NoDup_filter.
  - now apply NoDup_filter.
  - intro x. rewrite !filter_In, !existsb_eqb_in. tauto.
Qed.

Lemma same_at_sym (i : nat) (s t : string) : same_at i s t = same_at i t s.
Proof.
  unfold same_at. destruct (String.get i s), (String.get i t);
    try reflexivity. apply Ascii.eqb_sym.
Qed.

Lemma upper_length (s : string) : String.length (upper s) = String.length s.
Proof.
  unfold upper. induction s as [|c r IH]; simpl; [reflexivity|].
  now rewrite IH.
Qed.

Lemma first_letter (s : string) :
  String.get 0 (upper s) = None <-> s = EmptyString.
Proof. destruct s; simpl; split; intro H; try reflexivity; discriminate. Qed.

(** The fields of a comparison, one by one. *)
Lemma compare_result (a b : string) (r : comparison) :
  compare_riasec_codes a b = Some r ->
  exists l0 j0,
    String.get 0 (upper a) = Some l0
    /\ String.get 0 (upper b) = Some j0
    /\ learner_riasec r = upper a
    /\ job_riasec r = upper b
    /\ primary_match r = Ascii.eqb l0 j0
    /\ secondary_match r = same_at 1 (upper a) (upper b)
    /\ tertiary_match r = same_at 2 (upper a) (upper b)
    /\ shared_types r
       = filter (fun c => existsb (Ascii.eqb c) (letters_of (upper b)))
                (letters_of (upper a))
    /\ fit_score r
       = (if primary_match r then 50 else 0)
         + (if secondary_match r then 30 else 0)
         + (if tertiary_match r then 20
            else if 1 <? length (shared_types r)
                 then (length (shared_types r) - 1) * 10 else 0)
    /\ fit_level r
       = (if 80 <=? fit_score r then "Excellent"
          else if 50 <=? fit_score r then "Good"
          else if 30 <=? fit_score r then "Moderate" else "Low")
    /\ recommendation r
       = (if 80 <=? fit_score r
          then "Strong match - your interests align very well with this role"
          else if 50 <=? fit_score r
          then "Good match - your primary interests align with this role"
          else if 30 <=? fit_score r
          then "Moderate match - some shared interests but significant differences"
          else "Limited match - this role may be quite different from your natural preferences").
Proof.
  unfold compare_riasec_codes.
  destruct (String.get 0 (upper a)) as [l0|]; [|discriminate].
  destruct (String.get 0 (upper b)) as [j0|]; [|discriminate].
  cbn [bind]. cbv zeta.
  set (pm := Ascii.eqb l0 j0).
  set (sm := same_at 1 (upper a) (upper b)).
  set (tm := same_at 2 (upper a) (upper b)).
  set (sh := filter _ _).
  set (fs := if tm then _ else _).
  assert (Hfs : fs = (if pm then 50 else 0) + (if sm then 30 else 0)
                     + (if tm then 20
                        else if 1 <? length sh
                             then (length sh - 1) * 10 else 0)).
  { unfold fs. destruct pm, sm, tm; try reflexivity;
      destruct (1 <? length sh); lia. }
  clearbody fs. intro H. exists l0, j0.
  destruct (80 <=? fs) eqn:E80; [|destruct (50 <=? fs) eqn:E50;
                                   [|destruct (30 <=? fs) eqn:E30]];
    injection H as <-;
    cbn [learner_riasec job_riasec primary_match secondary_match
         tertiary_match shared_types fit_score fit_level recommendation];
    rewrite ?E80, ?E50, ?E30; repeat (split; [reflexivity|]);
    (split; [exact Hfs|split; reflexivity]).
Qed.

Lemma compare_returns (a b : string) :
  a <> EmptyString -> b <> EmptyString ->
  exists r, compare_riasec_codes a b = Some r.
Proof.
  intros Ha Hb. unfold compare_riasec_codes.
  destruct a as [|a0 a']; [now elim Ha|].
  destruct b as [|b0 b']; [now elim Hb|].
  cbn [upper map_str String.get bind]. cbv zeta.
  destruct (if _ : bool then _ else _) as [lv rc]. eexists. reflexivity.
Qed.

(** The comparison is symmetric: with learner and job exchanged, the score,
    the level, the recommendation and the three position matches are the
    same, and the shared letters are the same up to order. *)
Theorem compare_is_symmetric (a b : string) (r : comparison) :
  compare_riasec_codes a b = Some r ->
  exists r',
    compare_riasec_codes b a = Some r'
    /\ learner_riasec r' = job_riasec r
    /\ job_riasec r' = learner_riasec r
    /\ fit_score r' = fit_score r
    /\ fit_level r' = fit_level r
    /\ recommendation r' = recommendation r
    /\ primary_match r' = primary_match r
    /\ secondary_match r' = secondary_match r
    /\ tertiary_match r' = tertiary_match r
    /\ Permutation (shared_types r') (shared_types r).
Proof.
  intro H.
  destruct (compare_result a b r H)
    as (l0 & j0 & Hl & Hj & Hlr & Hjr & Hp & Hs & Ht & Hsh & Hf & Hlv & Hrc).
  destruct (compare_returns b a) as [r' H'].
  { intro E. apply first_letter in E. congruence. }
  { intro E. apply first_letter in E. congruence. }
  destruct (compare_result b a r' H')
    as (l0' & j0' & Hl' & Hj' & Hlr' & Hjr' & Hp' & Hs' & Ht' & Hsh' & Hf'
        & Hlv' & Hrc').
  assert (Epm : primary_match r' = primary_match r).
  { rewrite Hp, Hp'. rewrite Hl in Hj'. rewrite Hj in Hl'.
    injection Hj' as <-. injection Hl' as <-. apply Ascii.eqb_sym. }
  assert (Esm : secondary_match r' = secondary_match r)
    by (rewrite Hs, Hs'; apply same_at_sym).
  assert (Etm : tertiary_match r' = tertiary_match r)
    by (rewrite Ht, Ht'; apply same_at_sym).
  assert (Esh : Permutation (shared_types r') (shared_types r)).
  { rewrite Hsh, Hsh'. apply shared_either_way; apply letters_of_nodup. }
  assert (Efs : fit_score r' = fit_score r).
  { rewrite Hf, Hf', Epm, Esm, Etm, (Permutation_length Esh). reflexivity. }
  exists r'. split; [exact H'|].
  split; [congruence|]. split; [congruence|]. split; [exact Efs|].
  split; [rewrite Hlv, Hlv', Efs; reflexivity|].
  split; [rewrite Hrc, Hrc', Efs; reflexivity|].
  split; [exact Epm|]. split; [exact Esm|]. split; [exact Etm|exact Esh].
Qed.

Lemma compare_is_symmetric_witness :
  exists r',
    compare_riasec_codes "SRI" "ira" = Some r'
    /\ fit_score r' = 40.
Proof.
  destruct (compare_is_symmetric "ira" "SRI" _ eq_refl)
    as (r' & H & _ & _ & Hf & _).
  exists r'. split; [exact H|]. rewrite Hf. reflexivity.
Defined.

(** A code without a first letter cannot be compared: the comparison
    raises exactly when one of the two codes is empty. *)
Theorem compare_needs_first_letters (a b : string) :
  compare_riasec_codes a b = None <-> a = EmptyString \/ b = EmptyString.
Proof.
  split.
  - intro H. destruct a as [|a0 a']; [now left|].
    destruct b as [|b0 b']; [now right|].
    destruct (compare_returns (String a0 a') (String b0 b')) as [r Hr];
      try discriminate. congruence.
  - intros [->| ->]; [reflexivity|].
    unfold compare_riasec_codes. destruct (String.get 0 (upper a));
      reflexivity.
Qed.

Lemma shared_count (a b : string) (r : comparison) :
  compare_riasec_codes a b = Some r ->
  length (shared_types r) <= String.length a
  /\ length (shared_types r) <= String.length b.
Proof.
  intro H.
  destruct (compare_result a b r H)
    as (_ & _ & _ & _ & _ & _ & _ & _ & _ & Hsh & _).
  split.
  - rewrite Hsh, <- (upper_length a).
    etransitivity; [apply filter_shorter|apply letters_of_length].
  - rewrite Hsh, <- (upper_length b).
    rewrite (Permutation_length
               (shared_either_way _ _ (letters_of_nodup (upper a))
                  (letters_of_nodup (upper b)))).
    etransitivity; [apply filter_shorter|apply letters_of_length].
Qed.

(** The fit score stays within 0..100 when one of the codes has at most
    three letters. *)
Theorem fit_score_at_most_100 (a b : string) (r : comparison) :
  compare_riasec_codes a b = Some r ->
  String.length a <= 3 \/ String.length b <= 3 ->
  fit_score r <= 100.
Proof.
  intros H Hlen.
  destruct (shared_count a b r H) as [Sa Sb].
  destruct (compare_result a b r H)
    as (_ & _ & _ & _ & _ & _ & _ & _ & _ & _ & Hf & _).
  rewrite Hf.
  destruct (primary_match r), (secondary_match r), (tertiary_match r);
    try lia;
    destruct (1 <? length (shared_types r)); lia.
Qed.

Lemma fit_score_at_most_100_witness :
  exists r, compare_riasec_codes "IRA" "IAR" = Some r /\ fit_score r <= 100.
Proof.
  eexists. split; [reflexivity|].
  apply (fit_score_at_most_100 "IRA" "IAR" _ eq_refl).
  left. simpl. lia.
Defined.

Ltac decide_eqb :=
  repeat match goal with
  | |- context [Ascii.eqb ?x ?x] => rewrite (Ascii.eqb_refl x)
  | H : ?x <> ?y |- context [Ascii.eqb ?x ?y] =>
      rewrite (proj2 (Ascii.eqb_neq x y) H)
  | H : ?y <> ?x |- context [Ascii.eqb ?x ?y] =>
      rewrite (proj2 (Ascii.eqb_neq x y) (not_eq_sym H))
  end.

(** Two three-letter codes that agree in the first two places and differ
    in the third share at most two letters. *)
Lemma third_differs_shares_two (u0 u1 u2 v2 : ascii) :
  u2 <> v2 ->
  length (filter (fun c => existsb (Ascii.eqb c)
                             (letters_of (String u0 (String u1
                                            (String v2 EmptyString)))))
                 (letters_of (String u0 (String u1
                                (String u2 EmptyString))))) <= 2.
Proof.
  intro H.
  destruct (ascii_dec u0 u1) as [E01|N01]; [subst u1|];
    (destruct (ascii_dec u0 u2) as [E02|N02]; [subst u2|]);
    (destruct (ascii_dec u0 v2) as [E03|N03]; [subst v2|]);
    try (now elim H);
    try (destruct (ascii_dec u1 u2) as [E12|N12]; [subst u2|]);
    try (destruct (ascii_dec u1 v2) as [E13|N13]; [subst v2|]);
    try (now elim H);
    repeat (decide_eqb;
            cbn [letters_of existsb filter orb length]);
    lia.
Qed.

(** Among three-letter codes the perfect score is that of identical codes:
    the fit score is 100 exactly when the two codes are the same, letter
    case apart. *)
Theorem perfect_fit_is_same_code (a b : string) (r : comparison) :
  String.length a = 3 -> String.length b = 3 ->
  compare_riasec_codes a b = Some r ->
  (fit_score r = 100 <-> upper a = upper b).
Proof.
  intros La Lb H.
  destruct (shared_count a b r H) as [Sa _]. rewrite La in Sa.
  destruct (compare_result a b r H)
    as (l0 & j0 & Hl & Hj & _ & _ & Hp & Hs & Ht & Hsh & Hf & _).
  destruct a as [|a0 [|a1 [|a2 [|? ?]]]]; try discriminate La.
  destruct b as [|b0 [|b1 [|b2 [|? ?]]]]; try discriminate Lb.
  cbn [upper map_str String.get same_at] in *.
  injection Hl as <-. injection Hj as <-.
  set (u0 := upper_char a0) in *. set (u1 := upper_char a1) in *.
  set (u2 := upper_char a2) in *. set (v0 := upper_char b0) in *.
  set (v1 := upper_char b1) in *. set (v2 := upper_char b2) in *.
  clearbody u0 u1 u2 v0 v1 v2.
  rewrite Hf, Hp, Hs, Ht. split.
  - intro E.
    destruct (Ascii.eqb_spec u0 v0) as [E0|N0];
      destruct (Ascii.eqb_spec u1 v1) as [E1|N1];
      destruct (Ascii.eqb_spec u2 v2) as [E2|N2];
      try (subst; reflexivity);
      try (destruct (1 <? length (shared_types r)); lia).
    subst v0 v1.
    pose proof (third_differs_shares_two u0 u1 u2 v2 N2) as Hle.
    rewrite <- Hsh in Hle.
    destruct (1 <? length (shared_types r)); lia.
  - intro E. injection E as -> -> ->. now rewrite !Ascii.eqb_refl.
Qed.

Lemma perfect_fit_is_same_code_witness :
  exists r, compare_riasec_codes "ira" "IRA" = Some r /\ fit_score r = 100.
Proof.
  eexists. split; [reflexivity|].
  apply (perfect_fit_is_same_code "ira" "IRA" _ eq_refl eq_refl eq_refl).
  reflexivity.
Defined.

End ToolFacts.

(* ================================================================== *)
(** ** Inference from a list of skills *)
(* ================================================================== *)

Module InferFacts.
Import Text Framework Classifier Tools Spec TextFacts MatchFacts.
Import NormalFormFacts.

Lemma concat_cons (sep x y : string) (l : list string) :
  String.concat sep (x :: y :: l) = x ++ sep ++ String.concat sep (y :: l).
Proof. reflexivity. Qed.

(** The joined text of a list of skills around two neighbours. *)
Lemma joined_around (sep a b : string) (l1 l2 : list string) :
  exists pre post,
    (forall mid, String.concat sep (l1 ++ mid :: l2) = pre ++ mid ++ post)
    /\ String.concat sep (l1 ++ a :: b :: l2)
       = pre ++ (a ++ sep ++ b) ++ post.
Proof.
  induction l1 as [|x r (pre & post & Hmid & Hab)].
  - exists EmptyString.
    exists (match l2 with [] => EmptyString
                        | _ => sep ++ String.concat sep l2 end).
    cbn [app append]. split.
    + intro mid. destruct l2; cbn [String.concat]; [|reflexivity].
      clear. induction mid as [|c m IH]; [reflexivity|]. simpl. now f_equal.
    + rewrite concat_cons, !string_app_assoc. do 2 f_equal.
      destruct l2; cbn [String.concat]; [|reflexivity].
      clear. induction b as [|c m IH]; [reflexivity|]. simpl. now f_equal.
  - exists (x ++ sep ++ pre), post. split.
    + intro mid. cbn [app].
      destruct r as [|y r']; cbn [app] in *.
      * rewrite concat_cons, (Hmid mid). now rewrite !string_app_assoc.
      * rewrite concat_cons, (Hmid mid). now rewrite !string_app_assoc.
    + cbn [app]. destruct r as [|y r']; cbn [app] in *.
      * rewrite concat_cons, Hab. now rewrite !string_app_assoc.
      * rewrite concat_cons, Hab. now rewrite !string_app_assoc.
Qed.

(** A comma and a blank between two pieces of text normalise like a single
    blank. *)
Lemma comma_is_a_blank (x y : string) :
  normalize_text (x ++ ", " ++ y) = normalize_text (x ++ " " ++ y).
Proof.
  rewrite !normalize_text_lower.
  unfold lower, replace_separators. rewrite !map_str_app.
  destruct (collapse_app false
              (map_str (fun c => if is_sep c then " "%char else c)
                       (map_str lower_char x))) as [g Hg].
  unfold collapse_whitespace. rewrite !Hg.
  cbn [map_str append]. 
  change (if is_sep (lower_char ",") then " "%char else lower_char ",")
    with " "%char.
  change (if is_sep (lower_char " ") then " "%char else lower_char " ")
    with " "%char.
  cbn [collapse_from]. rewrite space_is_blank. destruct g; reflexivity.
Qed.

(** Two neighbouring skills are read as one phrase: the comma that joins
    the skills of the list counts as a blank, so the inference from a list
    is that from the list with two neighbours joined by a blank. *)
Theorem adjacent_skills_form_a_phrase (fw : framework) (a b : string)
    (before after : list string) :
  infer_riasec_from_skills fw (before ++ a :: b :: after)
  = infer_riasec_from_skills fw (before ++ (a ++ " " ++ b) :: after).
Proof.
  unfold infer_riasec_from_skills.
  destruct (joined_around ", " a b before after)
    as (pre & post & Hmid & Hab).
  rewrite Hab, (Hmid (a ++ " " ++ b)).
  assert (Hn : normalize_text (pre ++ (a ++ ", " ++ b) ++ post)
               = normalize_text (pre ++ (a ++ " " ++ b) ++ post)).
  { rewrite !string_app_assoc, <- !(string_app_assoc pre a).
    apply comma_is_a_blank. }
  unfold classify_job, calculate_riasec_scores.
  destruct (combined_text_through_normal_form EmptyString) as [G HG].
  now rewrite !HG, Hn.
Qed.

End InferFacts.
